(** * CoCompiler: lexer, parser, symbol table, bytecode compiler and stack VM

    A shallow embedding of [include/Tokens.h], [include/AST.h],
    [include/Bytecode.h], [src/Lexer.cpp], [src/Parser.cpp],
    [src/SymbolTable.cpp], [src/Compiler.cpp] and [src/VM.cpp], followed
    by the properties of the pipeline from source text to the run.

    Conventions of the embedding
    - [std::vector] is a [list] in index order, except the two vectors the
      code only uses as stacks ([SymbolTable::scopes], [VM::stack]), whose
      head is the C++ [back()].
    - [std::unordered_map<std::string, Symbol>] is a [gmap string Symbol].
    - [double] is the binary64 instance of the Standard Library's
      [spec_float]; [float] is the binary32 instance.
    - [int] counters ([next_address], [bytecode.size()] casts) are
      mathematical integers; the embedding covers compilations with fewer
      than 2^31 symbols and instructions.
    - [std::cerr] is a list of structured diagnostics, [std::cout] a list of
      printed items.  The per-instruction "DEBUG:" trace of [VM::run] is
      not part of the embedding. *)

From Stdlib Require Import ZArith Lia Bool Ascii String.
From Stdlib Require Import SpecFloat.
From stdpp Require Import base option list strings gmap.

Local Open Scope Z_scope.

(** ** Tokens (include/Tokens.h) *)

Module TokenType.
Inductive t :=
| EOF_TOKEN
| INT_LITERAL | FLOAT_LITERAL | STRING_LITERAL | TRUE | FALSE
| PLUS | MINUS | STAR | SLASH
| GREATER | LESS | GREATER_EQUAL | LESS_EQUAL | EQUAL_EQUAL | BANG_EQUAL
| BANG | AND | OR
| LPAREN | RPAREN
| VAR | PRINT
| IDENTIFIER
| ASSIGN
| SEMICOLON
| IF | ELSE | LBRACE | RBRACE.

#[global] Instance eq_dec : EqDecision t.
Proof. solve_decision. Defined.
End TokenType.

Record Token := mkToken {
  tok_type : TokenType.t;
  tok_value : string;
  tok_line : Z;
  tok_column : Z
}.

(** ** Node type tags (ASTNode::Type, include/AST.h) *)

Module NodeType.
Inductive t :=
| INTEGER | FLOAT | UNKNOWN
| IDENTIFIER_EXPRESSION | ASSIGNMENT_EXPRESSION | VARIABLE_DECLARATION
| IF_STATEMENT | BLOCK_STATEMENT | PRINT_STATEMENT
| STRING_LITERAL | BOOLEAN_LITERAL | UNARY_EXPRESSION.

#[global] Instance eq_dec : EqDecision t.
Proof. solve_decision. Defined.
End NodeType.

(** ** The syntax tree (include/AST.h)

    [Expression] is the C++ class of that name with its six concrete
    subclasses; [ASTNode] adds the statement classes.  A field of static
    type [Expression*] is an [Expression], a nullable field an [option].
    [OtherNode] stands for an [ASTNode] subclass that [compileNode] does
    not know (its last [else]). *)

Inductive Expression :=
| Literal (token : Token)
| BooleanLiteral (token : Token)
| IdentifierExpression (identifier : Token)
| AssignmentExpression (identifier : Token) (value : Expression)
| BinaryExpression (left : Expression) (op : Token) (right : Expression)
| UnaryExpression (op : Token) (right : Expression).

Local Unset Elimination Schemes.
Inductive ASTNode :=
| ExpressionNode (e : Expression)
| VariableDeclaration (identifier : Token) (initializer : option Expression)
| IfStatement (condition : Expression) (thenBranch : ASTNode)
              (elseBranch : option ASTNode)
| BlockStatement (statements : list ASTNode)
| PrintStatement (expression : Expression)
| OtherNode.
Local Set Elimination Schemes.

Definition is_numeric (t : NodeType.t) : bool :=
  match t with NodeType.INTEGER | NodeType.FLOAT => true | _ => false end.

Definition is_string (t : NodeType.t) : bool :=
  match t with NodeType.STRING_LITERAL => true | _ => false end.

(** [Literal::getType]. *)
Definition Literal_getType (token : Token) : NodeType.t :=
  match tok_type token with
  | TokenType.INT_LITERAL => NodeType.INTEGER
  | TokenType.FLOAT_LITERAL => NodeType.FLOAT
  | TokenType.STRING_LITERAL => NodeType.STRING_LITERAL
  | _ => NodeType.UNKNOWN
  end.

(** [BinaryExpression::getType], on the types of the two operands. *)
Definition Binary_getType (leftType : NodeType.t) (op : Token)
    (rightType : NodeType.t) : NodeType.t :=
  let numeric_rest :=
    if bool_decide (leftType = NodeType.UNKNOWN)
       || bool_decide (rightType = NodeType.UNKNOWN) then NodeType.UNKNOWN
    else if bool_decide (leftType = NodeType.FLOAT)
            || bool_decide (rightType = NodeType.FLOAT) then NodeType.FLOAT
    else if bool_decide (leftType = NodeType.INTEGER)
            || bool_decide (rightType = NodeType.INTEGER) then NodeType.INTEGER
    else if bool_decide (leftType = NodeType.BOOLEAN_LITERAL)
            || bool_decide (rightType = NodeType.BOOLEAN_LITERAL)
         then NodeType.BOOLEAN_LITERAL
    else NodeType.UNKNOWN in
  match tok_type op with
  | TokenType.PLUS =>
      if is_string leftType && is_string rightType then NodeType.STRING_LITERAL
      else if (is_string leftType && is_numeric rightType)
              || (is_numeric leftType && is_string rightType)
           then NodeType.UNKNOWN
      else numeric_rest
  | _ => numeric_rest
  end.

(** The virtual [getType] of the expression classes. *)
Fixpoint getType (e : Expression) : NodeType.t :=
  match e with
  | Literal token => Literal_getType token
  | BooleanLiteral _ => NodeType.BOOLEAN_LITERAL
  | IdentifierExpression _ => NodeType.IDENTIFIER_EXPRESSION
  | AssignmentExpression _ value => getType value
  | BinaryExpression l op r => Binary_getType (getType l) op (getType r)
  | UnaryExpression _ r => getType r
  end.

(** ** Numbers

    [double] and [float] are IEEE 754 binary64 and binary32.  Both live in
    [spec_float]; the operations take the format as parameters. *)

Module Double.
Definition prec : Z := 53.
Definition emax : Z := 1024.

Definition t := spec_float.

Definition zero : t := S754_zero false.

(** [static_cast<double>(int)]: every [int] is exactly representable. *)
Definition of_int (z : Z) : t := binary_normalize prec emax z 0 false.

Definition one : t := of_int 1.
Definition minus_one : t := of_int (-1).

Definition add : t -> t -> t := SFadd prec emax.
Definition sub : t -> t -> t := SFsub prec emax.
Definition mul : t -> t -> t := SFmul prec emax.
Definition div : t -> t -> t := SFdiv prec emax.
Definition neg : t -> t := SFopp.

(** The C++ comparisons; each is false when an operand is NaN, except
    [!=], which is the negation of [==]. *)
Definition eqb (x y : t) : bool := SFeqb x y.
Definition neqb (x y : t) : bool := negb (SFeqb x y).
Definition ltb (x y : t) : bool := SFltb x y.
Definition leb (x y : t) : bool := SFleb x y.
Definition gtb (x y : t) : bool := SFltb y x.
Definition geb (x y : t) : bool := SFleb y x.

Definition of_bool (b : bool) : t := if b then one else zero.

Definition INT_MIN : Z := - 2 ^ 31.
Definition INT_MAX : Z := 2 ^ 31 - 1.

(** The integer part of a finite value (truncation toward zero). *)
Definition trunc (x : t) : option Z :=
  match x with
  | S754_zero _ => Some 0
  | S754_finite s m e =>
      let a := if 0 <=? e then Z.pos m * 2 ^ e else Z.pos m / 2 ^ (- e) in
      Some (if s then - a else a)
  | _ => None
  end.

(** [static_cast<int>(double)]: defined when the truncated value fits an
    [int]; [None] is the undefined behaviour of the other cases. *)
Definition to_int (x : t) : option Z :=
  match trunc x with
  | Some z => if (INT_MIN <=? z) && (z <=? INT_MAX) then Some z else None
  | None => None
  end.
End Double.

Module Float.
Definition prec : Z := 24.
Definition emax : Z := 128.

Definition t := spec_float.

(** [static_cast<double>(float)]: the same value in the wider format. *)
Definition to_double (x : t) : Double.t :=
  match x with
  | S754_finite s m e =>
      binary_normalize Double.prec Double.emax
        (if s then Z.neg m else Z.pos m) e false
  | _ => x
  end.
End Float.

(** ** Faults

    What [compile] and [run] do when they do not return: an uncaught
    exception of the standard library, or undefined behaviour. *)

Inductive Fault :=
| StdInvalidArgument      (* std::invalid_argument from stoi/stof *)
| StdOutOfRange           (* std::out_of_range from stoi/stof *)
| NullDereference         (* member access through a null pointer *)
| DanglingPointer.        (* a Symbol* that no longer designates a symbol *)

Inductive Res (A : Type) :=
| Ok (a : A)
| Crash (f : Fault).
Arguments Ok {A} a.
Arguments Crash {A} f.

#[global] Instance Res_ret : MRet Res := fun A a => Ok a.
#[global] Instance Res_bind : MBind Res := fun A B k m =>
  match m with
  | Ok a => k a
  | Crash f => Crash f
  end.

(** ** [std::stoi] and [std::stof] on literal text

    The lexer's [number()] yields a nonempty run of decimal digits for an
    [INT_LITERAL] and digits with exactly one ['.'] for a [FLOAT_LITERAL];
    the two functions below follow the library on such text (and on
    leading white space and a sign).  They stop at the first other
    character, so exponent, hexadecimal, "inf" and "nan" spellings, which
    the lexer cannot produce, are outside the embedding. *)

Module Parse.
Definition is_digit (c : ascii) : bool :=
  let n := nat_of_ascii c in (48 <=? n)%nat && (n <=? 57)%nat.

Definition digit_value (c : ascii) : Z := Z.of_nat (nat_of_ascii c) - 48.

Definition is_space (c : ascii) : bool :=
  let n := nat_of_ascii c in
  (n =? 32)%nat || ((9 <=? n)%nat && (n <=? 13)%nat).

Fixpoint skip_spaces (s : list ascii) : list ascii :=
  match s with
  | c :: rest => if is_space c then skip_spaces rest else s
  | [] => []
  end.

(** An optional sign: [true] for ['-']. *)
Definition sign (s : list ascii) : bool * list ascii :=
  match s with
  | "-"%char :: rest => (true, rest)
  | "+"%char :: rest => (false, rest)
  | _ => (false, s)
  end.

(** The longest digit prefix, folded into [acc]; also how many digits. *)
Fixpoint digits (s : list ascii) (acc : Z) (count : nat)
    : Z * nat * list ascii :=
  match s with
  | c :: rest =>
      if is_digit c then digits rest (10 * acc + digit_value c) (S count)
      else (acc, count, s)
  | [] => (acc, count, [])
  end.
End Parse.

Definition stoi (text : string) : Res Z :=
  let '(neg, s) := Parse.sign (Parse.skip_spaces (list_ascii_of_string text)) in
  let '(n, count, _) := Parse.digits s 0 0 in
  match count with
  | O => Crash StdInvalidArgument
  | _ =>
      let z := if neg then - n else n in
      if (Double.INT_MIN <=? z) && (z <=? Double.INT_MAX) then Ok z
      else Crash StdOutOfRange
  end.

(** [m * 2^e * den = num], on integers. *)
Definition exact_quotient (m : positive) (e : Z) (num den : Z) : bool :=
  if 0 <=? e then Z.pos m * 2 ^ e * den =? num
  else Z.pos m * den =? num * 2 ^ (- e).

(** Decimal text rounded to the nearest value of a binary format (ties to
    even), as [strtof] and [strtod] do; they set [ERANGE] on overflow and
    on an inexact tiny result, which [std::stof] and [std::stod] turn into
    [std::out_of_range]. *)
Definition round_decimal (prec emax : Z) (text : string) : Res spec_float :=
  let '(neg, s) := Parse.sign (Parse.skip_spaces (list_ascii_of_string text)) in
  let '(n1, count1, s1) := Parse.digits s 0 0 in
  let '(n, count2) :=
    match s1 with
    | "."%char :: s2 =>
        let '(n2, count, _) := Parse.digits s2 n1 0 in (n2, count)
    | _ => (n1, O)
    end in
  match (count1 + count2)%nat, n with
  | O, _ => Crash StdInvalidArgument
  | _, Z.pos num =>
      let den := 10 ^ Z.of_nat count2 in
      let r := SFdiv prec emax
                 (S754_finite neg num 0) (S754_finite false (Z.to_pos den) 0) in
      match r with
      | S754_finite _ m e =>
          if (Z.pos (digits2_pos m) <? prec)
             && negb (exact_quotient m e (Z.pos num) den)
          then Crash StdOutOfRange else Ok r
      | _ => Crash StdOutOfRange
      end
  | _, _ => Ok (S754_zero neg)
  end.

Definition stof (text : string) : Res Float.t :=
  round_decimal Float.prec Float.emax text.

(** ** Diagnostics written to [std::cerr] during compilation *)

Inductive Diagnostic :=
| ErrUndeclaredVariable (identifier : Token)
| ErrAssignUndeclared (identifier : Token)
| ErrTypeMismatch (identifier : Token) (expected got : NodeType.t)
| ErrLogicalOperands (op : TokenType.t)
| ErrPlusOperands
| ErrArithmeticOperands (op : Token)
| ErrComparisonOperands (op : Token)
| ErrUnknownBinaryOperator (op : Token)
| ErrUnknownUnaryOperator
| ErrInitializerUndeclared (identifier : Token)
| ErrInternalSymbolNotFound
| ErrUnknownNode
| ErrNoActiveScope
| ErrSymbolExists (name : string)
| WarnExitGlobalScope
| WarnResolveUndeclared (identifier : Token).

(** The two lines that start with "Warning"/"Compiler Warning" are
    warnings; every other line reports an error. *)
Definition is_error (d : Diagnostic) : bool :=
  match d with
  | WarnExitGlobalScope | WarnResolveUndeclared _ => false
  | _ => true
  end.

Definition has_error (ds : list Diagnostic) : bool := existsb is_error ds.

(** ** Symbol table (include/SymbolTable.h, src/SymbolTable.cpp) *)

Record Symbol := mkSymbol {
  name : string;
  type : NodeType.t;
  address : Z
}.

(** A [Symbol*] into the table: the scope, counted from the innermost
    one, and the key.  The compiler never enters or leaves a scope while
    it holds one. *)
Record SymbolRef := mkRef { ref_scope : nat; ref_name : string }.

Module SymbolTable.
Record t := mk {
  scopes : list (gmap string Symbol);   (* head = scopes.back() *)
  next_address : Z
}.

Definition enterScope (st : t) : t :=
  mk (∅ :: scopes st) (next_address st).

(** [SymbolTable::SymbolTable()] *)
Definition new : t := enterScope (mk [] 0).

Definition exitScope (st : t) : t * list Diagnostic :=
  match scopes st with
  | _ :: (_ :: _) as rest => (mk rest (next_address st), [])
  | _ => (st, [WarnExitGlobalScope])
  end.

Definition addSymbol (name : string) (type : NodeType.t) (st : t)
    : bool * t * list Diagnostic :=
  match scopes st with
  | [] => (false, st, [ErrNoActiveScope])
  | top :: rest =>
      match top !! name with
      | Some _ => (false, st, [ErrSymbolExists name])
      | None =>
          (true,
           mk (<[name := mkSymbol name type (next_address st)]> top :: rest)
              (next_address st + 1),
           [])
      end
  end.

Fixpoint find (name : string) (ss : list (gmap string Symbol)) (i : nat)
    : option SymbolRef :=
  match ss with
  | [] => None
  | scope :: rest =>
      match scope !! name with
      | Some _ => Some (mkRef i name)
      | None => find name rest (S i)
      end
  end.

Definition lookupSymbol (name : string) (st : t) : option SymbolRef :=
  find name (scopes st) 0%nat.

(** Reading and writing through a [Symbol*]. *)
Definition deref (p : SymbolRef) (st : t) : option Symbol :=
  scopes st !! ref_scope p ≫= fun scope => scope !! ref_name p.

Definition set_type (p : SymbolRef) (ty : NodeType.t) (st : t) : t :=
  mk (alter (alter (fun s => mkSymbol (name s) ty (address s)) (ref_name p))
            (ref_scope p) (scopes st))
     (next_address st).
End SymbolTable.

(** ** Bytecode (include/Bytecode.h) *)

Module Instruction.
Inductive t :=
| PUSH_INT | PUSH_FLOAT | ADD | SUB | MUL | DIV | NEGATE | POP
| STORE | LOAD | HALT
| JUMP_IF_FALSE | JUMP | JUMP_IF_TRUE
| GREATER | LESS | GREATER_EQUAL | LESS_EQUAL | EQUAL_EQUAL | BANG_EQUAL
| NOT | AND | OR
| PUSH_STRING | CONCAT_STRING | PRINT_VALUE | PRINT_STRING.

#[global] Instance eq_dec : EqDecision t.
Proof. solve_decision. Defined.
End Instruction.

Record Bytecode := mkBytecode {
  instruction : Instruction.t;
  operand : Double.t
}.

(** The three constructors of [struct Bytecode]. *)
Definition Bytecode_op (i : Instruction.t) : Bytecode :=
  mkBytecode i Double.zero.
Definition Bytecode_int (i : Instruction.t) (intOperand : Z) : Bytecode :=
  mkBytecode i (Double.of_int intOperand).
Definition Bytecode_float (i : Instruction.t) (floatOperand : Float.t)
    : Bytecode :=
  mkBytecode i (Float.to_double floatOperand).

(** [bytecode[idx].operand = target] *)
Definition set_operand (target : Z) (b : Bytecode) : Bytecode :=
  mkBytecode (instruction b) (Double.of_int target).

Definition patch (idx : nat) (target : Z) (code : list Bytecode)
    : list Bytecode :=
  alter (set_operand target) idx code.

Definition size {A} (l : list A) : Z := Z.of_nat (length l).

Definition empty {A} (l : list A) : bool :=
  match l with [] => true | _ => false end.

(** ** Compiler (src/Compiler.h, src/Compiler.cpp) *)

Module Compiler.
Record t := mk {
  bytecode : list Bytecode;
  symbolTable : SymbolTable.t;
  string_literals : list string;
  cerr : list Diagnostic
}.

(** [Compiler::Compiler()] *)
Definition new : t := mk [] SymbolTable.new [] [].

Definition with_bytecode (code : list Bytecode) (c : t) : t :=
  mk code (symbolTable c) (string_literals c) (cerr c).

Definition with_symbolTable (st : SymbolTable.t) (c : t) : t :=
  mk (bytecode c) st (string_literals c) (cerr c).

(** [bytecode.push_back(b)] *)
Definition emit (b : Bytecode) (c : t) : t :=
  with_bytecode (bytecode c ++ [b]) c.

Definition report (ds : list Diagnostic) (c : t) : t :=
  mk (bytecode c) (symbolTable c) (string_literals c) (cerr c ++ ds).

(** A diagnostic followed by [bytecode.clear(); return;] *)
Definition fail (d : Diagnostic) (c : t) : t :=
  with_bytecode [] (report [d] c).

Definition enterScope (c : t) : t :=
  with_symbolTable (SymbolTable.enterScope (symbolTable c)) c.

Definition exitScope (c : t) : t :=
  let '(st, ds) := SymbolTable.exitScope (symbolTable c) in
  report ds (with_symbolTable st c).

(** [Compiler::getLiteralType] *)
Definition getLiteralType (token : Token) : NodeType.t :=
  match tok_type token with
  | TokenType.INT_LITERAL => NodeType.INTEGER
  | TokenType.FLOAT_LITERAL => NodeType.FLOAT
  | TokenType.STRING_LITERAL => NodeType.STRING_LITERAL
  | TokenType.TRUE | TokenType.FALSE => NodeType.BOOLEAN_LITERAL
  | _ => NodeType.UNKNOWN
  end.

(** [Compiler::resolveExpressionType]; the diagnostics are its warnings. *)
Fixpoint resolveExpressionType (expr : Expression) (st : SymbolTable.t)
    : NodeType.t * list Diagnostic :=
  match expr with
  | IdentifierExpression identifier =>
      match SymbolTable.lookupSymbol (tok_value identifier) st
            ≫= fun p => SymbolTable.deref p st with
      | Some symbol => (type symbol, [])
      | None => (NodeType.UNKNOWN, [WarnResolveUndeclared identifier])
      end
  | BinaryExpression l op r =>
      let '(leftType, dl) := resolveExpressionType l st in
      let '(rightType, dr) := resolveExpressionType r st in
      let numeric_or_bool (ty : NodeType.t) :=
        is_numeric ty || bool_decide (ty = NodeType.BOOLEAN_LITERAL) in
      (if bool_decide (tok_type op = TokenType.PLUS)
          && is_string leftType && is_string rightType
       then NodeType.STRING_LITERAL
       else if numeric_or_bool leftType && numeric_or_bool rightType
       then if bool_decide (leftType = NodeType.FLOAT)
               || bool_decide (rightType = NodeType.FLOAT)
            then NodeType.FLOAT else NodeType.INTEGER
       else NodeType.UNKNOWN,
       dl ++ dr)
  | _ => (getType expr, [])
  end.

(** The operand type as [compileNode] computes it for a binary
    expression: [getLiteralType] for a [Literal], else
    [resolveExpressionType]. *)
Definition operandType (e : Expression) (st : SymbolTable.t)
    : NodeType.t * list Diagnostic :=
  match e with
  | Literal token => (getLiteralType token, [])
  | _ => resolveExpressionType e st
  end.

Definition bool_or_int (ty : NodeType.t) : bool :=
  match ty with
  | NodeType.BOOLEAN_LITERAL | NodeType.INTEGER => true
  | _ => false
  end.

(** The tail shared by [&&] and [||] once both operands are lowered:
    the jump over the landing pad, the two patches and the pad. *)
Definition close_short_circuit (jump_idx : nat) (pad : Z) (c : t) : t :=
  let jumpToEnd_idx := length (bytecode c) in
  let c := emit (Bytecode_int Instruction.JUMP 0) c in
  let c := with_bytecode (patch jump_idx (size (bytecode c)) (bytecode c)) c in
  let c := emit (Bytecode_int Instruction.PUSH_INT pad) c in
  with_bytecode (patch jumpToEnd_idx (size (bytecode c)) (bytecode c)) c.

(** Pushing a symbol's address through its pointer. *)
Definition push_address (p : SymbolRef) (c : t) : Res t :=
  match SymbolTable.deref p (symbolTable c) with
  | Some symbol => Ok (emit (Bytecode_int Instruction.PUSH_INT (address symbol)) c)
  | None => Crash DanglingPointer
  end.

(** [Compiler::compileNode] on a node of a class derived from
    [Expression]. *)
Fixpoint compileExpression (node : Expression) (c : t) : Res t :=
  match node with
  | Literal token =>
      match tok_type token with
      | TokenType.INT_LITERAL =>
          value ← stoi (tok_value token);
          Ok (emit (Bytecode_int Instruction.PUSH_INT value) c)
      | TokenType.FLOAT_LITERAL =>
          value ← stof (tok_value token);
          Ok (emit (Bytecode_float Instruction.PUSH_FLOAT value) c)
      | TokenType.STRING_LITERAL =>
          let index := size (string_literals c) in
          let c := mk (bytecode c) (symbolTable c)
                      (string_literals c ++ [tok_value token]) (cerr c) in
          Ok (emit (Bytecode_int Instruction.PUSH_STRING index) c)
      | _ => Ok c
      end
  | BooleanLiteral token =>
      match tok_type token with
      | TokenType.TRUE => Ok (emit (Bytecode_int Instruction.PUSH_INT 1) c)
      | _ => Ok (emit (Bytecode_int Instruction.PUSH_INT 0) c)
      end
  | IdentifierExpression identifier =>
      match SymbolTable.lookupSymbol (tok_value identifier) (symbolTable c) with
      | None => Ok (fail (ErrUndeclaredVariable identifier) c)
      | Some symbol =>
          c ← push_address symbol c;
          Ok (emit (Bytecode_op Instruction.LOAD) c)
      end
  | AssignmentExpression identifier value =>
      match SymbolTable.lookupSymbol (tok_value identifier) (symbolTable c) with
      | None => Ok (fail (ErrAssignUndeclared identifier) c)
      | Some symbol =>
          c ← compileExpression value c;
          if empty (bytecode c) then Ok c else
          let '(assignedType, warnings) :=
            resolveExpressionType value (symbolTable c) in
          let c := report warnings c in
          match SymbolTable.deref symbol (symbolTable c) with
          | None => Crash DanglingPointer
          | Some s =>
              if bool_decide (type s ≠ NodeType.UNKNOWN)
                 && bool_decide (assignedType ≠ NodeType.UNKNOWN)
                 && bool_decide (type s ≠ assignedType)
              then Ok (fail (ErrTypeMismatch identifier (type s) assignedType) c)
              else
                let c :=
                  if bool_decide (type s = NodeType.UNKNOWN)
                  then with_symbolTable
                         (SymbolTable.set_type symbol assignedType (symbolTable c)) c
                  else c in
                c ← push_address symbol c;
                Ok (emit (Bytecode_op Instruction.STORE) c)
          end
      end
  | BinaryExpression l op r =>
      let '(leftType, wl) := operandType l (symbolTable c) in
      let '(rightType, wr) := operandType r (symbolTable c) in
      let c := report (wl ++ wr) c in
      (* both operands in order, then the operator's instruction *)
      let operands (i : Instruction.t) : Res t :=
        c ← compileExpression l c;
        if empty (bytecode c) then Ok c else
        c ← compileExpression r c;
        if empty (bytecode c) then Ok c else
        Ok (emit (Bytecode_op i) c) in
      let arithmetic (i : Instruction.t) : Res t :=
        if negb (is_numeric leftType && is_numeric rightType)
        then Ok (fail (ErrArithmeticOperands op) c) else operands i in
      let comparison (i : Instruction.t) : Res t :=
        if negb (is_numeric leftType && is_numeric rightType)
        then Ok (fail (ErrComparisonOperands op) c) else operands i in
      (* short-circuit lowering around a conditional jump *)
      let short_circuit (jump : Instruction.t) (pad : Z) : Res t :=
        if negb (bool_or_int leftType && bool_or_int rightType)
        then Ok (fail (ErrLogicalOperands (tok_type op)) c) else
        c ← compileExpression l c;
        if empty (bytecode c) then Ok c else
        let jump_idx := length (bytecode c) in
        let c := emit (Bytecode_int jump 0) c in
        c ← compileExpression r c;
        if empty (bytecode c) then Ok c else
        Ok (close_short_circuit jump_idx pad c) in
      match tok_type op with
      | TokenType.AND => short_circuit Instruction.JUMP_IF_FALSE 0
      | TokenType.OR => short_circuit Instruction.JUMP_IF_TRUE 1
      | TokenType.PLUS =>
          if is_string leftType && is_string rightType
          then operands Instruction.CONCAT_STRING
          else if is_numeric leftType && is_numeric rightType
          then operands Instruction.ADD
          else Ok (fail ErrPlusOperands c)
      | TokenType.MINUS => arithmetic Instruction.SUB
      | TokenType.STAR => arithmetic Instruction.MUL
      | TokenType.SLASH => arithmetic Instruction.DIV
      | TokenType.GREATER => comparison Instruction.GREATER
      | TokenType.LESS => comparison Instruction.LESS
      | TokenType.GREATER_EQUAL => comparison Instruction.GREATER_EQUAL
      | TokenType.LESS_EQUAL => comparison Instruction.LESS_EQUAL
      | TokenType.EQUAL_EQUAL => comparison Instruction.EQUAL_EQUAL
      | TokenType.BANG_EQUAL => comparison Instruction.BANG_EQUAL
      | _ => Ok (fail (ErrUnknownBinaryOperator op) c)
      end
  | UnaryExpression op r =>
      c ← compileExpression r c;
      if empty (bytecode c) then Ok c else
      match tok_type op with
      | TokenType.BANG => Ok (emit (Bytecode_op Instruction.NOT) c)
      | TokenType.MINUS => Ok (emit (Bytecode_op Instruction.NEGATE) c)
      | _ => Ok (fail ErrUnknownUnaryOperator c)
      end
  end.

(** The declared type of [var x = initializer]: the initializer's
    [getType()], looked up when that is [IDENTIFIER_EXPRESSION].  The
    code then casts the initializer to [IdentifierExpression*] and reads
    through the result, which is null for any other class. *)
Inductive DeclaredType :=
| Declared (ty : NodeType.t)
| Undeclared
| NullCast.

Definition declaredType (initializer : option Expression)
    (st : SymbolTable.t) : DeclaredType :=
  match initializer with
  | None => Declared NodeType.UNKNOWN
  | Some init =>
      let varType := getType init in
      if bool_decide (varType = NodeType.IDENTIFIER_EXPRESSION) then
        match init with
        | IdentifierExpression identifier =>
            match SymbolTable.lookupSymbol (tok_value identifier) st
                  ≫= fun p => SymbolTable.deref p st with
            | Some initSymbol => Declared (type initSymbol)
            | None => Undeclared
            end
        | _ => NullCast
        end
      else Declared varType
  end.

(** [Compiler::compileNode] *)
Fixpoint compileNode (node : ASTNode) (c : t) {struct node} : Res t :=
  match node with
  | ExpressionNode e => compileExpression e c
  | VariableDeclaration identifier initializer =>
      match declaredType initializer (symbolTable c) with
      | NullCast => Crash NullDereference
      | Undeclared => Ok (fail (ErrInitializerUndeclared identifier) c)
      | Declared varType =>
          let '(added, st, ds) :=
            SymbolTable.addSymbol (tok_value identifier) varType
              (symbolTable c) in
          let c := report ds (with_symbolTable st c) in
          if negb added then Ok (with_bytecode [] c) else
          match initializer with
          | None => Ok c
          | Some init =>
              c ← compileExpression init c;
              if empty (bytecode c) then Ok c else
              match SymbolTable.lookupSymbol (tok_value identifier)
                      (symbolTable c) with
              | None => Ok (fail ErrInternalSymbolNotFound c)
              | Some symbol =>
                  c ← push_address symbol c;
                  Ok (emit (Bytecode_op Instruction.STORE) c)
              end
          end
      end
  | BlockStatement statements =>
      (fix each (stmts : list ASTNode) (c : t) {struct stmts} : Res t :=
         match stmts with
         | [] => Ok (exitScope c)
         | stmt :: rest =>
             c ← compileNode stmt c;
             if empty (bytecode c) then Ok c else each rest c
         end) statements (enterScope c)
  | IfStatement condition thenBranch elseBranch =>
      c ← compileExpression condition c;
      if empty (bytecode c) then Ok c else
      let jumpIfFalseAddress := length (bytecode c) in
      let c := emit (Bytecode_int Instruction.JUMP_IF_FALSE 0) c in
      c ← compileNode thenBranch c;
      if empty (bytecode c) then Ok c else
      match elseBranch with
      | None =>
          Ok (with_bytecode
                (patch jumpIfFalseAddress (size (bytecode c)) (bytecode c)) c)
      | Some elseNode =>
          let jumpToEndAddress := length (bytecode c) in
          let c := emit (Bytecode_int Instruction.JUMP 0) c in
          let c := with_bytecode
                     (patch jumpIfFalseAddress (size (bytecode c)) (bytecode c))
                     c in
          c ← compileNode elseNode c;
          if empty (bytecode c) then Ok c else
          Ok (with_bytecode
                (patch jumpToEndAddress (size (bytecode c)) (bytecode c)) c)
      end
  | PrintStatement expr =>
      c ← compileExpression expr c;
      if empty (bytecode c) then Ok c else
      let '(exprType, warnings) := resolveExpressionType expr (symbolTable c) in
      let c := report warnings c in
      if is_string exprType
      then Ok (emit (Bytecode_op Instruction.PRINT_STRING) c)
      else Ok (emit (Bytecode_op Instruction.PRINT_VALUE) c)
  | OtherNode => Ok (fail ErrUnknownNode c)
  end.

(** [Compiler::compile]; [None] is a null [ast].  The result is the
    returned vector and the compiler object afterwards. *)
Definition compile (ast : option ASTNode) (c : t)
    : Res (list Bytecode * t) :=
  let c := enterScope (with_bytecode [] c) in
  c ← match ast with
       | Some node => compileNode node c
       | None => Ok c
       end;
  let c := exitScope c in
  match ast with
  | None => Ok ([], c)
  | Some _ =>
      if empty (bytecode c) then Ok ([], c)
      else let c := emit (Bytecode_op Instruction.HALT) c in
           Ok (bytecode c, c)
  end.
End Compiler.

(** ** Virtual machine (src/VM.h, src/VM.cpp) *)

(** The "VM Error" lines. *)
Inductive VMError :=
| StackUnderflow (i : Instruction.t)
| DivisionByZero
| InvalidStoreAddress (address : Z)
| InvalidLoadAddress (address : Z)
| LogicalInstruction
| InvalidStringIndex (i : Instruction.t)
| DidNotHalt.

(** What the print instructions write to [std::cout]: a piece of text, or
    a [double] in the stream's number format. *)
Inductive Printed :=
| PrintedText (s : string)
| PrintedNumber (d : Double.t).

Module VM.
Record t := mk {
  bytecode : list Bytecode;
  stack : list Double.t;             (* head = stack.back() *)
  memory : list Double.t;
  string_literals : list string;
  pc : Z;
  cout : list Printed
}.

(** How [run] ends: a [return], with the reported error if it is the
    error return, or undefined behaviour (a [static_cast<int>] of a
    value no [int] holds). *)
Inductive Final :=
| Returns (vm : t) (value : Double.t) (error : option VMError)
| UndefinedBehaviour.

Inductive Step :=
| Next (vm : t)
| Done (f : Final).

(** [return -1] after a "VM Error" line. *)
Definition error (e : VMError) (vm : t) : Step :=
  Done (Returns vm Double.minus_one (Some e)).

Definition with_stack (s : list Double.t) (vm : t) : t :=
  mk (bytecode vm) s (memory vm) (string_literals vm) (pc vm) (cout vm).

Definition with_pc (target : Z) (vm : t) : t :=
  mk (bytecode vm) (stack vm) (memory vm) (string_literals vm) target (cout vm).

Definition print (p : Printed) (vm : t) : t :=
  mk (bytecode vm) (stack vm) (memory vm) (string_literals vm) (pc vm)
     (cout vm ++ [p]).

(** The binary operators other than [DIV]. *)
Definition binary (i : Instruction.t) (f : Double.t -> Double.t -> Double.t)
    (vm : t) : Step :=
  match stack vm with
  | val2 :: val1 :: rest => Next (with_stack (f val1 val2 :: rest) vm)
  | _ => error (StackUnderflow i) vm
  end.

Definition compare (i : Instruction.t) (f : Double.t -> Double.t -> bool)
    (vm : t) : Step :=
  binary i (fun val1 val2 => Double.of_bool (f val1 val2)) vm.

(** [memory.resize(address + 1)] when [address >= memory.size()], then
    [memory[address] = value]. *)
Definition store (address : Z) (value : Double.t) (mem : list Double.t)
    : list Double.t :=
  let mem :=
    if size mem <=? address
    then mem ++ replicate (Z.to_nat (address + 1) - length mem) Double.zero
    else mem in
  <[Z.to_nat address := value]> mem.

Definition jump (target : Double.t) (vm : t) : Step :=
  match Double.to_int target with
  | Some z => Next (with_pc z vm)
  | None => Done UndefinedBehaviour
  end.

Definition valid_index {A} (idx : Z) (l : list A) : bool :=
  (0 <=? idx) && (idx <? size l).

(** The body of the [switch], after [pc++]. *)
Definition execute (b : Bytecode) (vm : t) : Step :=
  match instruction b with
  | Instruction.PUSH_INT | Instruction.PUSH_FLOAT | Instruction.PUSH_STRING =>
      Next (with_stack (operand b :: stack vm) vm)
  | Instruction.ADD => binary Instruction.ADD Double.add vm
  | Instruction.SUB => binary Instruction.SUB Double.sub vm
  | Instruction.MUL => binary Instruction.MUL Double.mul vm
  | Instruction.DIV =>
      match stack vm with
      | val2 :: val1 :: rest =>
          if Double.eqb val2 Double.zero
          then error DivisionByZero (with_stack (val1 :: rest) vm)
          else Next (with_stack (Double.div val1 val2 :: rest) vm)
      | _ => error (StackUnderflow Instruction.DIV) vm
      end
  | Instruction.NEGATE =>
      match stack vm with
      | val :: rest => Next (with_stack (Double.neg val :: rest) vm)
      | [] => error (StackUnderflow Instruction.NEGATE) vm
      end
  | Instruction.POP =>
      match stack vm with
      | _ :: rest => Next (with_stack rest vm)
      | [] => error (StackUnderflow Instruction.POP) vm
      end
  | Instruction.STORE =>
      match stack vm with
      | a :: value :: rest =>
          match Double.to_int a with
          | None => Done UndefinedBehaviour
          | Some address =>
              if address <? 0
              then error (InvalidStoreAddress address) (with_stack rest vm)
              else Next (mk (bytecode vm) (value :: rest)
                            (store address value (memory vm))
                            (string_literals vm) (pc vm) (cout vm))
          end
      | _ => error (StackUnderflow Instruction.STORE) vm
      end
  | Instruction.LOAD =>
      match stack vm with
      | a :: rest =>
          match Double.to_int a with
          | None => Done UndefinedBehaviour
          | Some address =>
              match (if valid_index address (memory vm)
                     then memory vm !! Z.to_nat address else None) with
              | Some value => Next (with_stack (value :: rest) vm)
              | None => error (InvalidLoadAddress address) (with_stack rest vm)
              end
          end
      | [] => error (StackUnderflow Instruction.LOAD) vm
      end
  | Instruction.HALT =>
      match stack vm with
      | [] => Done (Returns vm Double.zero None)
      | top :: _ => Done (Returns vm top None)
      end
  | Instruction.JUMP_IF_FALSE =>
      match stack vm with
      | condition :: rest =>
          if Double.eqb condition Double.zero
          then jump (operand b) (with_stack rest vm)
          else Next (with_stack rest vm)
      | [] => error (StackUnderflow Instruction.JUMP_IF_FALSE) vm
      end
  | Instruction.JUMP => jump (operand b) vm
  | Instruction.JUMP_IF_TRUE =>
      match stack vm with
      | condition :: rest =>
          if Double.neqb condition Double.zero
          then jump (operand b) (with_stack rest vm)
          else Next (with_stack rest vm)
      | [] => error (StackUnderflow Instruction.JUMP_IF_TRUE) vm
      end
  | Instruction.GREATER => compare Instruction.GREATER Double.gtb vm
  | Instruction.LESS => compare Instruction.LESS Double.ltb vm
  | Instruction.GREATER_EQUAL => compare Instruction.GREATER_EQUAL Double.geb vm
  | Instruction.LESS_EQUAL => compare Instruction.LESS_EQUAL Double.leb vm
  | Instruction.EQUAL_EQUAL => compare Instruction.EQUAL_EQUAL Double.eqb vm
  | Instruction.BANG_EQUAL => compare Instruction.BANG_EQUAL Double.neqb vm
  | Instruction.NOT =>
      match stack vm with
      | val :: rest =>
          Next (with_stack (Double.of_bool (Double.eqb val Double.zero) :: rest) vm)
      | [] => error (StackUnderflow Instruction.NOT) vm
      end
  | Instruction.AND | Instruction.OR => error LogicalInstruction vm
  | Instruction.CONCAT_STRING =>
      match stack vm with
      | i2 :: i1 :: rest =>
          match Double.to_int i2, Double.to_int i1 with
          | Some string_idx2, Some string_idx1 =>
              let pool := string_literals vm in
              match (if valid_index string_idx1 pool
                        && valid_index string_idx2 pool
                     then pool !! Z.to_nat string_idx1 else None),
                    pool !! Z.to_nat string_idx2 with
              | Some s1, Some s2 =>
                  Next (mk (bytecode vm) (Double.of_int (size pool) :: rest)
                           (memory vm) (pool ++ [(s1 ++ s2)%string])
                           (pc vm) (cout vm))
              | _, _ =>
                  error (InvalidStringIndex Instruction.CONCAT_STRING)
                        (with_stack rest vm)
              end
          | _, _ => Done UndefinedBehaviour
          end
      | _ => error (StackUnderflow Instruction.CONCAT_STRING) vm
      end
  | Instruction.PRINT_VALUE =>
      match stack vm with
      | val :: rest =>
          let vm := with_stack rest vm in
          if Double.eqb val Double.zero then Next (print (PrintedText "false") vm)
          else if Double.eqb val Double.one then Next (print (PrintedText "true") vm)
          else Next (print (PrintedNumber val) vm)
      | [] => error (StackUnderflow Instruction.PRINT_VALUE) vm
      end
  | Instruction.PRINT_STRING =>
      match stack vm with
      | i :: rest =>
          match Double.to_int i with
          | None => Done UndefinedBehaviour
          | Some string_idx =>
              match (if valid_index string_idx (string_literals vm)
                     then string_literals vm !! Z.to_nat string_idx
                     else None) with
              | Some s => Next (print (PrintedText s) (with_stack rest vm))
              | None =>
                  error (InvalidStringIndex Instruction.PRINT_STRING)
                        (with_stack rest vm)
              end
          end
      | [] => error (StackUnderflow Instruction.PRINT_STRING) vm
      end
  end.

(** The instruction the loop fetches: [pc] is compared as an unsigned
    value, so a negative [pc] leaves the loop like one past the end. *)
Definition fetch (vm : t) : option Bytecode :=
  if valid_index (pc vm) (bytecode vm)
  then bytecode vm !! Z.to_nat (pc vm) else None.

(** One turn of the [while] loop, or the code after it. *)
Definition step (vm : t) : Step :=
  match fetch vm with
  | Some b => execute b (with_pc (pc vm + 1) vm)
  | None => error DidNotHalt vm
  end.

(** The loop, for at most [fuel] turns. *)
Fixpoint loop (fuel : nat) (vm : t) : option Final :=
  match fuel with
  | O => None
  | S fuel =>
      match step vm with
      | Next vm => loop fuel vm
      | Done f => Some f
      end
  end.

(** The state [run] starts from: stack and memory cleared, [pc = 0]. *)
Definition init (code : list Bytecode) (pool : list string) : t :=
  mk code [] [] pool 0 [].

(** [VM::run] *)
Definition run (fuel : nat) (code : list Bytecode) (pool : list string)
    : option Final :=
  loop fuel (init code pool).
End VM.

(** ** Notions used in the statements below *)

(** Structural induction on [ASTNode], through the statement list of a
    block and the optional else branch. *)
Section ASTNode_induction.
Variable P : ASTNode -> Prop.
Hypothesis HExpression : forall e, P (ExpressionNode e).
Hypothesis HDeclaration : forall identifier initializer,
  P (VariableDeclaration identifier initializer).
Hypothesis HIf : forall condition thenBranch elseBranch,
  P thenBranch ->
  match elseBranch with Some node => P node | None => True end ->
  P (IfStatement condition thenBranch elseBranch).
Hypothesis HBlock : forall statements,
  Forall P statements -> P (BlockStatement statements).
Hypothesis HPrint : forall e, P (PrintStatement e).
Hypothesis HOther : P OtherNode.

Fixpoint ASTNode_ind (node : ASTNode) : P node :=
  match node with
  | ExpressionNode e => HExpression e
  | VariableDeclaration identifier initializer =>
      HDeclaration identifier initializer
  | IfStatement condition thenBranch elseBranch =>
      HIf condition thenBranch elseBranch (ASTNode_ind thenBranch)
        (match elseBranch as o
               return match o with Some node => P node | None => True end with
         | Some node => ASTNode_ind node
         | None => I
         end)
  | BlockStatement statements =>
      HBlock statements
        ((fix all (l : list ASTNode) : Forall P l :=
            match l with
            | [] => @List.Forall_nil _ P
            | stmt :: rest => @List.Forall_cons _ P stmt rest (ASTNode_ind stmt) (all rest)
            end) statements)
  | PrintStatement e => HPrint e
  | OtherNode => HOther
  end.
End ASTNode_induction.

(** How a lowering step relates the compiler before and after it: it
    either appends instructions without reporting an error ([grows]), or
    reports an error and leaves the buffer empty ([failed]). *)
Definition grows (c c' : Compiler.t) : Prop :=
  exists ds code,
    Compiler.cerr c' = Compiler.cerr c ++ ds /\ has_error ds = false /\
    Compiler.bytecode c' = Compiler.bytecode c ++ code.

Definition failed (c c' : Compiler.t) : Prop :=
  exists ds,
    Compiler.cerr c' = Compiler.cerr c ++ ds /\ has_error ds = true /\
    Compiler.bytecode c' = [].

Definition extends (c c' : Compiler.t) : Prop := grows c c' \/ failed c c'.

(** The operations through which a compilation uses its symbol table. *)
Inductive TableOp :=
| OpEnterScope
| OpExitScope
| OpAddSymbol (name : string) (type : NodeType.t)
| OpSetType (p : SymbolRef) (type : NodeType.t).

Definition apply_op (op : TableOp) (st : SymbolTable.t) : SymbolTable.t :=
  match op with
  | OpEnterScope => SymbolTable.enterScope st
  | OpExitScope => (SymbolTable.exitScope st).1
  | OpAddSymbol name type => (SymbolTable.addSymbol name type st).1.2
  | OpSetType p type => SymbolTable.set_type p type st
  end.

(** [lookupSymbol] followed by a read through the pointer. *)
Definition resolve (name : string) (st : SymbolTable.t) : option Symbol :=
  SymbolTable.lookupSymbol name st ≫= fun p => SymbolTable.deref p st.

(** The symbol an operation creates: the one a successful [addSymbol]
    leaves in the table. *)
Definition created (op : TableOp) (st : SymbolTable.t) : option Symbol :=
  match op with
  | OpAddSymbol name type =>
      if (SymbolTable.addSymbol name type st).1.1
      then resolve name (apply_op op st) else None
  | _ => None
  end.

(** Every symbol created along a sequence of operations, in order. *)
Fixpoint history (ops : list TableOp) (st : SymbolTable.t) : list Symbol :=
  match ops with
  | [] => []
  | op :: rest =>
      match created op st with
      | Some s => s :: history rest (apply_op op st)
      | None => history rest (apply_op op st)
      end
  end.

Definition apply_ops (ops : list TableOp) (st : SymbolTable.t)
    : SymbolTable.t :=
  foldl (fun st op => apply_op op st) st ops.

(** Every address held by the table is below the counter. *)
Definition bounded (st : SymbolTable.t) : Prop :=
  forall scope name s,
    scope ∈ SymbolTable.scopes st -> scope !! name = Some s ->
    address s < SymbolTable.next_address st.

(** [n] turns of the VM loop, none of which returns. *)
Fixpoint steps (n : nat) (vm : VM.t) : option VM.t :=
  match n with
  | O => Some vm
  | S n =>
      match VM.step vm with
      | VM.Next vm' => steps n vm'
      | VM.Done _ => None
      end
  end.

(** [stack.empty() ? 0 : stack.back()] *)
Definition top_or_zero (stack : list Double.t) : Double.t :=
  match stack with
  | [] => Double.zero
  | top :: _ => top
  end.

(** The program counters of the instructions fetched in [n] turns. *)
Fixpoint executed (n : nat) (vm : VM.t) : list Z :=
  match n with
  | O => []
  | S n =>
      VM.pc vm ::
      match VM.step vm with
      | VM.Next vm' => executed n vm'
      | VM.Done _ => []
      end
  end.

(** The result of [left op right] when the value of [left] alone decides
    it: 0 for [&&] on a false left operand, 1 for [||] on a true one. *)
Definition short_circuits (op : TokenType.t) (left : Double.t) : option Z :=
  match op with
  | TokenType.AND => if Double.eqb left Double.zero then Some 0 else None
  | TokenType.OR => if Double.neqb left Double.zero then Some 1 else None
  | _ => None
  end.

(** ** Sample programs *)

Definition tok (type : TokenType.t) (text : string) : Token :=
  mkToken type text 1 1.

Definition int_literal (text : string) : Expression :=
  Literal (tok TokenType.INT_LITERAL text).
Definition float_literal (text : string) : Expression :=
  Literal (tok TokenType.FLOAT_LITERAL text).
Definition variable (name : string) : Expression :=
  IdentifierExpression (tok TokenType.IDENTIFIER name).
Definition assign (name : string) (value : Expression) : Expression :=
  AssignmentExpression (tok TokenType.IDENTIFIER name) value.
Definition binary (l : Expression) (op : TokenType.t) (r : Expression)
    : Expression :=
  BinaryExpression l (tok op "") r.
Definition declare (name : string) (initializer : option Expression)
    : ASTNode :=
  VariableDeclaration (tok TokenType.IDENTIFIER name) initializer.

(** The compiler after lowering one more node (itself on a crash). *)
Definition after (node : ASTNode) (c : Compiler.t) : Compiler.t :=
  match Compiler.compileNode node c with
  | Ok c' => c'
  | Crash _ => c
  end.

(** [compile] then [run], for the programs below. *)
Definition compile_and_run (fuel : nat) (ast : ASTNode) : option VM.Final :=
  match Compiler.compile (Some ast) Compiler.new with
  | Ok (program, c) => VM.run fuel program (Compiler.string_literals c)
  | Crash _ => None
  end.

(** [false && (x = 5)], lowered after [var x = 3;]. *)
Definition guarded_assignment : Expression :=
  binary (BooleanLiteral (tok TokenType.FALSE "false")) TokenType.AND
         (assign "x" (int_literal "5")).

Definition declared_x : Compiler.t :=
  after (declare "x" (Some (int_literal "3"))) Compiler.new.

(** The VM about to take the conditional jump of [guarded_assignment]:
    [x] holds 3 and the left operand's value 0 is on the stack. *)
Definition at_guard : VM.t :=
  VM.mk (Compiler.bytecode (after (ExpressionNode guarded_assignment) declared_x)
           ++ [Bytecode_op Instruction.HALT])
        [Double.zero; Double.of_int 3] [Double.of_int 3] [] 4 [].



(** A table with [x] in the global scope and an empty inner scope. *)
Definition outer_x : SymbolTable.t :=
  apply_ops [OpAddSymbol "x" NodeType.INTEGER; OpEnterScope] SymbolTable.new.

(** What [PRINT_VALUE] writes for a value. *)
Definition printed_value (val : Double.t) : Printed :=
  if Double.eqb val Double.zero then PrintedText "false"
  else if Double.eqb val Double.one then PrintedText "true"
  else PrintedNumber val.

(** [var x = 0; print(x = 7);] *)
Definition print_assignment : ASTNode :=
  BlockStatement
    [ declare "x" (Some (int_literal "0"));
      PrintStatement (assign "x" (int_literal "7")) ].

(** The compiler inside the block of [print_assignment], after its
    declaration. *)
Definition declared_x0 : Compiler.t :=
  after (declare "x" (Some (int_literal "0")))
    (Compiler.enterScope (Compiler.enterScope Compiler.new)).

(** [var a = 20; var b = 4;] *)
Definition two_declarations : ASTNode :=
  BlockStatement
    [ declare "a" (Some (int_literal "20"));
      declare "b" (Some (int_literal "4")) ].


(** The VM [n] turns into the program compiled from [ast]. *)
Definition running (n : nat) (ast : ASTNode) : VM.t :=
  match Compiler.compile (Some ast) Compiler.new with
  | Ok (program, c) =>
      default (VM.init [] [])
        (steps n (VM.init program (Compiler.string_literals c)))
  | Crash _ => VM.init [] []
  end.

(** ** The readings of C6 and C8 that the code does not meet *)



(** ** Notions for the amended C6 and C8 *)

(** The instruction [compileNode] emits for a numeric literal. *)
Definition literal_push (token : Token) : option Bytecode :=
  match tok_type token with
  | TokenType.INT_LITERAL =>
      match stoi (tok_value token) with
      | Ok value => Some (Bytecode_int Instruction.PUSH_INT value)
      | Crash _ => None
      end
  | TokenType.FLOAT_LITERAL =>
      match stof (tok_value token) with
      | Ok value => Some (Bytecode_float Instruction.PUSH_FLOAT value)
      | Crash _ => None
      end
  | _ => None
  end.



(** [var x; print(1);] *)
Definition uninitialized_first : ASTNode :=
  BlockStatement [ declare "x" None; PrintStatement (int_literal "1") ].

(** [print(y);] with [y] undeclared. *)
Definition undeclared_use : ASTNode := PrintStatement (variable "y").


(** A table reached from another one through table operations. *)
Definition evolves (st st' : SymbolTable.t) : Prop :=
  exists ops, st' = apply_ops ops st.

Definition string_literal (text : string) : Expression :=
  Literal (tok TokenType.STRING_LITERAL text).
Definition boolean (b : bool) : Expression :=
  BooleanLiteral (if b then tok TokenType.TRUE "true"
                  else tok TokenType.FALSE "false").

(** What a program prints, when it compiles and runs to a [HALT]. *)
Definition output (fuel : nat) (ast : ASTNode) : option (list Printed) :=
  match compile_and_run fuel ast with
  | Some (VM.Returns vm _ None) => Some (VM.cout vm)
  | _ => None
  end.

(** The program [compile] returns, when it returns. *)
Definition compiled (ast : ASTNode) : option (list Bytecode) :=
  match Compiler.compile (Some ast) Compiler.new with
  | Ok (program, _) => Some program
  | Crash _ => None
  end.

(** [var a = 20; var b = 4; print(a+b); print(a-b); print(a*b); print(a/b);] *)
Definition four_operations : ASTNode :=
  BlockStatement
    [ declare "a" (Some (int_literal "20"));
      declare "b" (Some (int_literal "4"));
      PrintStatement (binary (variable "a") TokenType.PLUS (variable "b"));
      PrintStatement (binary (variable "a") TokenType.MINUS (variable "b"));
      PrintStatement (binary (variable "a") TokenType.STAR (variable "b"));
      PrintStatement (binary (variable "a") TokenType.SLASH (variable "b")) ].

(** [var x = 3; false && (x = 5); true || (x = 6); print(x);] *)
Definition skipped_assignments : ASTNode :=
  BlockStatement
    [ declare "x" (Some (int_literal "3"));
      ExpressionNode guarded_assignment;
      ExpressionNode
        (binary (boolean true) TokenType.OR (assign "x" (int_literal "6")));
      PrintStatement (variable "x") ].

(** [var x = 10; var y = 5; if (x > y) { print("A"); } else { print("B"); }] *)
Definition branch_on (op : TokenType.t) : ASTNode :=
  BlockStatement
    [ declare "x" (Some (int_literal "10"));
      declare "y" (Some (int_literal "5"));
      IfStatement (binary (variable "x") op (variable "y"))
        (BlockStatement [PrintStatement (string_literal "A")])
        (Some (BlockStatement [PrintStatement (string_literal "B")])) ].

(** ** Lexer (src/Lexer.h, src/Lexer.cpp)

    The lexer reads [source] from left to right and never looks back, so
    the embedding keeps the unread part, [source.substr(current_pos)],
    instead of [source] and [current_pos]; [substr(start, current_pos -
    start)] is then the run of characters advanced over since [start].
    [errors] is the vector of that name, with the position each message
    prints. *)

Module Lexer.
Inductive Error :=
| UnterminatedString (line column : Z)
| UnexpectedCharacter (c : ascii) (line column : Z).

Record t := mk {
  rest : list ascii;
  current_line : Z;
  current_column : Z;
  errors : list Error
}.

(** [Lexer::Lexer] *)
Definition new (source : string) : t :=
  mk (list_ascii_of_string source) 1 1 [].

Definition isAtEnd (lx : t) : bool :=
  match rest lx with [] => true | _ => false end.

Definition peek (lx : t) : ascii :=
  match rest lx with
  | [] => "000"%char
  | c :: _ => c
  end.

Definition advance (lx : t) : t :=
  match rest lx with
  | [] => lx
  | _ :: s => mk s (current_line lx) (current_column lx + 1) (errors lx)
  end.

(** [std::isdigit], [std::isalpha] and [std::isalnum] in the "C" locale,
    which the program never changes. *)
Definition isDigit (c : ascii) : bool :=
  let n := nat_of_ascii c in (48 <=? n)%nat && (n <=? 57)%nat.

Definition isAlpha (c : ascii) : bool :=
  let n := nat_of_ascii c in
  ((65 <=? n)%nat && (n <=? 90)%nat) || ((97 <=? n)%nat && (n <=? 122)%nat)
  || Ascii.eqb c "_".

Definition isAlphaNumeric (c : ascii) : bool :=
  let n := nat_of_ascii c in
  ((65 <=? n)%nat && (n <=? 90)%nat) || ((97 <=? n)%nat && (n <=? 122)%nat)
  || ((48 <=? n)%nat && (n <=? 57)%nat)
  || Ascii.eqb c "_".

Definition is_blank (c : ascii) : bool :=
  Ascii.eqb c " " || Ascii.eqb c "009" || Ascii.eqb c "013".

Definition newline : ascii := "010"%char.
Definition quote : ascii := "034"%char.
Definition backslash : ascii := "092"%char.

(** The loop of [skipWhitespace], on the unread characters. *)
Fixpoint skipWhitespace_from (s : list ascii) (line column : Z)
    : list ascii * Z * Z :=
  match s with
  | [] => ([], line, column)
  | c :: s' =>
      if is_blank c then skipWhitespace_from s' line (column + 1)
      else if Ascii.eqb c newline then skipWhitespace_from s' (line + 1) 1
      else (s, line, column)
  end.

Definition skipWhitespace (lx : t) : t :=
  let '(s, line, column) :=
    skipWhitespace_from (rest lx) (current_line lx) (current_column lx) in
  mk s line column (errors lx).

(** The loop of [number]: the characters it advances over, whether one
    of them is a decimal point, and what is left. *)
Fixpoint number_from (s : list ascii) (hasDecimal : bool)
    : list ascii * bool * list ascii :=
  match s with
  | [] => ([], hasDecimal, [])
  | c :: s' =>
      if isDigit c || Ascii.eqb c "." then
        if Ascii.eqb c "." then
          if hasDecimal then ([], hasDecimal, s)
          else let '(value, d, r) := number_from s' true in (c :: value, d, r)
        else
          let '(value, d, r) := number_from s' hasDecimal in (c :: value, d, r)
      else ([], hasDecimal, s)
  end.

Definition number (lx : t) : Token * t :=
  let start_col := current_column lx in
  let '(value, hasDecimal, s) := number_from (rest lx) false in
  let lx :=
    mk s (current_line lx) (current_column lx + Z.of_nat (length value))
       (errors lx) in
  (mkToken (if hasDecimal then TokenType.FLOAT_LITERAL
            else TokenType.INT_LITERAL)
     (string_of_list_ascii value) (current_line lx) start_col,
   lx).

(** [while (isAlphaNumeric(peek())) advance();] *)
Fixpoint identifier_from (s : list ascii) : list ascii * list ascii :=
  match s with
  | [] => ([], [])
  | c :: s' =>
      if isAlphaNumeric c
      then let '(value, r) := identifier_from s' in (c :: value, r)
      else ([], s)
  end.

Definition keyword (value : string) : TokenType.t :=
  if String.eqb value "var" then TokenType.VAR
  else if String.eqb value "if" then TokenType.IF
  else if String.eqb value "else" then TokenType.ELSE
  else if String.eqb value "print" then TokenType.PRINT
  else if String.eqb value "true" then TokenType.TRUE
  else if String.eqb value "false" then TokenType.FALSE
  else TokenType.IDENTIFIER.

Definition identifier (lx : t) : Token * t :=
  let identifier_start_col := current_column lx in
  let '(chars, s) := identifier_from (rest lx) in
  let value := string_of_list_ascii chars in
  let lx :=
    mk s (current_line lx) (current_column lx + Z.of_nat (length chars))
       (errors lx) in
  (mkToken (keyword value) value (current_line lx) identifier_start_col, lx).

(** The loop of [string_literal], after the opening quote: the value
    built, what is left (from the closing quote on), and how many
    characters were advanced over. *)
Fixpoint string_from (s : list ascii) : list ascii * list ascii * nat :=
  match s with
  | [] => ([], [], O)
  | c :: s' =>
      if Ascii.eqb c quote then ([], s, O)
      else if Ascii.eqb c backslash then
        match s' with
        | c' :: s'' =>
            if Ascii.eqb c' quote || Ascii.eqb c' backslash then
              let '(value, r, n) := string_from s'' in
              (c' :: value, r, S (S n))
            else
              let '(value, r, n) := string_from s' in (c :: value, r, S n)
        | [] => ([c], [], 1%nat)
        end
      else let '(value, r, n) := string_from s' in (c :: value, r, S n)
  end.

Definition string_literal (lx : t) : Token * t :=
  let start_col := current_column lx in
  let lx := advance lx in
  let '(value, s, n) := string_from (rest lx) in
  let lx :=
    mk s (current_line lx) (current_column lx + Z.of_nat n) (errors lx) in
  if isAtEnd lx then
    (mkToken TokenType.EOF_TOKEN "" (current_line lx) start_col,
     mk (rest lx) (current_line lx) (current_column lx)
        (errors lx ++ [UnterminatedString (current_line lx) start_col]))
  else
    (mkToken TokenType.STRING_LITERAL (string_of_list_ascii value)
       (current_line lx) start_col,
     advance lx).

(** [while (peek() != '\n' && !isAtEnd()) advance();] *)
Fixpoint comment_from (s : list ascii) : list ascii * nat :=
  match s with
  | [] => ([], O)
  | c :: s' =>
      if Ascii.eqb c newline then (s, O)
      else let '(r, n) := comment_from s' in (r, S n)
  end.

Definition skip_comment (lx : t) : t :=
  let '(s, n) := comment_from (rest lx) in
  mk s (current_line lx) (current_column lx + Z.of_nat n) (errors lx).

Definition report (e : Error) (lx : t) : t :=
  mk (rest lx) (current_line lx) (current_column lx) (errors lx ++ [e]).

(** A one-character token. *)
Definition single (type : TokenType.t) (text : string) (lx : t)
    : list Token * t :=
  ([mkToken type text (current_line lx) (current_column lx)], advance lx).

(** A token of one character, or of two when [second] follows. *)
Definition one_or_two (second : ascii) (two : TokenType.t) (text2 : string)
    (one : TokenType.t) (text1 : string) (lx : t) : list Token * t :=
  let token_start_col := current_column lx in
  let lx := advance lx in
  if Ascii.eqb (peek lx) second
  then ([mkToken two text2 (current_line lx) token_start_col], advance lx)
  else ([mkToken one text1 (current_line lx) token_start_col], lx).

(** [&&] and [||]: the doubled character, or an error. *)
Definition doubled (c : ascii) (type : TokenType.t) (text : string) (lx : t)
    : list Token * t :=
  let token_start_col := current_column lx in
  let lx := advance lx in
  if Ascii.eqb (peek lx) c
  then ([mkToken type text (current_line lx) token_start_col], advance lx)
  else ([], report (UnexpectedCharacter c (current_line lx)
                      (current_column lx - 1)) lx).

(** One turn of the loop of [tokenize] once white space is skipped and
    input is left: the tokens pushed, and the lexer afterwards. *)
Definition scan (lx : t) : list Token * t :=
  let c := peek lx in
  if isDigit c then let '(token, lx) := number lx in ([token], lx)
  else if isAlpha c then let '(token, lx) := identifier lx in ([token], lx)
  else if Ascii.eqb c "+" then single TokenType.PLUS "+" lx
  else if Ascii.eqb c "-" then single TokenType.MINUS "-" lx
  else if Ascii.eqb c "*" then single TokenType.STAR "*" lx
  else if Ascii.eqb c "/" then
    let token_start_col := current_column lx in
    let lx := advance lx in
    if Ascii.eqb (peek lx) "/" then ([], skip_comment lx)
    else ([mkToken TokenType.SLASH "/" (current_line lx) token_start_col], lx)
  else if Ascii.eqb c "(" then single TokenType.LPAREN "(" lx
  else if Ascii.eqb c ")" then single TokenType.RPAREN ")" lx
  else if Ascii.eqb c "{" then single TokenType.LBRACE "{" lx
  else if Ascii.eqb c "}" then single TokenType.RBRACE "}" lx
  else if Ascii.eqb c ";" then single TokenType.SEMICOLON ";" lx
  else if Ascii.eqb c quote then
    let '(token, lx) := string_literal lx in ([token], lx)
  else if Ascii.eqb c "=" then
    one_or_two "=" TokenType.EQUAL_EQUAL "==" TokenType.ASSIGN "=" lx
  else if Ascii.eqb c ">" then
    one_or_two "=" TokenType.GREATER_EQUAL ">=" TokenType.GREATER ">" lx
  else if Ascii.eqb c "<" then
    one_or_two "=" TokenType.LESS_EQUAL "<=" TokenType.LESS "<" lx
  else if Ascii.eqb c "!" then
    one_or_two "=" TokenType.BANG_EQUAL "!=" TokenType.BANG "!" lx
  else if Ascii.eqb c "&" then doubled "&" TokenType.AND "&&" lx
  else if Ascii.eqb c "|" then doubled "|" TokenType.OR "||" lx
  else
    ([], advance (report (UnexpectedCharacter c (current_line lx)
                            (current_column lx)) lx)).

(** The loop of [tokenize], for at most [fuel] turns. *)
Fixpoint loop (fuel : nat) (lx : t) (tokens : list Token)
    : option (list Token * t) :=
  match fuel with
  | O => None
  | S fuel =>
      if isAtEnd lx then Some (tokens, lx) else
      let lx := skipWhitespace lx in
      if isAtEnd lx then Some (tokens, lx) else
      let '(pushed, lx) := scan lx in
      loop fuel lx (tokens ++ pushed)
  end.

(** [Lexer::tokenize]: the tokens and the errors it prints.  Every turn
    of the loop but the last consumes a character, so one turn more than
    [source] has characters is enough. *)
Definition tokenize (source : string) : option (list Token * list Error) :=
  match loop (S (String.length source)) (new source) [] with
  | Some (tokens, lx) =>
      Some (tokens ++ [mkToken TokenType.EOF_TOKEN ""
                         (current_line lx) (current_column lx)],
            errors lx)
  | None => None
  end.
End Lexer.

(** ** Parser (src/Parser.h, src/Parser.cpp)

    A null [Expression*] or [ASTNode*] is [None].  The lines written to
    [std::cerr] are collected in [cerr].  The parsing functions call each
    other recursively; the embedding bounds the depth of these calls by
    [fuel] and shows below that a depth linear in the number of tokens is
    never exceeded. *)

Module Parser.
Inductive Error :=
| ConsumeError (message : string) (line column : Z)
| ExpectedRParen (line column : Z)
| ExpectedExpression (line column : Z)
| InvalidAssignmentTarget (line column : Z).

Record t := mk {
  tokens : list Token;
  current_pos : nat;
  cerr : list Error
}.

(** [Parser::Parser] *)
Definition new (tokens : list Token) : t := mk tokens 0 [].

(** How a parsing function ends: it returns, the bound on the depth of
    the calls is reached, or [tokens[current_pos - 1]] is read out of
    range. *)
Inductive Result (A : Type) :=
| Ret (a : A) (p : t)
| OutOfFuel
| OutOfRange.
Arguments Ret {A} a p.
Arguments OutOfFuel {A}.
Arguments OutOfRange {A}.

Definition bind {A B} (r : Result A) (k : A -> t -> Result B) : Result B :=
  match r with
  | Ret a p => k a p
  | OutOfFuel => OutOfFuel
  | OutOfRange => OutOfRange
  end.

Definition report (e : Error) (p : t) : t :=
  mk (tokens p) (current_pos p) (cerr p ++ [e]).

Definition peek (p : t) : Token :=
  match tokens p !! current_pos p with
  | Some token => token
  | None => mkToken TokenType.EOF_TOKEN "" 0 0
  end.

Definition advance (p : t) : Token * t :=
  (peek p, mk (tokens p) (S (current_pos p)) (cerr p)).

(** [match] *)
Definition match_ (type : TokenType.t) (p : t) : bool * t :=
  if bool_decide (tok_type (peek p) = type) then (true, (advance p).2)
  else (false, p).

(** [match(t1) || match(t2) || ...] *)
Fixpoint match_any (types : list TokenType.t) (p : t) : bool * t :=
  match types with
  | [] => (false, p)
  | type :: rest =>
      let '(matched, p) := match_ type p in
      if matched then (true, p) else match_any rest p
  end.

Definition consume (type : TokenType.t) (message : string) (p : t)
    : Token * t :=
  if bool_decide (tok_type (peek p) = type) then advance p
  else
    let line := tok_line (peek p) in
    let column := tok_column (peek p) in
    (mkToken TokenType.EOF_TOKEN "" line column,
     report (ConsumeError message line column) p).

(** [tokens[current_pos - 1]] *)
Definition previous (p : t) : option Token :=
  match current_pos p with
  | O => None
  | S n => tokens p !! n
  end.

(** The loop shared by [factor], [term], [comparison], [logical_and] and
    [logical_or]: while one of the operators [types] follows, parse the
    right operand with [operand] and build a [BinaryExpression], or
    return null if either side is null. *)
Definition binary_loop (types : list TokenType.t)
    (operand : t -> Result (option Expression))
    : nat -> option Expression -> t -> Result (option Expression) :=
  fix loop (n : nat) (expr : option Expression) (p : t) :=
    match n with
    | O => OutOfFuel
    | S n =>
        let '(matched, p) := match_any types p in
        if matched then
          match previous p with
          | None => OutOfRange
          | Some op =>
              bind (operand p) (fun right p =>
                match expr, right with
                | Some l, Some r => loop n (Some (BinaryExpression l op r)) p
                | _, _ => Ret None p
                end)
          end
        else Ret expr p
    end.

Definition binary_level (types : list TokenType.t)
    (operand : t -> Result (option Expression)) (n : nat) (p : t)
    : Result (option Expression) :=
  bind (operand p) (fun expr p => binary_loop types operand n expr p).

Definition comparison_operators : list TokenType.t :=
  [TokenType.GREATER; TokenType.LESS; TokenType.GREATER_EQUAL;
   TokenType.LESS_EQUAL; TokenType.EQUAL_EQUAL; TokenType.BANG_EQUAL].

Fixpoint primary (fuel : nat) (p : t) {struct fuel}
    : Result (option Expression) :=
  match fuel with
  | O => OutOfFuel
  | S fuel =>
      let '(matched, p1) :=
        match_any [TokenType.INT_LITERAL; TokenType.FLOAT_LITERAL;
                   TokenType.STRING_LITERAL] p in
      if matched then
        match previous p1 with
        | Some token => Ret (Some (Literal token)) p1
        | None => OutOfRange
        end
      else
      let '(matched, p1) := match_any [TokenType.TRUE; TokenType.FALSE] p in
      if matched then
        match previous p1 with
        | Some token => Ret (Some (BooleanLiteral token)) p1
        | None => OutOfRange
        end
      else
      let '(matched, p1) := match_ TokenType.IDENTIFIER p in
      if matched then
        match previous p1 with
        | Some token => Ret (Some (IdentifierExpression token)) p1
        | None => OutOfRange
        end
      else
      let '(matched, p1) := match_ TokenType.LPAREN p in
      if matched then
        bind (expression fuel p1) (fun expr p2 =>
          let '(matched, p3) := match_ TokenType.RPAREN p2 in
          if matched then Ret expr p3
          else Ret None (report (ExpectedRParen (tok_line (peek p3))
                                   (tok_column (peek p3))) p3))
      else
        Ret None (report (ExpectedExpression (tok_line (peek p))
                            (tok_column (peek p))) p)
  end

with unary (fuel : nat) (p : t) {struct fuel} : Result (option Expression) :=
  match fuel with
  | O => OutOfFuel
  | S fuel =>
      let '(matched, p1) := match_any [TokenType.BANG; TokenType.MINUS] p in
      if matched then
        match previous p1 with
        | None => OutOfRange
        | Some op =>
            bind (unary fuel p1) (fun right p2 =>
              match right with
              | None => Ret None p2
              | Some r => Ret (Some (UnaryExpression op r)) p2
              end)
        end
      else primary fuel p
  end

with factor (fuel : nat) (p : t) {struct fuel} : Result (option Expression) :=
  match fuel with
  | O => OutOfFuel
  | S fuel =>
      binary_level [TokenType.STAR; TokenType.SLASH] (unary fuel) fuel p
  end

with term (fuel : nat) (p : t) {struct fuel} : Result (option Expression) :=
  match fuel with
  | O => OutOfFuel
  | S fuel =>
      binary_level [TokenType.PLUS; TokenType.MINUS] (factor fuel) fuel p
  end

with comparison (fuel : nat) (p : t) {struct fuel}
    : Result (option Expression) :=
  match fuel with
  | O => OutOfFuel
  | S fuel => binary_level comparison_operators (term fuel) fuel p
  end

with logical_and (fuel : nat) (p : t) {struct fuel}
    : Result (option Expression) :=
  match fuel with
  | O => OutOfFuel
  | S fuel => binary_level [TokenType.AND] (comparison fuel) fuel p
  end

with logical_or (fuel : nat) (p : t) {struct fuel}
    : Result (option Expression) :=
  match fuel with
  | O => OutOfFuel
  | S fuel => binary_level [TokenType.OR] (logical_and fuel) fuel p
  end

with assignment (fuel : nat) (p : t) {struct fuel}
    : Result (option Expression) :=
  match fuel with
  | O => OutOfFuel
  | S fuel =>
      bind (logical_or fuel p) (fun expr p1 =>
        let '(matched, p2) := match_ TokenType.ASSIGN p1 in
        if matched then
          match previous p2 with
          | None => OutOfRange
          | Some equals =>
              match expr with
              | Some (IdentifierExpression identifier) =>
                  bind (assignment fuel p2) (fun value p3 =>
                    match value with
                    | None => Ret None p3
                    | Some v =>
                        Ret (Some (AssignmentExpression identifier v)) p3
                    end)
              | _ =>
                  Ret None (report (InvalidAssignmentTarget
                                      (tok_line equals) (tok_column equals))
                              p2)
              end
          end
        else Ret expr p2)
  end

with expression (fuel : nat) (p : t) {struct fuel}
    : Result (option Expression) :=
  match fuel with
  | O => OutOfFuel
  | S fuel => assignment fuel p
  end.

Definition parseVariableDeclaration (fuel : nat) (p : t)
    : Result (option ASTNode) :=
  let '(_, p) := consume TokenType.VAR "Expected 'var' keyword" p in
  let '(identifier, p) :=
    consume TokenType.IDENTIFIER "Expected identifier after 'var'" p in
  if bool_decide (tok_type identifier = TokenType.EOF_TOKEN)
  then Ret None p else
  let '(matched, p) := match_ TokenType.ASSIGN p in
  if matched then
    bind (expression fuel p) (fun initializer p =>
      match initializer with
      | None => Ret None p
      | Some init =>
          let '(_, p) :=
            consume TokenType.SEMICOLON
              "Expected ';' after variable declaration" p in
          Ret (Some (VariableDeclaration identifier (Some init))) p
      end)
  else
    let '(_, p) :=
      consume TokenType.SEMICOLON "Expected ';' after variable declaration" p
    in Ret (Some (VariableDeclaration identifier None)) p.

Definition parsePrintStatement (fuel : nat) (p : t)
    : Result (option ASTNode) :=
  let '(_, p) := consume TokenType.PRINT "Expected 'print' keyword" p in
  let '(_, p) := consume TokenType.LPAREN "Expected '(' after 'print'" p in
  bind (expression fuel p) (fun expr p =>
    match expr with
    | None => Ret None p
    | Some e =>
        let '(_, p) :=
          consume TokenType.RPAREN "Expected ')' after print expression" p in
        let '(_, p) :=
          consume TokenType.SEMICOLON "Expected ';' after print statement" p in
        Ret (Some (PrintStatement e)) p
    end).

(** The statement loops of [block] and [parse]: statements are parsed
    with [statement] until a token of [stop] is next; a null statement
    makes the whole result null. *)
Definition statements_loop (stop : list TokenType.t)
    (statement : t -> Result (option ASTNode))
    : nat -> list ASTNode -> t -> Result (option (list ASTNode)) :=
  fix loop (n : nat) (statements : list ASTNode) (p : t) :=
    match n with
    | O => OutOfFuel
    | S n =>
        if bool_decide (tok_type (peek p) ∈ stop) then Ret (Some statements) p
        else
          bind (statement p) (fun node p =>
            match node with
            | Some s => loop n (statements ++ [s]) p
            | None => Ret None p
            end)
    end.

Fixpoint parseStatement (fuel : nat) (p : t) {struct fuel}
    : Result (option ASTNode) :=
  match fuel with
  | O => OutOfFuel
  | S fuel =>
      if bool_decide (tok_type (peek p) = TokenType.VAR)
      then parseVariableDeclaration fuel p
      else if bool_decide (tok_type (peek p) = TokenType.IF)
      then parseIfStatement fuel p
      else if bool_decide (tok_type (peek p) = TokenType.PRINT)
      then parsePrintStatement fuel p
      else
        bind (expression fuel p) (fun exprStmt p =>
          match exprStmt with
          | None => Ret None p
          | Some e =>
              let '(_, p) :=
                consume TokenType.SEMICOLON
                  "Expected ';' after expression statement" p in
              Ret (Some (ExpressionNode e)) p
          end)
  end

with parseIfStatement (fuel : nat) (p : t) {struct fuel}
    : Result (option ASTNode) :=
  match fuel with
  | O => OutOfFuel
  | S fuel =>
      let '(_, p) := consume TokenType.IF "Expected 'if' keyword" p in
      let '(_, p) := consume TokenType.LPAREN "Expected '(' after 'if'" p in
      bind (expression fuel p) (fun condition p =>
        match condition with
        | None => Ret None p
        | Some cond =>
            let '(_, p) :=
              consume TokenType.RPAREN "Expected ')' after if condition" p in
            bind (block fuel p) (fun thenBranch p =>
              match thenBranch with
              | None => Ret None p
              | Some thenNode =>
                  let '(matched, p) := match_ TokenType.ELSE p in
                  if matched then
                    bind (if bool_decide (tok_type (peek p) = TokenType.IF)
                          then parseIfStatement fuel p
                          else block fuel p)
                      (fun elseBranch p =>
                         match elseBranch with
                         | None => Ret None p
                         | Some elseNode =>
                             Ret (Some (IfStatement cond thenNode
                                          (Some elseNode))) p
                         end)
                  else Ret (Some (IfStatement cond thenNode None)) p
              end)
        end)
  end

with block (fuel : nat) (p : t) {struct fuel} : Result (option ASTNode) :=
  match fuel with
  | O => OutOfFuel
  | S fuel =>
      let '(_, p) :=
        consume TokenType.LBRACE "Expected '{' to start a block" p in
      bind (statements_loop [TokenType.RBRACE; TokenType.EOF_TOKEN]
              (parseStatement fuel) fuel [] p)
        (fun statements p =>
           match statements with
           | None => Ret None p
           | Some nodes =>
               let '(_, p) :=
                 consume TokenType.RBRACE "Expected '}' to end a block" p in
               Ret (Some (BlockStatement nodes)) p
           end)
  end.

(** [Parser::parse], with calls nested at most [fuel] deep. *)
Definition parse_within (fuel : nat) (p : t) : Result (option ASTNode) :=
  bind (statements_loop [TokenType.EOF_TOKEN] (parseStatement fuel) fuel [] p)
    (fun statements p =>
       match statements with
       | None | Some [] => Ret None p
       | Some [statement] => Ret (Some statement) p
       | Some nodes => Ret (Some (BlockStatement nodes)) p
       end).

(** The depth that the parsing of [n] tokens never exceeds. *)
Definition depth (n : nat) : nat := 10 * n + 13.

Definition parse (p : t) : Result (option ASTNode) :=
  parse_within (depth (length (tokens p) - current_pos p)) p.
End Parser.

(** ** Notions for the properties of lowered code and of its runs *)

(** How many values an instruction takes from the stack: the bound of its
    "Stack underflow" test in [VM::run]. *)
Definition operands (i : Instruction.t) : nat :=
  match i with
  | Instruction.ADD | Instruction.SUB | Instruction.MUL | Instruction.DIV
  | Instruction.STORE | Instruction.CONCAT_STRING
  | Instruction.GREATER | Instruction.LESS | Instruction.GREATER_EQUAL
  | Instruction.LESS_EQUAL | Instruction.EQUAL_EQUAL
  | Instruction.BANG_EQUAL => 2
  | Instruction.NEGATE | Instruction.POP | Instruction.LOAD
  | Instruction.JUMP_IF_FALSE | Instruction.JUMP_IF_TRUE | Instruction.NOT
  | Instruction.PRINT_VALUE | Instruction.PRINT_STRING => 1
  | _ => 0
  end.

Definition jump_instruction (i : Instruction.t) : bool :=
  match i with
  | Instruction.JUMP | Instruction.JUMP_IF_FALSE | Instruction.JUMP_IF_TRUE =>
      true
  | _ => false
  end.

(** The instructions [compileNode] emits after the two operands of a
    binary expression. *)
Definition binary_instruction (i : Instruction.t) : bool :=
  match i with
  | Instruction.ADD | Instruction.SUB | Instruction.MUL | Instruction.DIV
  | Instruction.CONCAT_STRING
  | Instruction.GREATER | Instruction.LESS | Instruction.GREATER_EQUAL
  | Instruction.LESS_EQUAL | Instruction.EQUAL_EQUAL
  | Instruction.BANG_EQUAL => true
  | _ => false
  end.

(** Every [Literal] node holds a literal token.  The parser builds no
    other [Literal]: [primary] makes one from an [INT_LITERAL], a
    [FLOAT_LITERAL] or a [STRING_LITERAL] token only. *)
Fixpoint literal_typed (e : Expression) : bool :=
  match e with
  | Literal token =>
      match tok_type token with
      | TokenType.INT_LITERAL | TokenType.FLOAT_LITERAL
      | TokenType.STRING_LITERAL => true
      | _ => false
      end
  | BooleanLiteral _ | IdentifierExpression _ => true
  | AssignmentExpression _ value => literal_typed value
  | BinaryExpression l _ r => literal_typed l && literal_typed r
  | UnaryExpression _ r => literal_typed r
  end.

Fixpoint node_literal_typed (node : ASTNode) : bool :=
  match node with
  | ExpressionNode e | PrintStatement e => literal_typed e
  | VariableDeclaration _ initializer =>
      match initializer with Some e => literal_typed e | None => true end
  | IfStatement condition thenBranch elseBranch =>
      literal_typed condition && node_literal_typed thenBranch
      && match elseBranch with
         | Some node => node_literal_typed node
         | None => true
         end
  | BlockStatement statements => forallb node_literal_typed statements
  | OtherNode => true
  end.

(** The code of an expression that starts at index [base] of the buffer,
    when the string pool ends up with [pool] entries. *)
Inductive ExprCode (pool : Z) : Z -> list Bytecode -> Prop :=
| code_push base b :
    instruction b = Instruction.PUSH_INT
    \/ instruction b = Instruction.PUSH_FLOAT ->
    ExprCode pool base [b]
| code_push_string base index :
    0 <= index < pool ->
    ExprCode pool base [Bytecode_int Instruction.PUSH_STRING index]
| code_load base address :
    ExprCode pool base
      [Bytecode_int Instruction.PUSH_INT address; Bytecode_op Instruction.LOAD]
| code_store base value address :
    ExprCode pool base value ->
    ExprCode pool base
      (value ++ [Bytecode_int Instruction.PUSH_INT address;
                 Bytecode_op Instruction.STORE])
| code_binary base l r i :
    ExprCode pool base l -> ExprCode pool (base + size l) r ->
    binary_instruction i = true ->
    ExprCode pool base (l ++ r ++ [Bytecode_op i])
| code_short_circuit base l r jump pad :
    ExprCode pool base l -> ExprCode pool (base + size l + 1) r ->
    jump = Instruction.JUMP_IF_FALSE \/ jump = Instruction.JUMP_IF_TRUE ->
    ExprCode pool base
      (l ++ Bytecode_int jump (base + size l + size r + 2)
         :: r ++ [Bytecode_int Instruction.JUMP (base + size l + size r + 3);
                  Bytecode_int Instruction.PUSH_INT pad])
| code_unary base r i :
    ExprCode pool base r ->
    i = Instruction.NOT \/ i = Instruction.NEGATE ->
    ExprCode pool base (r ++ [Bytecode_op i]).

(** The code of a statement. *)
Inductive StmtCode (pool : Z) : Z -> list Bytecode -> Prop :=
| code_expression base e : ExprCode pool base e -> StmtCode pool base e
| code_nothing base : StmtCode pool base []
| code_sequence base first second :
    StmtCode pool base first -> StmtCode pool (base + size first) second ->
    StmtCode pool base (first ++ second)
| code_if base condition thenCode :
    ExprCode pool base condition ->
    StmtCode pool (base + size condition + 1) thenCode ->
    StmtCode pool base
      (condition
         ++ Bytecode_int Instruction.JUMP_IF_FALSE
              (base + size condition + size thenCode + 1)
         :: thenCode)
| code_if_else base condition thenCode elseCode :
    ExprCode pool base condition ->
    StmtCode pool (base + size condition + 1) thenCode ->
    StmtCode pool (base + size condition + size thenCode + 2) elseCode ->
    StmtCode pool base
      (condition
         ++ Bytecode_int Instruction.JUMP_IF_FALSE
              (base + size condition + size thenCode + 2)
         :: thenCode
         ++ Bytecode_int Instruction.JUMP
              (base + size condition + size thenCode + size elseCode + 2)
         :: elseCode)
| code_print base e i :
    ExprCode pool base e ->
    i = Instruction.PRINT_VALUE \/ i = Instruction.PRINT_STRING ->
    StmtCode pool base (e ++ [Bytecode_op i]).

(** A lowering step appended code of the given kind, and no entry left
    the string pool. *)
Definition lowered (Code : Z -> Z -> list Bytecode -> Prop)
    (c c' : Compiler.t) : Prop :=
  exists code,
    Compiler.bytecode c' = Compiler.bytecode c ++ code /\
    size (Compiler.string_literals c) <= size (Compiler.string_literals c') /\
    Code (size (Compiler.string_literals c')) (size (Compiler.bytecode c)) code.

(** What an instruction of a finished program looks like at index [idx],
    when the program's [HALT] is at index [limit] and the pool has [pool]
    strings: a jump goes forward and not past the [HALT], a [PUSH_STRING]
    names a string of the pool, and [HALT], [POP], [AND] and [OR] do not
    occur. *)
Definition placed (pool limit : Z) (idx : Z) (b : Bytecode) : Prop :=
  match instruction b with
  | Instruction.JUMP | Instruction.JUMP_IF_FALSE | Instruction.JUMP_IF_TRUE =>
      exists target, operand b = Double.of_int target /\ idx < target <= limit
  | Instruction.PUSH_STRING =>
      exists index, operand b = Double.of_int index /\ 0 <= index < pool
  | Instruction.HALT | Instruction.POP | Instruction.AND | Instruction.OR =>
      False
  | _ => True
  end.

(** The ways a run may end that are not failures of the lowering: a
    [HALT], a run-time error of the program itself (division by zero, an
    address or a string index out of range), or the undefined conversion
    of a value to [int].  "Stack underflow", the [AND]/[OR] error and
    "Program did not halt" are left out. *)
Definition well_behaved (f : VM.Final) : bool :=
  match f with
  | VM.Returns _ _ (Some (StackUnderflow _))
  | VM.Returns _ _ (Some LogicalInstruction)
  | VM.Returns _ _ (Some DidNotHalt) => false
  | _ => true
  end.

(** The VM reaches index [target] after some turns, in a state of [Q]. *)
Definition arrives (vm : VM.t) (target : Z) (Q : VM.t -> Prop) : Prop :=
  exists n vm',
    steps n vm = Some vm' /\ VM.pc vm' = target /\
    VM.bytecode vm' = VM.bytecode vm /\ Q vm'.

(** The run ends after some turns, and ends well. *)
Definition stops (vm : VM.t) : Prop :=
  exists n vm' f,
    steps n vm = Some vm' /\ VM.step vm' = VM.Done f /\ well_behaved f = true.

(** The buffer [code] holds the instructions [seg] from index [idx]. *)
Definition holds (code : list Bytecode) (idx : Z) (seg : list Bytecode)
    : Prop :=
  exists pre post, code = pre ++ seg ++ post /\ size pre = idx.

(** One value was pushed on the stack of [vm]. *)
Definition pushed_one (vm vm' : VM.t) : Prop :=
  exists v, VM.stack vm' = v :: VM.stack vm.

(** The stack of [vm] is still there, under what was pushed since. *)
Definition stack_kept (vm vm' : VM.t) : Prop :=
  exists extra, VM.stack vm' = extra ++ VM.stack vm.

(** The instructions after which the VM goes on to the next one: all
    but the jumps, [HALT], and [AND]/[OR]. *)
Definition straight (i : Instruction.t) : bool :=
  match i with
  | Instruction.JUMP | Instruction.JUMP_IF_FALSE | Instruction.JUMP_IF_TRUE
  | Instruction.HALT | Instruction.AND | Instruction.OR => false
  | _ => true
  end.

(** How many values an instruction pushes when it succeeds. *)
Definition produces (i : Instruction.t) : nat :=
  match i with
  | Instruction.POP | Instruction.PRINT_VALUE | Instruction.PRINT_STRING
  | Instruction.JUMP | Instruction.JUMP_IF_FALSE | Instruction.JUMP_IF_TRUE
  | Instruction.HALT | Instruction.AND | Instruction.OR => 0
  | _ => 1
  end.

(** The VM reaches [target] in a state of [Q], or the run ends well
    before that. *)
Definition safely (vm : VM.t) (target : Z) (Q : VM.t -> Prop) : Prop :=
  arrives vm target Q \/ stops vm.

(** Every instruction of [code], which starts at index [base], is
    [placed]. *)
Definition all_placed (pool limit base : Z) (code : list Bytecode) : Prop :=
  forall i b, code !! i = Some b -> placed pool limit (base + Z.of_nat i) b.

(** What [compile] returns on a new compiler: the program and the
    compiler afterwards (nothing on a crash). *)
Definition compiled_by_new (ast : ASTNode) : list Bytecode * Compiler.t :=
  match Compiler.compile (Some ast) Compiler.new with
  | Ok result => result
  | Crash _ => ([], Compiler.new)
  end.

(** How a run ended (undefined behaviour stands in for a run that needs
    more turns). *)
Definition ending (run : option VM.Final) : VM.Final :=
  default VM.UndefinedBehaviour run.

(** ** Notions for the properties of the lexer and the parser *)

(** The tokens from [current_pos] on. *)
Definition remaining (p : Parser.t) : nat :=
  length (Parser.tokens p) - Parser.current_pos p.

(** [p'] is [p] later in the same token vector: no token was given
    back and no error line taken back. *)
Definition follows (p p' : Parser.t) : Prop :=
  Parser.tokens p' = Parser.tokens p /\
  (Parser.current_pos p <= Parser.current_pos p')%nat /\
  (length (Parser.cerr p) <= length (Parser.cerr p'))%nat.

(** An error line was written between [p] and [p']. *)
Definition complained (p p' : Parser.t) : Prop :=
  (length (Parser.cerr p) < length (Parser.cerr p'))%nat.

Definition binary_operator (type : TokenType.t) : bool :=
  match type with
  | TokenType.STAR | TokenType.SLASH | TokenType.PLUS | TokenType.MINUS
  | TokenType.GREATER | TokenType.LESS | TokenType.GREATER_EQUAL
  | TokenType.LESS_EQUAL | TokenType.EQUAL_EQUAL | TokenType.BANG_EQUAL
  | TokenType.AND | TokenType.OR => true
  | _ => false
  end.

#[global] Instance Token_eq_dec : EqDecision Token.
Proof. solve_decision. Defined.

(** [token] is one of the tokens [source]. *)
Definition drawn (source : list Token) (token : Token) : bool :=
  bool_decide (token ∈ source).

(** The trees the parser builds from the tokens [source]: each node
    holds tokens of [source], of the kinds that its parsing function
    matched. *)
Fixpoint parsed_expression (source : list Token) (e : Expression) : bool :=
  match e with
  | Literal token =>
      drawn source token
      && match tok_type token with
         | TokenType.INT_LITERAL | TokenType.FLOAT_LITERAL
         | TokenType.STRING_LITERAL => true
         | _ => false
         end
  | BooleanLiteral token =>
      drawn source token
      && match tok_type token with
         | TokenType.TRUE | TokenType.FALSE => true
         | _ => false
         end
  | IdentifierExpression identifier =>
      drawn source identifier
      && bool_decide (tok_type identifier = TokenType.IDENTIFIER)
  | AssignmentExpression identifier value =>
      drawn source identifier
      && bool_decide (tok_type identifier = TokenType.IDENTIFIER)
      && parsed_expression source value
  | BinaryExpression l op r =>
      drawn source op && binary_operator (tok_type op)
      && parsed_expression source l && parsed_expression source r
  | UnaryExpression op r =>
      drawn source op
      && match tok_type op with
         | TokenType.BANG | TokenType.MINUS => parsed_expression source r
         | _ => false
         end
  end.

Fixpoint parsed_node (source : list Token) (node : ASTNode) : bool :=
  match node with
  | ExpressionNode e | PrintStatement e => parsed_expression source e
  | VariableDeclaration identifier initializer =>
      drawn source identifier
      && bool_decide (tok_type identifier = TokenType.IDENTIFIER)
      && match initializer with
         | Some e => parsed_expression source e
         | None => true
         end
  | IfStatement condition thenBranch elseBranch =>
      parsed_expression source condition && parsed_node source thenBranch
      && match elseBranch with
         | Some node => parsed_node source node
         | None => true
         end
  | BlockStatement statements => forallb (parsed_node source) statements
  | OtherNode => false
  end.

(** A parsing function returns at [p], further on in the tokens; what
    it returns is a tree of the parser, for which it consumed a token, or
    null after an error line. *)
Definition returns_expression (f : Parser.t -> Parser.Result (option Expression))
    (p : Parser.t) : Prop :=
  exists e p',
    f p = Parser.Ret e p' /\ follows p p' /\
    match e with
    | Some e' =>
        parsed_expression (Parser.tokens p) e' = true /\
        (Parser.current_pos p < Parser.current_pos p')%nat
    | None => complained p p'
    end.

Definition returns_node (progress : bool)
    (f : Parser.t -> Parser.Result (option ASTNode)) (p : Parser.t) : Prop :=
  exists node p',
    f p = Parser.Ret node p' /\ follows p p' /\
    match node with
    | Some node' =>
        parsed_node (Parser.tokens p) node' = true /\
        (progress = true ->
         (Parser.current_pos p < Parser.current_pos p')%nat)
    | None => complained p p'
    end.

(** [g] returns what [f] returns, wherever [f] returns. *)
Definition refines {A} (f g : Parser.t -> Parser.Result A) : Prop :=
  forall p a p', f p = Parser.Ret a p' -> g p = Parser.Ret a p'.

(** Text of the form digits, point, digits. *)
Fixpoint decimal (s : list ascii) : bool :=
  match s with
  | [] => false
  | c :: s' =>
      if Ascii.eqb c "." then forallb Lexer.isDigit s'
      else Lexer.isDigit c && decimal s'
  end.

Definition starts_with (f : ascii -> bool) (s : list ascii) : bool :=
  match s with
  | c :: _ => f c
  | [] => false
  end.

(** The text a token of each type carries when the lexer made it: the
    characters of the lexeme for numbers, names and keywords, the fixed
    spelling for operators and punctuation.  A string literal carries
    its characters with the escapes resolved, the end token nothing. *)
Definition well_lexed (token : Token) : bool :=
  let text := list_ascii_of_string (tok_value token) in
  match tok_type token with
  | TokenType.EOF_TOKEN => String.eqb (tok_value token) ""
  | TokenType.INT_LITERAL =>
      starts_with Lexer.isDigit text && forallb Lexer.isDigit text
  | TokenType.FLOAT_LITERAL => starts_with Lexer.isDigit text && decimal text
  | TokenType.STRING_LITERAL => true
  | TokenType.IDENTIFIER =>
      starts_with Lexer.isAlpha text && forallb Lexer.isAlphaNumeric text
      && bool_decide (Lexer.keyword (tok_value token) = TokenType.IDENTIFIER)
  | TokenType.VAR => String.eqb (tok_value token) "var"
  | TokenType.IF => String.eqb (tok_value token) "if"
  | TokenType.ELSE => String.eqb (tok_value token) "else"
  | TokenType.PRINT => String.eqb (tok_value token) "print"
  | TokenType.TRUE => String.eqb (tok_value token) "true"
  | TokenType.FALSE => String.eqb (tok_value token) "false"
  | TokenType.PLUS => String.eqb (tok_value token) "+"
  | TokenType.MINUS => String.eqb (tok_value token) "-"
  | TokenType.STAR => String.eqb (tok_value token) "*"
  | TokenType.SLASH => String.eqb (tok_value token) "/"
  | TokenType.GREATER => String.eqb (tok_value token) ">"
  | TokenType.LESS => String.eqb (tok_value token) "<"
  | TokenType.GREATER_EQUAL => String.eqb (tok_value token) ">="
  | TokenType.LESS_EQUAL => String.eqb (tok_value token) "<="
  | TokenType.EQUAL_EQUAL => String.eqb (tok_value token) "=="
  | TokenType.BANG_EQUAL => String.eqb (tok_value token) "!="
  | TokenType.BANG => String.eqb (tok_value token) "!"
  | TokenType.AND => String.eqb (tok_value token) "&&"
  | TokenType.OR => String.eqb (tok_value token) "||"
  | TokenType.LPAREN => String.eqb (tok_value token) "("
  | TokenType.RPAREN => String.eqb (tok_value token) ")"
  | TokenType.ASSIGN => String.eqb (tok_value token) "="
  | TokenType.SEMICOLON => String.eqb (tok_value token) ";"
  | TokenType.LBRACE => String.eqb (tok_value token) "{"
  | TokenType.RBRACE => String.eqb (tok_value token) "}"
  end.

(** An unterminated string was reported. *)
Definition unterminated (errors : list Lexer.Error) : bool :=
  existsb (fun e => match e with
                    | Lexer.UnterminatedString _ _ => true
                    | _ => false
                    end) errors.

Definition is_eof (token : Token) : bool :=
  bool_decide (tok_type token = TokenType.EOF_TOKEN).

(** ** Notions for the ways [compile] does not return *)

(** A [Symbol*] that designates a symbol of the table. *)
Definition live (p : SymbolRef) (st : SymbolTable.t) : Prop :=
  is_Some (SymbolTable.deref p st).

(** Every live pointer into [st] is a live pointer into [st']. *)
Definition keeps (st st' : SymbolTable.t) : Prop :=
  forall p, live p st -> live p st'.

(** The literal tokens of a tree. *)
Fixpoint literals (e : Expression) : list Token :=
  match e with
  | Literal token => [token]
  | BooleanLiteral _ | IdentifierExpression _ => []
  | AssignmentExpression _ value => literals value
  | BinaryExpression l _ r => literals l ++ literals r
  | UnaryExpression _ r => literals r
  end.

Fixpoint node_literals (node : ASTNode) : list Token :=
  match node with
  | ExpressionNode e | PrintStatement e => literals e
  | VariableDeclaration _ initializer =>
      match initializer with Some e => literals e | None => [] end
  | IfStatement condition thenBranch elseBranch =>
      literals condition ++ node_literals thenBranch
      ++ match elseBranch with
         | Some node => node_literals node
         | None => []
         end
  | BlockStatement statements => flat_map node_literals statements
  | OtherNode => []
  end.

(** [std::stoi] or [std::stof] throws [f] on the text of the literal. *)
Definition throws (token : Token) (f : Fault) : Prop :=
  (tok_type token = TokenType.INT_LITERAL /\ stoi (tok_value token) = Crash f)
  \/ (tok_type token = TokenType.FLOAT_LITERAL
      /\ stof (tok_value token) = Crash f).

(** The expressions whose [getType()] is [IDENTIFIER_EXPRESSION]
    although they are no [IdentifierExpression]: an identifier under
    unary operators and assignments. *)
Fixpoint wraps_identifier (e : Expression) : bool :=
  match e with
  | IdentifierExpression _ => true
  | AssignmentExpression _ value => wraps_identifier value
  | UnaryExpression _ r => wraps_identifier r
  | _ => false
  end.

Definition is_identifier (e : Expression) : bool :=
  match e with
  | IdentifierExpression _ => true
  | _ => false
  end.

(** What a turn of the loop does: it takes at least one character; the
    tokens it pushes carry the text of their type; it keeps the errors
    reported so far; and it pushes an end token only for an unterminated
    string, which it reports. *)
Definition turn (lx : Lexer.t) (pushed : list Token) (lx' : Lexer.t) : Prop :=
  (length (Lexer.rest lx') < length (Lexer.rest lx))%nat /\
  forallb well_lexed pushed = true /\
  (exists new, Lexer.errors lx' = Lexer.errors lx ++ new /\
               (existsb is_eof pushed = true -> unterminated new = true)).


(** What holds of the tokens pushed and the errors reported so far. *)
Definition lexed (tokens : list Token) (lx : Lexer.t) : Prop :=
  forallb well_lexed tokens = true /\
  (existsb is_eof tokens = true -> unterminated (Lexer.errors lx) = true).


(** What [tokenize] returns (nothing if its loop needed more turns). *)
Definition scanned (source : string) : list Token * list Lexer.Error :=
  default ([], []) (Lexer.tokenize source).

(** How a parsing function ended. *)
Definition parsed_tree (r : Parser.Result (option ASTNode)) : option ASTNode :=
  match r with
  | Parser.Ret ast _ => ast
  | _ => None
  end.

Definition parser_after (r : Parser.Result (option ASTNode)) : Parser.t :=
  match r with
  | Parser.Ret _ p => p
  | _ => Parser.new []
  end.

(** ** Notions for the symbol table and the memory of the VM *)

(** Declarations in the current scope, in order; one that fails changes
    nothing. *)
Definition declare_all (declarations : list (string * NodeType.t))
    (st : SymbolTable.t) : SymbolTable.t :=
  foldl (fun st d => (SymbolTable.addSymbol d.1 d.2 st).1.2) st declarations.

(** The scope that [lookupSymbol] finds [name] in, counted from the
    innermost one. *)
Definition binding_scope (name : string) (st : SymbolTable.t) : option nat :=
  ref_scope <$> SymbolTable.lookupSymbol name st.


(** What a turn of the VM loop keeps: the program; the strings of the
    pool and the lines printed, to which it only appends; the cells of
    the memory, of which it drops none. *)
Definition frame (vm vm' : VM.t) : Prop :=
  VM.bytecode vm' = VM.bytecode vm /\
  VM.string_literals vm `prefix_of` VM.string_literals vm' /\
  VM.cout vm `prefix_of` VM.cout vm' /\
  (length (VM.memory vm) <= length (VM.memory vm'))%nat.

Definition framed (vm : VM.t) (s : VM.Step) : Prop :=
  match s with
  | VM.Next vm' | VM.Done (VM.Returns vm' _ _) => frame vm vm'
  | VM.Done VM.UndefinedBehaviour => True
  end.

(** The comparison instructions, and the comparison of integers that
    each stands for. *)
Definition integer_comparison (i : Instruction.t) : option (Z -> Z -> bool) :=
  match i with
  | Instruction.GREATER => Some Z.gtb
  | Instruction.LESS => Some Z.ltb
  | Instruction.GREATER_EQUAL => Some Z.geb
  | Instruction.LESS_EQUAL => Some Z.leb
  | Instruction.EQUAL_EQUAL => Some Z.eqb
  | Instruction.BANG_EQUAL => Some (fun a b => negb (a =? b))
  | _ => None
  end.

(** * Properties *)

(** ** Exact conversions between [int], [float] and [double] *)

Section Normalize.
Lemma digits2_pos_shift (m k : positive) :
  digits2_pos (PosDef.Pos.iter xO m k) = (digits2_pos m + k)%positive.
Proof.
  change (PosDef.Pos.iter xO m k) with (Pos.iter xO m k).
  induction k as [|k IH] using Pos.peano_ind.
  - simpl. lia.
  - rewrite Pos.iter_succ. simpl. rewrite IH. lia.
Qed.

Lemma Zpos_shift (m k : positive) :
  Z.pos (PosDef.Pos.iter xO m k) = Z.pos m * 2 ^ Z.pos k.
Proof.
  change (PosDef.Pos.iter xO m k) with (Pos.iter xO m k).
  induction k as [|k IH] using Pos.peano_ind.
  - simpl. lia.
  - rewrite Pos.iter_succ, Pos2Z.inj_succ, Z.pow_succ_r by lia.
    rewrite Pos2Z.inj_xO, IH. lia.
Qed.

Lemma digits2_pos_bound (m : positive) (n : Z) :
  Z.pos m < 2 ^ n -> Z.pos (digits2_pos m) <= n.
Proof.
  assert (small : forall n, n <= 0 -> 2 ^ n <= 1).
  { intros [|q|q] Hq; try lia; reflexivity || discriminate. }
  revert n. induction m as [m IH|m IH|]; intros n Hn.
  - destruct (Z.le_gt_cases n 0) as [Hle|Hgt].
    { specialize (small n Hle). lia. }
    replace n with (Z.succ (n - 1)) in Hn by lia.
    rewrite Z.pow_succ_r, Pos2Z.inj_xI in Hn by lia.
    specialize (IH (n - 1)). simpl digits2_pos.
    rewrite Pos2Z.inj_succ. lia.
  - destruct (Z.le_gt_cases n 0) as [Hle|Hgt].
    { specialize (small n Hle). lia. }
    replace n with (Z.succ (n - 1)) in Hn by lia.
    rewrite Z.pow_succ_r, Pos2Z.inj_xO in Hn by lia.
    specialize (IH (n - 1)). simpl digits2_pos.
    rewrite Pos2Z.inj_succ. lia.
  - destruct (Z.le_gt_cases n 0) as [Hle|Hgt].
    { specialize (small n Hle). lia. }
    simpl. lia.
Qed.

(** Rounding a mantissa that already fits is a shift to full width. *)
Lemma binary_round_exact (s : bool) (m k : positive) (e : Z) :
  Z.pos (digits2_pos m) + Z.pos k = Double.prec ->
  3 - Double.emax - Double.prec <= e - Z.pos k ->
  e - Z.pos k <= Double.emax - Double.prec ->
  binary_round Double.prec Double.emax s m e
  = S754_finite s (PosDef.Pos.iter xO m k) (e - Z.pos k).
Proof.
  unfold Double.prec, Double.emax. intros Hd Hlo Hhi.
  unfold binary_round, shl_align, fexp, emin.
  replace (Z.max (Z.pos (digits2_pos m) + e - 53) (3 - 1024 - 53) - e)
    with (Z.neg k) by lia.
  replace (Z.max (Z.pos (digits2_pos m) + e - 53) (3 - 1024 - 53))
    with (e - Z.pos k) by lia.
  unfold binary_round_aux, shr_fexp, fexp, emin, Zdigits2.
  rewrite digits2_pos_shift.
  replace (Z.max (Z.pos (digits2_pos m + k) + (e - Z.pos k) - 53)
             (3 - 1024 - 53) - (e - Z.pos k)) with 0 by lia.
  simpl.
  rewrite digits2_pos_shift.
  replace (Z.max (Z.pos (digits2_pos m + k) + (e - Z.pos k) - 53)
             (3 - 1024 - 53) - (e - Z.pos k)) with 0 by lia.
  simpl.
  destruct (e - Z.pos k <=? 1024 - 53) eqn:E; [reflexivity | lia].
Qed.
End Normalize.

Lemma of_int_pos (p : positive) :
  Z.pos p <= Double.INT_MAX + 1 ->
  exists k, Double.of_int (Z.pos p) = S754_finite false (PosDef.Pos.iter xO p k) (- Z.pos k)
         /\ Double.of_int (Z.neg p) = S754_finite true (PosDef.Pos.iter xO p k) (- Z.pos k).
Proof.
  unfold Double.INT_MAX. intros Hp.
  assert (Hd : Z.pos (digits2_pos p) <= 32)
    by (apply digits2_pos_bound; lia).
  destruct (53 - Z.pos (digits2_pos p)) as [|k|k] eqn:Hk; try lia.
  exists k. unfold Double.of_int, binary_normalize.
  rewrite !binary_round_exact with (k := k);
    unfold Double.prec, Double.emax; try lia.
  split; reflexivity.
Qed.

(** [static_cast<int>(static_cast<double>(z)) == z] for every [int]. *)
Lemma to_int_of_int (z : Z) :
  Double.INT_MIN <= z <= Double.INT_MAX ->
  Double.to_int (Double.of_int z) = Some z.
Proof.
  intros Hz. destruct z as [|p|p].
  - reflexivity.
  - destruct (of_int_pos p) as (k & -> & _); [lia|].
    unfold Double.to_int, Double.trunc.
    rewrite (proj2 (Z.leb_gt 0 (- Z.pos k))) by lia.
    rewrite Zpos_shift, Z.opp_involutive, Z.div_mul by lia.
    rewrite (proj2 (Z.leb_le _ _)), (proj2 (Z.leb_le _ _)) by lia.
    reflexivity.
  - destruct (of_int_pos p) as (k & _ & ->).
    { unfold Double.INT_MIN, Double.INT_MAX in *. lia. }
    unfold Double.to_int, Double.trunc.
    rewrite (proj2 (Z.leb_gt 0 (- Z.pos k))) by lia.
    rewrite Zpos_shift, Z.opp_involutive, Z.div_mul by lia.
    change (- Z.pos p) with (Z.neg p).
    rewrite (proj2 (Z.leb_le _ _)), (proj2 (Z.leb_le _ _)) by lia.
    reflexivity.
Qed.

(** ** Rounding yields values of the format

    [binary_round_aux] returns a canonical, bounded mantissa and exponent
    whenever its input mantissa is not shorter than the format asks for;
    the quotients that division rounds are such inputs. *)

Section Rounding.
Variables prec emax : Z.
Hypothesis prec_pos : 0 < prec.



Lemma digits2_pos_lower (p : positive) : 2 ^ (Z.pos (digits2_pos p) - 1) <= Z.pos p.
Proof.
  induction p as [p IH|p IH|]; simpl digits2_pos.
  - rewrite Pos2Z.inj_succ, (Pos2Z.inj_xI p).
    replace (Z.succ (Z.pos (digits2_pos p)) - 1)
      with (Z.succ (Z.pos (digits2_pos p) - 1)) by lia.
    rewrite Z.pow_succ_r by lia. lia.
  - rewrite Pos2Z.inj_succ, (Pos2Z.inj_xO p).
    replace (Z.succ (Z.pos (digits2_pos p)) - 1)
      with (Z.succ (Z.pos (digits2_pos p) - 1)) by lia.
    rewrite Z.pow_succ_r by lia. lia.
  - by vm_compute.
Qed.

Lemma digits2_pos_upper (p : positive) : Z.pos p < 2 ^ Z.pos (digits2_pos p).
Proof.
  induction p as [p IH|p IH|]; simpl digits2_pos.
  - rewrite Pos2Z.inj_succ, (Pos2Z.inj_xI p), Z.pow_succ_r by lia. lia.
  - rewrite Pos2Z.inj_succ, (Pos2Z.inj_xO p), Z.pow_succ_r by lia. lia.
  - by vm_compute.
Qed.
















End Rounding.


(** ** Lowering either appends or clears *)

Section Lowering.
Import Compiler.

#[local] Arguments emit : simpl never.
#[local] Arguments fail : simpl never.
#[local] Arguments report : simpl never.
#[local] Arguments with_bytecode : simpl never.
#[local] Arguments with_symbolTable : simpl never.
#[local] Arguments close_short_circuit : simpl never.
#[local] Arguments push_address : simpl never.
#[local] Arguments enterScope : simpl never.
#[local] Arguments exitScope : simpl never.

Lemma has_error_app (ds1 ds2 : list Diagnostic) :
  has_error (ds1 ++ ds2) = has_error ds1 || has_error ds2.
Proof. apply existsb_app. Qed.

Lemma grows_refl c : grows c c.
Proof. exists [], []. by rewrite !app_nil_r. Qed.

Lemma grows_trans c1 c2 c3 : grows c1 c2 -> grows c2 c3 -> grows c1 c3.
Proof.
  intros (ds1 & k1 & E1 & W1 & B1) (ds2 & k2 & E2 & W2 & B2).
  exists (ds1 ++ ds2), (k1 ++ k2).
  rewrite E2, E1, B2, B1, has_error_app, W1, W2, !app_assoc. done.
Qed.

Lemma grows_extends c1 c2 c3 : grows c1 c2 -> extends c2 c3 -> extends c1 c3.
Proof.
  intros G [G'|(ds2 & E2 & W2 & B2)].
  - left. by eapply grows_trans.
  - right. destruct G as (ds1 & k1 & E1 & W1 & B1).
    exists (ds1 ++ ds2). rewrite E2, E1, has_error_app, W2, app_assoc.
    by rewrite orb_true_r.
Qed.

Lemma extends_nonempty c c' :
  extends c c' -> empty (bytecode c') = false -> grows c c'.
Proof.
  intros [G|(ds & _ & _ & B)] Hne; [done|]. by rewrite B in Hne.
Qed.

Lemma grows_length c c' :
  grows c c' -> (length (bytecode c) <= length (bytecode c'))%nat.
Proof. intros (_ & k & _ & _ & ->). rewrite length_app. lia. Qed.

Lemma grows_emit b c : grows c (emit b c).
Proof. exists [], [b]. by rewrite app_nil_r. Qed.

Lemma grows_report ws c : has_error ws = false -> grows c (report ws c).
Proof. intros W. exists ws, []. by rewrite app_nil_r. Qed.

Lemma grows_with_symbolTable st c : grows c (with_symbolTable st c).
Proof. exists [], []. by rewrite !app_nil_r. Qed.

Lemma grows_patch c c' code idx target :
  grows c c' -> (length (bytecode c) <= idx)%nat -> bytecode c' = code ->
  grows c (with_bytecode (patch idx target code) c').
Proof.
  intros (ds & k & E & W & B) Hidx <-.
  exists ds, (patch (idx - length (bytecode c)) target k). simpl.
  rewrite B. unfold patch. by rewrite alter_app_r_alt.
Qed.

Lemma failed_fail d c : is_error d = true -> failed c (fail d c).
Proof. intros Hd. exists [d]. simpl. by rewrite Hd. Qed.


Lemma grows_push_address p c c' : push_address p c = Ok c' -> grows c c'.
Proof.
  unfold push_address. destruct (SymbolTable.deref p (symbolTable c)); [|done].
  intros [= <-]. apply grows_emit.
Qed.

Lemma grows_close_short_circuit c c' idx pad :
  grows c c' -> (length (bytecode c) <= idx)%nat ->
  grows c (close_short_circuit idx pad c').
Proof.
  intros G Hidx. unfold close_short_circuit.
  apply grows_patch; [|pose proof (grows_length _ _ G); lia|done].
  eapply grows_trans; [|apply grows_emit].
  apply grows_patch; [|done|done].
  eapply grows_trans; [exact G|apply grows_emit].
Qed.

(** [resolveExpressionType] only ever warns. *)
Lemma resolveExpressionType_warns e st :
  has_error (resolveExpressionType e st).2 = false.
Proof.
  induction e as [| |identifier| |l IHl op r IHr|]; simpl; try done.
  - by destruct (_ ≫= _).
  - destruct (resolveExpressionType l st) as [lt dl].
    destruct (resolveExpressionType r st) as [rt dr]. simpl in *.
    by rewrite has_error_app, IHl, IHr.
Qed.

Lemma operandType_warns e st : has_error (operandType e st).2 = false.
Proof. destruct e; try done; apply resolveExpressionType_warns. Qed.

(** Sequencing: a step that left the buffer empty is returned as it is;
    otherwise it grew the buffer and lowering goes on.  [E] names a proof
    of [extends c c1], which becomes one of [grows c c1]. *)
Ltac continue E :=
  match goal with
  | H : (if empty (bytecode ?c1) then _ else _) = Ok _ |- _ =>
      let Hne := fresh "Hne" in
      destruct (empty (bytecode c1)) eqn:Hne;
      [ injection H as <-; exact E
      | apply extends_nonempty in E; [|exact Hne] ]
  end.

Lemma compileExpression_extends e :
  forall c c', compileExpression e c = Ok c' -> extends c c'.
Proof.
  induction e as [token|token|identifier|identifier value IH
                 |l IHl op r IHr|op r IH]; intros c c' H; simpl in H.
  - (* Literal *)
    destruct (tok_type token); try (injection H as <-; left; apply grows_refl).
    + destruct (stoi _); [|done]. injection H as <-. left. apply grows_emit.
    + destruct (stof _); [|done]. injection H as <-. left. apply grows_emit.
    + injection H as <-. left. by exists [], [Bytecode_int Instruction.PUSH_STRING
                                     (size (string_literals c))];
        rewrite app_nil_r.
  - (* BooleanLiteral *)
    destruct (tok_type token); injection H as <-; left; apply grows_emit.
  - (* IdentifierExpression *)
    destruct (SymbolTable.lookupSymbol _ _) as [p|].
    + destruct (push_address p c) as [c1|] eqn:Hp; [|done].
      injection H as <-. left.
      eapply grows_trans; [by eapply grows_push_address|apply grows_emit].
    + injection H as <-. right. by apply failed_fail.
  - (* AssignmentExpression *)
    destruct (SymbolTable.lookupSymbol _ _) as [p|];
      [|injection H as <-; right; by apply failed_fail].
    destruct (compileExpression value c) as [c1|] eqn:Hv; [|done].
    simpl in H. pose proof (IH _ _ Hv) as G. continue G.
    pose proof (resolveExpressionType_warns value (symbolTable c1)) as W.
    destruct (resolveExpressionType value (symbolTable c1)) as [ty ws].
    simpl in W, H.
    destruct (SymbolTable.deref p (symbolTable c1)) as [s|]; [|done].
    assert (G1 : grows c (report ws c1))
      by (eapply grows_trans; [exact G|by apply grows_report]).
    destruct (_ && _).
    + injection H as <-. eapply grows_extends; [exact G1|].
      right. by apply failed_fail.
    + destruct (push_address p _) as [c2|] eqn:Hp; [|done].
      injection H as <-. left.
      eapply grows_trans; [|apply grows_emit].
      eapply grows_trans; [|by eapply grows_push_address].
      destruct (bool_decide _); [|done].
      eapply grows_trans; [exact G1|apply grows_with_symbolTable].
  - (* BinaryExpression *)
    pose proof (operandType_warns l (symbolTable c)) as Wl.
    pose proof (operandType_warns r (symbolTable c)) as Wr.
    destruct (operandType l (symbolTable c)) as [lt wl].
    destruct (operandType r (symbolTable c)) as [rt wr]. simpl in Wl, Wr.
    set (c0 := report (wl ++ wr) c) in *.
    assert (G0 : grows c c0)
      by (apply grows_report; by rewrite has_error_app, Wl, Wr).
    assert (Hoperands : forall i c',
      (c1 ← compileExpression l c0;
       if empty (bytecode c1) then Ok c1 else
       c2 ← compileExpression r c1;
       if empty (bytecode c2) then Ok c2 else
       Ok (emit (Bytecode_op i) c2)) = Ok c' -> extends c0 c').
    { intros i c'' H'.
      destruct (compileExpression l c0) as [c1|] eqn:Hl; [|done].
      simpl in H'. pose proof (IHl _ _ Hl) as G1. continue G1.
      destruct (compileExpression r c1) as [c2|] eqn:Hr; [|done].
      simpl in H'.
      pose proof (grows_extends _ _ _ G1 (IHr _ _ Hr)) as G2. continue G2.
      injection H' as <-. left.
      eapply grows_trans; [exact G2|apply grows_emit]. }
    assert (Hshort : forall jump pad c',
      (c1 ← compileExpression l c0;
       if empty (bytecode c1) then Ok c1 else
       c2 ← compileExpression r (emit (Bytecode_int jump 0) c1);
       if empty (bytecode c2) then Ok c2 else
       Ok (close_short_circuit (length (bytecode c1)) pad c2)) = Ok c' ->
      extends c0 c').
    { intros jump pad c'' H'.
      destruct (compileExpression l c0) as [c1|] eqn:Hl; [|done].
      simpl in H'. pose proof (IHl _ _ Hl) as G1. continue G1.
      destruct (compileExpression r _) as [c2|] eqn:Hr; [|done].
      simpl in H'.
      assert (G1' : grows c0 (emit (Bytecode_int jump 0) c1))
        by (eapply grows_trans; [exact G1|apply grows_emit]).
      pose proof (grows_extends _ _ _ G1' (IHr _ _ Hr)) as G2. continue G2.
      injection H' as <-. left.
      apply grows_close_short_circuit; [done|]. by apply grows_length. }
    eapply grows_extends; [exact G0|].
    destruct (tok_type op);
      repeat match type of H with
             | (if ?b then _ else _) = _ => destruct b
             end;
      first [ by eapply Hoperands
            | by eapply Hshort
            | injection H as <-; right; by apply failed_fail ].
  - (* UnaryExpression *)
    destruct (compileExpression r c) as [c1|] eqn:Hr; [|done].
    simpl in H. pose proof (IH _ _ Hr) as G. continue G.
    destruct (tok_type op); injection H as <-;
      (eapply grows_extends; [exact G|]);
      first [ left; apply grows_emit | right; by apply failed_fail ].
Qed.


(** The statement loop of a block, as [compileNode] runs it. *)
Lemma compileNode_block_unfold statements c :
  compileNode (BlockStatement statements) c
  = (fix each (stmts : list ASTNode) (c : t) {struct stmts} : Res t :=
       match stmts with
       | [] => Ok (exitScope c)
       | stmt :: rest =>
           c ← compileNode stmt c;
           if empty (bytecode c) then Ok c else each rest c
       end) statements (enterScope c).
Proof. reflexivity. Qed.

End Lowering.

(** ** Errors poison the whole compilation *)






(** ** Symbol table *)

Section Symbols.
Import SymbolTable.

Lemma addSymbol_fails name ty st top rest :
  scopes st = top :: rest ->
  (addSymbol name ty st).1.1 = false <-> is_Some (top !! name).
Proof.
  intros E. unfold addSymbol. rewrite E.
  destruct (top !! name) as [s|]; simpl; split; try done.
Qed.

Lemma addSymbol_succeeds name ty st top rest :
  scopes st = top :: rest -> top !! name = None ->
  addSymbol name ty st
  = (true,
     mk (<[name := mkSymbol name ty (next_address st)]> top :: rest)
        (next_address st + 1),
     []).
Proof. intros E N. unfold addSymbol. by rewrite E, N. Qed.

Lemma find_shift name ss i :
  find name ss (S i)
  = (fun p => mkRef (S (ref_scope p)) (ref_name p)) <$> find name ss i.
Proof.
  revert i. induction ss as [|scope ss IH]; intros i; simpl; [done|].
  destruct (scope !! name); [done|]. apply IH.
Qed.

Lemma find_name name ss i p : find name ss i = Some p -> ref_name p = name.
Proof.
  revert i. induction ss as [|scope ss IH]; intros i; simpl; [done|].
  destruct (scope !! name); [by intros [= <-]|]. apply IH.
Qed.

(** The counter never decreases. *)
Lemma apply_op_monotone op st : next_address st <= next_address (apply_op op st).
Proof.
  destruct op as [| |name ty|p ty]; simpl; try lia.
  - unfold exitScope. destruct (scopes st) as [|? [|? ?]]; simpl; lia.
  - unfold addSymbol. destruct (scopes st) as [|top rest]; simpl; [lia|].
    destruct (top !! name); simpl; lia.
Qed.

Lemma elem_of_alter_scope (f : Symbol -> Symbol) (k : string) i
    (ss : list (gmap string Symbol)) scope :
  scope ∈ alter (alter f k) i ss ->
  exists scope', scope' ∈ ss /\ (scope = scope' \/ scope = alter f k scope').
Proof.
  intros (j & Hj)%list_elem_of_lookup.
  rewrite list_lookup_alter in Hj. case_decide as Hij.
  - subst j. destruct (ss !! i) as [scope'|] eqn:E; simpl in Hj; [|done].
    injection Hj as <-.
    exists scope'. split; [by eapply list_elem_of_lookup_2|by right].
  - exists scope. split; [by eapply list_elem_of_lookup_2|by left].
Qed.

Lemma apply_op_bounded op st : bounded st -> bounded (apply_op op st).
Proof.
  intros B. destruct op as [| |name ty|p ty]; simpl.
  - intros scope k s [->|Hin]%elem_of_cons; [by rewrite lookup_empty|].
    by eapply B.
  - unfold exitScope. destruct (scopes st) as [|top [|top' rest]] eqn:E;
      simpl; try done.
    intros scope k s Hin. apply (B scope k s). rewrite E. by right.
  - unfold addSymbol. destruct (scopes st) as [|top rest] eqn:E; [done|].
    destruct (top !! name) eqn:N; [done|]. simpl.
    intros scope k s [->|Hin]%elem_of_cons.
    + rewrite lookup_insert. case_decide as Hk.
      * intros [= <-]. simpl. lia.
      * intros Hs. assert (address s < next_address st); [|simpl; lia].
        apply (B top k s); [rewrite E; by left|done].
    + intros Hs. assert (address s < next_address st); [|simpl; lia].
      apply (B scope k s); [rewrite E; by right|done].
  - intros scope k s Hin Hs. simpl in Hin.
    apply elem_of_alter_scope in Hin as (scope' & Hin & [->| ->]).
    + by eapply B.
    + rewrite lookup_alter in Hs. case_decide as Hk.
      * destruct (scope' !! ref_name p) as [s'|] eqn:E; [|done].
        injection Hs as <-. simpl. by eapply B.
      * by eapply B.
Qed.

Lemma created_address op st s :
  created op st = Some s ->
  address s = next_address st /\
  next_address (apply_op op st) = next_address st + 1.
Proof.
  destruct op as [| |name ty|p ty]; simpl; try done.
  unfold addSymbol, resolve, lookupSymbol, deref.
  destruct (scopes st) as [|top rest]; [done|].
  destruct (top !! name); [done|]. simpl.
  rewrite lookup_insert_eq. simpl. rewrite lookup_insert_eq.
  by intros [= <-].
Qed.

Lemma history_addresses ops : forall st a,
  a ∈ address <$> history ops st ->
  next_address st <= a < next_address (apply_ops ops st).
Proof.
  induction ops as [|op ops IH]; intros st a; simpl; [by intros ?%elem_of_nil|].
  pose proof (apply_op_monotone op st) as M.
  assert (T : forall a, a ∈ address <$> history ops (apply_op op st) ->
                        next_address st <= a
                        < next_address (apply_ops ops (apply_op op st))).
  { intros a' Ha. specialize (IH _ _ Ha). lia. }
  destruct (created op st) as [s|] eqn:C; [|by apply T].
  destruct (created_address _ _ _ C) as [Hs Hn].
  rewrite fmap_cons. intros [->|Ha]%elem_of_cons; [|by apply T].
  assert (next_address (apply_op op st)
          <= next_address (apply_ops ops (apply_op op st))); [|lia].
  clear. generalize (apply_op op st) as st'. induction ops as [|o ops IH];
    intros st'; simpl; [lia|].
  pose proof (apply_op_monotone o st'). specialize (IH (apply_op o st')). lia.
Qed.

Lemma history_NoDup ops : forall st, NoDup (address <$> history ops st).
Proof.
  induction ops as [|op ops IH]; intros st; simpl; [constructor|].
  destruct (created op st) as [s|] eqn:C; [|apply IH].
  destruct (created_address _ _ _ C) as [Hs Hn].
  rewrite fmap_cons. constructor; [|apply IH].
  intros Ha%history_addresses. lia.
Qed.

Lemma find_ge name ss i p : find name ss i = Some p -> (i <= ref_scope p)%nat.
Proof.
  revert i. induction ss as [|scope ss IH]; intros i; simpl; [done|].
  destruct (scope !! name); [by intros [= <-]|].
  intros H%IH. lia.
Qed.

Lemma deref_bounded p st s : bounded st -> deref p st = Some s ->
  address s < next_address st.
Proof.
  unfold deref. intros B H.
  destruct (scopes st !! ref_scope p) as [scope|] eqn:E; [|done].
  simpl in H. eapply B; [by eapply list_elem_of_lookup_2|done].
Qed.

(** Declaring a name that only outer scopes bind: the declaration
    succeeds, the name now resolves to a new symbol at the next address,
    and the outer symbol is still there, at another address. *)
Lemma addSymbol_shadows name ty st top rest p outer :
  scopes st = top :: rest -> top !! name = None -> bounded st ->
  lookupSymbol name st = Some p -> deref p st = Some outer ->
  exists st' inner,
    addSymbol name ty st = (true, st', []) /\
    resolve name st' = Some inner /\
    inner = mkSymbol name ty (next_address st) /\
    next_address st' = next_address st + 1 /\
    deref p st' = Some outer /\
    address inner <> address outer.
Proof.
  intros E N B L D.
  eexists _, _. split; [by apply addSymbol_succeeds|].
  pose proof (deref_bounded _ _ _ B D) as Hlt.
  unfold resolve, lookupSymbol, deref in *. rewrite E in *. simpl in *.
  rewrite N in L. apply find_ge in L.
  rewrite lookup_insert_eq. simpl. rewrite lookup_insert_eq.
  repeat split; try done.
  - destruct (ref_scope p) as [|i]; [lia|done].
  - simpl. lia.
Qed.
End Symbols.

Lemma bounded_new : bounded SymbolTable.new.
Proof.
  intros scope k s [->|[]%elem_of_nil]%elem_of_cons. by rewrite lookup_empty.
Qed.

Lemma apply_ops_bounded ops : forall st, bounded st -> bounded (apply_ops ops st).
Proof.
  induction ops as [|op ops IH]; intros st B; simpl; [done|].
  apply IH. by apply apply_op_bounded.
Qed.


(** The scope stack of a table built by the constructor is never empty. *)
Lemma apply_op_scopes op st :
  SymbolTable.scopes st <> [] -> SymbolTable.scopes (apply_op op st) <> [].
Proof.
  intros Hne. destruct op as [| |name ty|p ty]; simpl; try done.
  - unfold SymbolTable.exitScope.
    destruct (SymbolTable.scopes st) as [|? [|? ?]] eqn:E; simpl;
      by rewrite ?E.
  - unfold SymbolTable.addSymbol.
    destruct (SymbolTable.scopes st) as [|top rest] eqn:E; [done|].
    destruct (top !! name); simpl; by rewrite ?E.
  - intros E. apply (f_equal length) in E. rewrite length_alter in E.
    by destruct (SymbolTable.scopes st).
Qed.

Lemma apply_ops_scopes ops : forall st,
  SymbolTable.scopes st <> [] -> SymbolTable.scopes (apply_ops ops st) <> [].
Proof.
  induction ops as [|op ops IH]; intros st Hne; simpl; [done|].
  apply IH. by apply apply_op_scopes.
Qed.

(** ** A compilation uses its table through the table operations *)

Section Table.
Import Compiler.

Lemma evolves_refl st : evolves st st.
Proof. by exists []. Qed.

Lemma evolves_trans st1 st2 st3 :
  evolves st1 st2 -> evolves st2 st3 -> evolves st1 st3.
Proof.
  intros [ops1 ->] [ops2 ->]. exists (ops1 ++ ops2).
  unfold apply_ops. by rewrite foldl_app.
Qed.

Lemma evolves_op op st1 st2 : evolves st1 st2 -> evolves st1 (apply_op op st2).
Proof. intros E. eapply evolves_trans; [exact E|by exists [op]]. Qed.

Lemma evolves_exitScope st c :
  evolves st (symbolTable c) -> evolves st (symbolTable (exitScope c)).
Proof.
  intros E. unfold exitScope.
  destruct (SymbolTable.exitScope (symbolTable c)) as [st' ds] eqn:X. simpl.
  replace st' with (apply_op OpExitScope (symbolTable c))
    by (simpl; by rewrite X).
  by apply evolves_op.
Qed.

Lemma push_address_table p c c' :
  push_address p c = Ok c' -> symbolTable c' = symbolTable c.
Proof.
  unfold push_address. destruct (SymbolTable.deref p (symbolTable c)); [|done].
  by intros [= <-].
Qed.

(** As [continue], for the table: the early return is covered by [E]. *)
Ltac or_return E :=
  match goal with
  | H : (if empty (bytecode ?c1) then _ else _) = Ok _ |- _ =>
      destruct (empty (bytecode c1)); [injection H as <-; exact E|]
  end.

Lemma compileExpression_table e :
  forall c c', compileExpression e c = Ok c' ->
               evolves (symbolTable c) (symbolTable c').
Proof.
  induction e as [token|token|identifier|identifier value IH
                 |l IHl op r IHr|op r IH]; intros c c' H; simpl in H.
  - destruct (tok_type token); try (injection H as <-; apply evolves_refl).
    + destruct (stoi _); [|done]. injection H as <-. apply evolves_refl.
    + destruct (stof _); [|done]. injection H as <-. apply evolves_refl.
  - destruct (tok_type token); injection H as <-; apply evolves_refl.
  - destruct (SymbolTable.lookupSymbol _ _) as [p|];
      [|injection H as <-; apply evolves_refl].
    destruct (push_address p c) as [c1|] eqn:Hp; [|done].
    injection H as <-. simpl. rewrite (push_address_table _ _ _ Hp).
    apply evolves_refl.
  - destruct (SymbolTable.lookupSymbol _ _) as [p|];
      [|injection H as <-; apply evolves_refl].
    destruct (compileExpression value c) as [c1|] eqn:Hv; [|done].
    simpl in H. pose proof (IH _ _ Hv) as E. or_return E.
    destruct (resolveExpressionType value (symbolTable c1)) as [ty ws].
    simpl in H.
    destruct (SymbolTable.deref p (symbolTable c1)) as [s|]; [|done].
    destruct (_ && _); [injection H as <-; exact E|].
    destruct (push_address p _) as [c2|] eqn:Hp; [|done].
    injection H as <-. simpl. rewrite (push_address_table _ _ _ Hp).
    destruct (bool_decide _); [|exact E].
    simpl. by apply (evolves_op (OpSetType p ty)).
  - destruct (operandType l (symbolTable c)) as [lt wl].
    destruct (operandType r (symbolTable c)) as [rt wr].
    set (c0 := report (wl ++ wr) c) in *.
    assert (Hoperands : forall i c',
      (c1 ← compileExpression l c0;
       if empty (bytecode c1) then Ok c1 else
       c2 ← compileExpression r c1;
       if empty (bytecode c2) then Ok c2 else
       Ok (emit (Bytecode_op i) c2)) = Ok c' ->
      evolves (symbolTable c) (symbolTable c')).
    { intros i c'' H'.
      destruct (compileExpression l c0) as [c1|] eqn:Hl; [|done].
      simpl in H'. pose proof (IHl _ _ Hl) as E1. or_return E1.
      destruct (compileExpression r c1) as [c2|] eqn:Hr; [|done].
      simpl in H'.
      pose proof (evolves_trans _ _ _ E1 (IHr _ _ Hr)) as E2. or_return E2.
      injection H' as <-. exact E2. }
    assert (Hshort : forall jump pad c',
      (c1 ← compileExpression l c0;
       if empty (bytecode c1) then Ok c1 else
       c2 ← compileExpression r (emit (Bytecode_int jump 0) c1);
       if empty (bytecode c2) then Ok c2 else
       Ok (close_short_circuit (length (bytecode c1)) pad c2)) = Ok c' ->
      evolves (symbolTable c) (symbolTable c')).
    { intros jump pad c'' H'.
      destruct (compileExpression l c0) as [c1|] eqn:Hl; [|done].
      simpl in H'. pose proof (IHl _ _ Hl) as E1. or_return E1.
      destruct (compileExpression r _) as [c2|] eqn:Hr; [|done].
      simpl in H'.
      pose proof (evolves_trans _ _ _ E1 (IHr _ _ Hr)) as E2. or_return E2.
      injection H' as <-. exact E2. }
    destruct (tok_type op);
      repeat match type of H with
             | (if ?b then _ else _) = _ => destruct b
             end;
      first [ by eapply Hoperands
            | by eapply Hshort
            | injection H as <-; apply evolves_refl ].
  - destruct (compileExpression r c) as [c1|] eqn:Hr; [|done].
    simpl in H. pose proof (IH _ _ Hr) as E. or_return E.
    destruct (tok_type op); injection H as <-; exact E.
Qed.

Lemma compileNode_table node :
  forall c c', compileNode node c = Ok c' ->
               evolves (symbolTable c) (symbolTable c').
Proof.
  induction node as [e|identifier initializer
                    |condition thenBranch elseBranch IHthen IHelse
                    |statements IH|e|] using ASTNode_ind;
    intros c c' H.
  - exact (compileExpression_table e c c' H).
  - simpl in H.
    destruct (declaredType initializer (symbolTable c)) as [varType| |];
      [|injection H as <-; apply evolves_refl|done].
    assert (E0 : evolves (symbolTable c)
                   (SymbolTable.addSymbol (tok_value identifier) varType
                      (symbolTable c)).1.2)
      by (apply (evolves_op (OpAddSymbol (tok_value identifier) varType)),
            evolves_refl).
    destruct (SymbolTable.addSymbol _ _ _) as [[added st] ds]. simpl in E0.
    destruct added; simpl in H; [|injection H as <-; exact E0].
    destruct initializer as [init|]; [|injection H as <-; exact E0].
    destruct (compileExpression init _) as [c1|] eqn:Hi; [|done]. simpl in H.
    pose proof (evolves_trans _ _ _ E0 (compileExpression_table _ _ _ Hi)) as E1.
    or_return E1.
    destruct (SymbolTable.lookupSymbol _ _) as [p|];
      [|injection H as <-; exact E1].
    destruct (push_address p c1) as [c2|] eqn:Hp; [|done].
    injection H as <-. simpl. by rewrite (push_address_table _ _ _ Hp).
  - simpl in H.
    destruct (compileExpression condition c) as [c1|] eqn:Hc; [|done].
    simpl in H. pose proof (compileExpression_table _ _ _ Hc) as E1.
    or_return E1.
    destruct (compileNode thenBranch _) as [c3|] eqn:Ht; [|done].
    simpl in H. pose proof (evolves_trans _ _ _ E1 (IHthen _ _ Ht)) as E3.
    or_return E3.
    destruct elseBranch as [elseNode|]; [|injection H as <-; exact E3].
    destruct (compileNode elseNode _) as [c5|] eqn:He; [|done].
    simpl in H. pose proof (evolves_trans _ _ _ E3 (IHelse _ _ He)) as E5.
    or_return E5. injection H as <-. exact E5.
  - rewrite compileNode_block_unfold in H.
    assert (E0 : evolves (symbolTable c) (symbolTable (enterScope c)))
      by (apply (evolves_op OpEnterScope), evolves_refl).
    revert H E0. generalize (enterScope c) as c0.
    induction IH as [|stmt rest Hstmt _ IHrest]; intros c0 H E0.
    + injection H as <-. by apply evolves_exitScope.
    + destruct (compileNode stmt c0) as [c1|] eqn:Hs; [|done].
      simpl in H. pose proof (evolves_trans _ _ _ E0 (Hstmt _ _ Hs)) as E1.
      or_return E1. by eapply IHrest.
  - simpl in H.
    destruct (compileExpression e c) as [c1|] eqn:He; [|done].
    simpl in H. pose proof (compileExpression_table _ _ _ He) as E1.
    or_return E1.
    destruct (resolveExpressionType e (symbolTable c1)) as [ty ws].
    simpl in H. destruct (is_string ty); injection H as <-; exact E1.
  - injection H as <-. apply evolves_refl.
Qed.

Lemma evolves_monotone st st' :
  evolves st st' -> SymbolTable.next_address st <= SymbolTable.next_address st'.
Proof.
  intros [ops ->]. unfold apply_ops. revert st.
  induction ops as [|op ops IH]; intros st; simpl; [lia|].
  pose proof (apply_op_monotone op st). specialize (IH (apply_op op st)). lia.
Qed.

(** Lowering never lowers the address counter, and keeps every address
    in the table below it. *)
Lemma compileNode_counter node c c' :
  compileNode node c = Ok c' ->
  SymbolTable.next_address (symbolTable c)
  <= SymbolTable.next_address (symbolTable c') /\
  (bounded (symbolTable c) -> bounded (symbolTable c')).
Proof.
  intros H. pose proof (compileNode_table _ _ _ H) as E. split.
  - by apply evolves_monotone.
  - destruct E as [ops ->]. apply apply_ops_bounded.
Qed.
End Table.

Lemma compile_table ast c program c' :
  Compiler.compile ast c = Ok (program, c') ->
  evolves (Compiler.symbolTable c) (Compiler.symbolTable c').
Proof.
  unfold Compiler.compile. intros H.
  set (c0 := Compiler.enterScope (Compiler.with_bytecode [] c)) in *.
  assert (E0 : evolves (Compiler.symbolTable c) (Compiler.symbolTable c0))
    by (apply (evolves_op OpEnterScope), evolves_refl).
  assert (exists c1,
            evolves (Compiler.symbolTable c) (Compiler.symbolTable c1) /\
            (c' = Compiler.exitScope c1
             \/ c' = Compiler.emit (Bytecode_op Instruction.HALT)
                       (Compiler.exitScope c1))) as (c1 & E1 & Hc').
  { destruct ast as [node|]; simpl in H.
    - destruct (Compiler.compileNode node c0) as [c1|] eqn:Hn; [|done].
      exists c1. split; [eapply evolves_trans; [exact E0|by eapply compileNode_table]|].
      simpl in H. destruct (empty _); injection H as <- <-; auto.
    - exists c0. split; [done|]. injection H as <- <-. auto. }
  apply evolves_exitScope in E1. by destruct Hc' as [-> | ->].
Qed.

(** C5.  [addSymbol] fails exactly when the innermost scope already binds
    the name; shadowing an outer binding succeeds and creates a distinct
    inner binding; a successful [addSymbol] hands out the current counter
    value and increments the counter, no operation ever lowers it, and so
    the symbols created along any sequence of table operations have
    pairwise different addresses.  A compilation changes its table only
    through such a sequence, and such a sequence never leaves the table
    of a new compiler without a scope. *)
Theorem addSymbol_innermost_scope_and_fresh_address :
  (forall name ty st top rest,
      SymbolTable.scopes st = top :: rest ->
      (SymbolTable.addSymbol name ty st).1.1 = false <-> is_Some (top !! name)) /\
  (forall name ty st top rest p outer,
      SymbolTable.scopes st = top :: rest -> top !! name = None ->
      bounded st ->
      SymbolTable.lookupSymbol name st = Some p ->
      SymbolTable.deref p st = Some outer ->
      exists st' inner,
        SymbolTable.addSymbol name ty st = (true, st', []) /\
        resolve name st' = Some inner /\
        SymbolTable.deref p st' = Some outer /\
        address inner <> address outer) /\
  (forall op st s,
      created op st = Some s ->
      address s = SymbolTable.next_address st /\
      SymbolTable.next_address (apply_op op st)
      = SymbolTable.next_address st + 1) /\
  (forall op st,
      SymbolTable.next_address st <= SymbolTable.next_address (apply_op op st)) /\
  (forall ops st, NoDup (address <$> history ops st)) /\
  (forall ast c program c',
      Compiler.compile ast c = Ok (program, c') ->
      evolves (Compiler.symbolTable c) (Compiler.symbolTable c')) /\
  (forall ops, SymbolTable.scopes (apply_ops ops SymbolTable.new) <> []).
Proof.
  split; [|split; [|split; [|split; [|split; [|split]]]]].
  - apply addSymbol_fails.
  - intros name ty st top rest p outer E N B L D.
    destruct (addSymbol_shadows name ty st top rest p outer E N B L D)
      as (st' & inner & ? & ? & ? & ? & ? & ?).
    by exists st', inner.
  - apply created_address.
  - apply apply_op_monotone.
  - apply history_NoDup.
  - apply compile_table.
  - intros ops. by apply apply_ops_scopes.
Qed.

Lemma shadowing_witness :
  SymbolTable.scopes outer_x
  = [∅; {["x" := mkSymbol "x" NodeType.INTEGER 0]}] /\
  (∅ : gmap string Symbol) !! "x" = None /\
  bounded outer_x /\
  SymbolTable.lookupSymbol "x" outer_x = Some (mkRef 1 "x") /\
  SymbolTable.deref (mkRef 1 "x") outer_x = Some (mkSymbol "x" NodeType.INTEGER 0) /\
  exists st' inner,
    SymbolTable.addSymbol "x" NodeType.FLOAT outer_x = (true, st', []) /\
    resolve "x" st' = Some inner /\
    SymbolTable.deref (mkRef 1 "x") st' = Some (mkSymbol "x" NodeType.INTEGER 0) /\
    address inner <> 0.
Proof.
  assert (H1 : SymbolTable.scopes outer_x
               = [∅; {["x" := mkSymbol "x" NodeType.INTEGER 0]}])
    by (vm_compute; reflexivity).
  assert (H2 : (∅ : gmap string Symbol) !! "x" = None) by reflexivity.
  assert (H3 : bounded outer_x) by (apply apply_ops_bounded, bounded_new).
  assert (H4 : SymbolTable.lookupSymbol "x" outer_x = Some (mkRef 1 "x"))
    by (vm_compute; reflexivity).
  assert (H5 : SymbolTable.deref (mkRef 1 "x") outer_x
               = Some (mkSymbol "x" NodeType.INTEGER 0))
    by (vm_compute; reflexivity).
  repeat (split; [assumption|]).
  exact (proj1 (proj2 addSymbol_innermost_scope_and_fresh_address)
           "x" NodeType.FLOAT outer_x _ _ _ _ H1 H2 H3 H4 H5).
Defined.

(** ** The VM loop *)

Section Loop.
Import VM.

Lemma loop_steps n : forall vm vm' k,
  steps n vm = Some vm' -> loop (n + k) vm = loop k vm'.
Proof.
  induction n as [|n IH]; intros vm vm' k; simpl.
  - by intros [= ->].
  - destruct (step vm) as [vm1|f]; [|done]. apply IH.
Qed.

Lemma loop_inv fuel : forall vm f,
  loop fuel vm = Some f ->
  exists n vm', (n < fuel)%nat /\ steps n vm = Some vm' /\ step vm' = Done f.
Proof.
  induction fuel as [|fuel IH]; intros vm f; simpl; [done|].
  destruct (step vm) as [vm1|f1] eqn:E.
  - intros (n & vm' & Hn & Hs & Hd)%IH.
    exists (S n), vm'. simpl. rewrite E. split; [lia|done].
  - intros [= ->]. exists 0%nat, vm. split; [lia|done].
Qed.

Lemma loop_done n vm vm' f fuel :
  steps n vm = Some vm' -> step vm' = Done f -> (n < fuel)%nat ->
  loop fuel vm = Some f.
Proof.
  intros Hs Hd Hn. replace fuel with (n + S (fuel - S n))%nat by lia.
  rewrite (loop_steps _ _ _ _ Hs). simpl. by rewrite Hd.
Qed.

(** The only [return] without an error line is the one of [HALT]. *)
Lemma step_returns vm vmf v :
  step vm = Done (Returns vmf v None) ->
  exists b, fetch vm = Some b /\ instruction b = Instruction.HALT /\
            vmf = with_pc (pc vm + 1) vm /\ v = top_or_zero (stack vm).
Proof.
  unfold step. destruct (fetch vm) as [b|] eqn:F; [|done].
  unfold execute, compare, binary, jump, error.
  destruct (instruction b) eqn:I;
    repeat case_match; try done.
  all: intros Hret; inversion Hret; subst; exists b; simpl in *.
  all: match goal with H : stack _ = _ |- _ => by rewrite H end.
Qed.

(** Every error return carries the value -1. *)
Lemma step_error vm vmf v e :
  step vm = Done (Returns vmf v (Some e)) -> v = Double.minus_one.
Proof.
  unfold step. destruct (fetch vm) as [b|]; [|by intros Hret; inversion Hret].
  unfold execute, compare, binary, jump, error.
  destruct (instruction b) eqn:I;
    repeat case_match; try done.
  all: by intros Hret; inversion Hret.
Qed.

Lemma step_halt vm b :
  fetch vm = Some b -> instruction b = Instruction.HALT ->
  step vm = Done (Returns (with_pc (pc vm + 1) vm) (top_or_zero (stack vm)) None).
Proof.
  intros F I. unfold step, execute. rewrite F, I. simpl.
  by destruct (stack vm).
Qed.

Lemma step_past_end vm :
  fetch vm = None ->
  step vm = Done (Returns vm Double.minus_one (Some DidNotHalt)).
Proof. intros F. unfold step. by rewrite F. Qed.
End Loop.

(** C4.  [run] returns without an error only from a [HALT], with the top
    of the stack or 0 when the stack is empty; once execution reaches a
    [HALT] the run returns that value; once the program counter is outside
    the program the run reports "did not halt" and returns -1; and every
    error return is -1. *)
Theorem run_returns_only_through_halt (code : list Bytecode) (pool : list string) :
  (forall fuel vm v,
      VM.run fuel code pool = Some (VM.Returns vm v None) ->
      exists n vm0 b,
        (n < fuel)%nat /\ steps n (VM.init code pool) = Some vm0 /\
        VM.fetch vm0 = Some b /\ instruction b = Instruction.HALT /\
        v = top_or_zero (VM.stack vm0)) /\
  (forall n vm0 b fuel,
      steps n (VM.init code pool) = Some vm0 ->
      VM.fetch vm0 = Some b -> instruction b = Instruction.HALT ->
      (n < fuel)%nat ->
      VM.run fuel code pool
      = Some (VM.Returns (VM.with_pc (VM.pc vm0 + 1) vm0)
                (top_or_zero (VM.stack vm0)) None)) /\
  (forall n vm0 fuel,
      steps n (VM.init code pool) = Some vm0 ->
      VM.fetch vm0 = None ->
      (n < fuel)%nat ->
      VM.run fuel code pool
      = Some (VM.Returns vm0 Double.minus_one (Some DidNotHalt))) /\
  (forall fuel vm v e,
      VM.run fuel code pool = Some (VM.Returns vm v (Some e)) ->
      v = Double.minus_one).
Proof.
  unfold VM.run. split; [|split; [|split]].
  - intros fuel vm v (n & vm0 & Hn & Hs & Hd)%loop_inv.
    apply step_returns in Hd as (b & F & I & _ & ->).
    by exists n, vm0, b.
  - intros n vm0 b fuel Hs F I Hn.
    eapply loop_done; [exact Hs| |exact Hn]. by eapply step_halt.
  - intros n vm0 fuel Hs F Hn.
    eapply loop_done; [exact Hs| |exact Hn]. by apply step_past_end.
  - intros fuel vm v e (n & vm0 & _ & _ & Hd)%loop_inv.
    by eapply step_error.
Qed.

Lemma run_halt_witness :
  let code := [Bytecode_int Instruction.PUSH_INT 7; Bytecode_op Instruction.HALT] in
  let vm0 := VM.mk code [Double.of_int 7] [] [] 1 [] in
  steps 1 (VM.init code []) = Some vm0 /\
  VM.fetch vm0 = Some (Bytecode_op Instruction.HALT) /\
  instruction (Bytecode_op Instruction.HALT) = Instruction.HALT /\
  (1 < 5)%nat /\
  VM.run 5 code []
  = Some (VM.Returns (VM.with_pc 2 vm0) (Double.of_int 7) None).
Proof.
  intros code vm0.
  assert (H1 : steps 1 (VM.init code []) = Some vm0) by reflexivity.
  assert (H2 : VM.fetch vm0 = Some (Bytecode_op Instruction.HALT)) by reflexivity.
  assert (H3 : instruction (Bytecode_op Instruction.HALT) = Instruction.HALT)
    by reflexivity.
  assert (H4 : (1 < 5)%nat) by lia.
  repeat (split; [assumption|]).
  exact (proj1 (proj2 (run_returns_only_through_halt code []))
           1%nat vm0 _ 5%nat H1 H2 H3 H4).
Defined.

(** ** Short-circuit lowering *)

Section ShortCircuit.
Import Compiler.

Lemma size_app {A} (l1 l2 : list A) : size (l1 ++ l2) = size l1 + size l2.
Proof. unfold size. rewrite length_app. lia. Qed.

Lemma size_cons {A} (x : A) (l : list A) : size (x :: l) = 1 + size l.
Proof. unfold size. simpl length. lia. Qed.

Lemma size_nonneg {A} (l : list A) : 0 <= size l.
Proof. unfold size. lia. Qed.

Lemma patch_middle pre b post target :
  patch (length pre) target (pre ++ b :: post)
  = pre ++ set_operand target b :: post.
Proof.
  unfold patch. rewrite alter_app_r_alt by lia.
  by rewrite Nat.sub_diag.
Qed.

Lemma close_short_circuit_bytecode pre code_r jump pad c2 :
  bytecode c2 = pre ++ Bytecode_int jump 0 :: code_r ->
  let target := size pre + 1 + size code_r + 1 in
  bytecode (close_short_circuit (length pre) pad c2)
  = pre ++ Bytecode_int jump target :: code_r
        ++ [Bytecode_int Instruction.JUMP (target + 1);
            Bytecode_int Instruction.PUSH_INT pad].
Proof.
  intros B target. unfold close_short_circuit, emit, with_bytecode. simpl.
  rewrite B.
  replace ((pre ++ Bytecode_int jump 0 :: code_r)
           ++ [Bytecode_int Instruction.JUMP 0])
    with (pre ++ Bytecode_int jump 0
              :: code_r ++ [Bytecode_int Instruction.JUMP 0])
    by (by rewrite <- app_assoc).
  rewrite patch_middle.
  replace (length (pre ++ Bytecode_int jump 0 :: code_r))
    with (length (pre ++ Bytecode_int jump 0 :: code_r) + 0)%nat by lia.
  replace ((pre ++ set_operand _ (Bytecode_int jump 0)
                :: code_r ++ [Bytecode_int Instruction.JUMP 0])
           ++ [Bytecode_int Instruction.PUSH_INT pad])
    with ((pre ++ set_operand
                    (size (pre ++ Bytecode_int jump 0
                               :: code_r ++ [Bytecode_int Instruction.JUMP 0]))
                    (Bytecode_int jump 0) :: code_r)
          ++ Bytecode_int Instruction.JUMP 0
             :: [Bytecode_int Instruction.PUSH_INT pad])
    by (rewrite <- !app_assoc; simpl; by rewrite <- app_assoc).
  rewrite Nat.add_0_r.
  replace (length (pre ++ Bytecode_int jump 0 :: code_r))
    with (length (pre ++ set_operand
                    (size (pre ++ Bytecode_int jump 0
                               :: code_r ++ [Bytecode_int Instruction.JUMP 0]))
                    (Bytecode_int jump 0) :: code_r))
    by (rewrite !length_app; done).
  rewrite patch_middle. rewrite <- app_assoc. simpl.
  unfold set_operand, Bytecode_int. simpl.
  rewrite !size_app, !size_cons, !size_app, !size_cons.
  change (size (@nil Bytecode)) with 0.
  replace (size pre + (1 + (size code_r + (1 + 0)))) with target
    by (unfold target; lia).
  replace (size pre + (1 + size code_r) + (1 + (1 + 0))) with (target + 1)
    by (unfold target; lia).
  reflexivity.
Qed.

(** What [&&] and [||] lower to, when lowering succeeds. *)
Lemma short_circuit_layout l op r c c' jump pad :
  (tok_type op = TokenType.AND /\ jump = Instruction.JUMP_IF_FALSE /\ pad = 0)
  \/ (tok_type op = TokenType.OR /\ jump = Instruction.JUMP_IF_TRUE /\ pad = 1) ->
  compileExpression (BinaryExpression l op r) c = Ok c' ->
  empty (bytecode c') = false ->
  exists c0 c1 c2 code_r,
    bytecode c0 = bytecode c /\
    compileExpression l c0 = Ok c1 /\
    compileExpression r (emit (Bytecode_int jump 0) c1) = Ok c2 /\
    bytecode c2 = bytecode c1 ++ Bytecode_int jump 0 :: code_r /\
    let target := size (bytecode c1) + 1 + size code_r + 1 in
    bytecode c'
    = bytecode c1 ++ Bytecode_int jump target :: code_r
        ++ [Bytecode_int Instruction.JUMP (target + 1);
            Bytecode_int Instruction.PUSH_INT pad].
Proof.
  intros Hop H Hne. simpl in H.
  destruct (operandType l (symbolTable c)) as [lt wl].
  destruct (operandType r (symbolTable c)) as [rt wr].
  set (c0 := report (wl ++ wr) c) in *.
  assert (H' :
    (if negb (bool_or_int lt && bool_or_int rt)
     then Ok (fail (ErrLogicalOperands (tok_type op)) c0) else
     c1 ← compileExpression l c0;
     if empty (bytecode c1) then Ok c1 else
     c2 ← compileExpression r (emit (Bytecode_int jump 0) c1);
     if empty (bytecode c2) then Ok c2 else
     Ok (close_short_circuit (length (bytecode c1)) pad c2)) = Ok c').
  { destruct Hop as [(E & -> & ->)|(E & -> & ->)]; by rewrite E in H |- *. }
  clear H. destruct (negb _).
  { injection H' as <-. done. }
  destruct (compileExpression l c0) as [c1|] eqn:Hl; [|done]. simpl in H'.
  destruct (empty (bytecode c1)) eqn:Hne1.
  { injection H' as <-. congruence. }
  destruct (compileExpression r _) as [c2|] eqn:Hr; [|done]. simpl in H'.
  destruct (empty (bytecode c2)) eqn:Hne2.
  { injection H' as <-. congruence. }
  injection H' as <-.
  destruct (extends_nonempty _ _ (compileExpression_extends _ _ _ Hr) Hne2)
    as (_ & code_r & _ & _ & B2).
  simpl in B2. rewrite <- app_assoc in B2. simpl in B2.
  exists c0, c1, c2, code_r. repeat split; try done.
  by apply close_short_circuit_bytecode.
Qed.
End ShortCircuit.

Section ShortCircuitRun.
Import VM.

Lemma fetch_at vm pre b post :
  bytecode vm = pre ++ b :: post -> pc vm = size pre -> fetch vm = Some b.
Proof.
  intros B P. unfold fetch, valid_index. rewrite P, B.
  rewrite size_app, size_cons.
  pose proof (size_nonneg pre). pose proof (size_nonneg post).
  rewrite (proj2 (Z.leb_le _ _)), (proj2 (Z.ltb_lt _ _)) by lia. simpl.
  unfold size. rewrite Nat2Z.id. by rewrite list_lookup_middle.
Qed.

(** From the conditional jump, with a deciding left value on the stack,
    the VM takes the jump to the landing pad and pushes the result. *)
Lemma short_circuit_run vm pre jump code_r pad result rest v st :
  let target := size pre + 1 + size code_r + 1 in
  bytecode vm
  = (pre ++ Bytecode_int jump target :: code_r
       ++ [Bytecode_int Instruction.JUMP (target + 1);
           Bytecode_int Instruction.PUSH_INT result]) ++ rest ->
  size (bytecode vm) <= Double.INT_MAX ->
  pc vm = size pre -> stack vm = v :: st ->
  (jump = Instruction.JUMP_IF_FALSE /\ Double.eqb v Double.zero = true)
  \/ (jump = Instruction.JUMP_IF_TRUE /\ Double.neqb v Double.zero = true) ->
  pad = target ->
  steps 2 vm
  = Some (mk (bytecode vm) (Double.of_int result :: st) (memory vm)
             (string_literals vm) (pad + 1) (cout vm))
  /\ executed 2 vm = [size pre; pad].
Proof.
  intros target B Hmax P S Hv ->.
  assert (Hsize : size (bytecode vm) = target + 1 + size rest).
  { rewrite B, !size_app, size_cons, size_app, !size_cons.
    change (size (@nil Bytecode)) with 0. unfold target. lia. }
  pose proof (size_nonneg pre). pose proof (size_nonneg code_r).
  pose proof (size_nonneg rest).
  assert (F1 : fetch vm = Some (Bytecode_int jump target)).
  { eapply fetch_at; [|exact P]. rewrite B, <- app_assoc. done. }
  assert (T : Double.to_int (Double.of_int target) = Some target).
  { apply to_int_of_int. unfold Double.INT_MIN, Double.INT_MAX in *.
    unfold target in *. lia. }
  assert (S1 : step vm = Next (mk (bytecode vm) st (memory vm)
                                  (string_literals vm) target (cout vm))).
  { unfold step. rewrite F1. unfold execute, VM.jump. simpl. rewrite S.
    destruct Hv as [[-> Hv]|[-> Hv]]; simpl; rewrite Hv, T; done. }
  assert (F2 : fetch (mk (bytecode vm) st (memory vm) (string_literals vm)
                         target (cout vm))
               = Some (Bytecode_int Instruction.PUSH_INT result)).
  { apply fetch_at with
      (pre := pre ++ Bytecode_int jump target :: code_r
                ++ [Bytecode_int Instruction.JUMP (target + 1)])
      (post := rest).
    - simpl. rewrite B. rewrite <- !app_assoc. simpl.
      by rewrite <- !app_assoc.
    - simpl. rewrite size_app, size_cons, size_app, size_cons.
      change (size (@nil Bytecode)) with 0. unfold target. lia. }
  simpl. rewrite S1. unfold step at 1 2. rewrite F2. simpl.
  rewrite P. done.
Qed.
End ShortCircuitRun.

(** C1.  In the code of [l && r] (of [l || r]) the instructions of [r] lie
    between the conditional jump and the landing pad.  When the VM is at
    that jump and the value of [l] on the stack is 0 (is not 0), its next
    two turns fetch the jump and the landing pad, none of the instructions
    of [r]; they leave 0 (1) on the stack in place of the left value, the
    program counter just past the expression, and memory, string pool and
    output as they were. *)
Theorem short_circuit_skips_right_operand l op r c c' result v st rest vm :
  Compiler.compileExpression (BinaryExpression l op r) c = Ok c' ->
  empty (Compiler.bytecode c') = false ->
  short_circuits (tok_type op) v = Some result ->
  VM.bytecode vm = Compiler.bytecode c' ++ rest ->
  size (VM.bytecode vm) <= Double.INT_MAX ->
  VM.stack vm = v :: st ->
  exists c1 code_r,
    (exists c0, Compiler.bytecode c0 = Compiler.bytecode c /\
                Compiler.compileExpression l c0 = Ok c1) /\
    (exists jump c2,
        Compiler.compileExpression r
          (Compiler.emit (Bytecode_int jump 0) c1) = Ok c2 /\
        Compiler.bytecode c2
        = Compiler.bytecode c1 ++ Bytecode_int jump 0 :: code_r) /\
    let first := size (Compiler.bytecode c1) + 1 in
    let pad := first + size code_r + 1 in
    size (Compiler.bytecode c') = pad + 1 /\
    (VM.pc vm = size (Compiler.bytecode c1) ->
     steps 2 vm
     = Some (VM.mk (VM.bytecode vm) (Double.of_int result :: st) (VM.memory vm)
               (VM.string_literals vm) (pad + 1) (VM.cout vm)) /\
     executed 2 vm = [size (Compiler.bytecode c1); pad] /\
     Forall (fun i => ~ (first <= i < first + size code_r)) (executed 2 vm)).
Proof.
  intros H Hne Hv B Hmax S.
  assert (exists jump,
    ((tok_type op = TokenType.AND /\ jump = Instruction.JUMP_IF_FALSE /\ result = 0)
     \/ (tok_type op = TokenType.OR /\ jump = Instruction.JUMP_IF_TRUE /\ result = 1))
    /\ ((jump = Instruction.JUMP_IF_FALSE /\ Double.eqb v Double.zero = true)
        \/ (jump = Instruction.JUMP_IF_TRUE /\ Double.neqb v Double.zero = true)))
    as (jump & Hop & Hjump).
  { unfold short_circuits in Hv. destruct (tok_type op); try done.
    - destruct (Double.eqb v Double.zero) eqn:E; [|done]. injection Hv as <-.
      exists Instruction.JUMP_IF_FALSE. split; [by left|by left].
    - destruct (Double.neqb v Double.zero) eqn:E; [|done]. injection Hv as <-.
      exists Instruction.JUMP_IF_TRUE. split; [by right|by right]. }
  destruct (short_circuit_layout l op r c c' jump result Hop H Hne)
    as (c0 & c1 & c2 & code_r & B0 & Hl & Hr & B2 & B').
  exists c1, code_r. split; [by exists c0|]. split; [by exists jump, c2|].
  simpl in B'. pose proof (size_nonneg code_r).
  split.
  { rewrite B', size_app, size_cons, size_app, !size_cons.
    change (size (@nil Bytecode)) with 0. lia. }
  intros P.
  destruct (short_circuit_run vm (Compiler.bytecode c1) jump code_r
              (size (Compiler.bytecode c1) + 1 + size code_r + 1) result rest v st)
    as [Hsteps Hexec]; try done.
  { by rewrite B, B'. }
  split; [done|]. split; [done|]. rewrite Hexec.
  repeat constructor; lia.
Qed.

Lemma short_circuit_witness :
  let c' := after (ExpressionNode guarded_assignment) declared_x in
  Compiler.compileExpression guarded_assignment declared_x = Ok c' /\
  empty (Compiler.bytecode c') = false /\
  short_circuits TokenType.AND Double.zero = Some 0 /\
  VM.bytecode at_guard = Compiler.bytecode c' ++ [Bytecode_op Instruction.HALT] /\
  size (VM.bytecode at_guard) <= Double.INT_MAX /\
  VM.stack at_guard = [Double.zero; Double.of_int 3] /\
  exists (c1 : Compiler.t) (code_r : list Bytecode),
    size (Compiler.bytecode c1) = 4 /\ size code_r = 3 /\
    steps 2 at_guard
    = Some (VM.mk (VM.bytecode at_guard) [Double.of_int 0; Double.of_int 3]
              [Double.of_int 3] [] 10 []) /\
    Forall (fun i => ~ (5 <= i < 5 + size code_r)) (executed 2 at_guard).
Proof.
  intros c'.
  assert (H1 : Compiler.compileExpression guarded_assignment declared_x = Ok c')
    by (vm_compute; reflexivity).
  assert (H2 : empty (Compiler.bytecode c') = false) by (vm_compute; reflexivity).
  assert (H3 : short_circuits TokenType.AND Double.zero = Some 0) by reflexivity.
  assert (H4 : VM.bytecode at_guard
               = Compiler.bytecode c' ++ [Bytecode_op Instruction.HALT])
    by reflexivity.
  assert (H5 : size (VM.bytecode at_guard) <= Double.INT_MAX)
    by (vm_compute; discriminate).
  assert (H6 : VM.stack at_guard = [Double.zero; Double.of_int 3]) by reflexivity.
  repeat (split; [assumption|]).
  destruct (short_circuit_skips_right_operand _ _ _ _ _ _ _ _ _ _ H1 H2 H3 H4 H5 H6)
    as (c1 & code_r & (c0 & B0 & Hl) & (jump & c2 & Hr & B2) & Hsize & Hrun).
  assert (S1 : size (Compiler.bytecode c1) = 4).
  { simpl in Hl. injection Hl as <-. unfold size. simpl. rewrite B0.
    vm_compute. reflexivity. }
  assert (S2 : size code_r = 3).
  { replace (size (Compiler.bytecode c')) with 10 in Hsize
      by (vm_compute; reflexivity). lia. }
  exists c1, code_r. rewrite S1, S2 in Hrun.
  destruct (Hrun eq_refl) as (Hsteps & _ & Hall).
  split; [exact S1|]. split; [exact S2|]. split; [exact Hsteps|].
  rewrite S2. exact Hall.
Defined.

(** ** Stores leave their value on the stack *)

Section Store.
Import VM.

Lemma store_lookup address value mem :
  0 <= address -> store address value mem !! Z.to_nat address = Some value.
Proof.
  intros Ha. unfold store. apply list_lookup_insert_eq.
  destruct (size mem <=? address) eqn:E.
  - rewrite length_app, length_replicate. lia.
  - apply Z.leb_gt in E. unfold size in E. lia.
Qed.

(** [PUSH_INT address; STORE] with a value on the stack. *)
Lemma store_run vm pre address rest v st :
  bytecode vm
  = (pre ++ [Bytecode_int Instruction.PUSH_INT address;
             Bytecode_op Instruction.STORE]) ++ rest ->
  0 <= address <= Double.INT_MAX ->
  pc vm = size pre -> stack vm = v :: st ->
  steps 2 vm
  = Some (mk (bytecode vm) (v :: st) (store address v (memory vm))
             (string_literals vm) (size pre + 2) (cout vm)).
Proof.
  intros B Ha P S.
  assert (F1 : fetch vm = Some (Bytecode_int Instruction.PUSH_INT address)).
  { eapply fetch_at; [|exact P]. rewrite B, <- app_assoc. done. }
  assert (F2 : fetch (mk (bytecode vm) (Double.of_int address :: v :: st)
                         (memory vm) (string_literals vm) (size pre + 1)
                         (cout vm))
               = Some (Bytecode_op Instruction.STORE)).
  { apply fetch_at with
      (pre := pre ++ [Bytecode_int Instruction.PUSH_INT address]) (post := rest).
    - simpl. rewrite B, <- !app_assoc. done.
    - simpl. rewrite size_app, size_cons. done. }
  assert (T : Double.to_int (Double.of_int address) = Some address).
  { apply to_int_of_int. unfold Double.INT_MIN, Double.INT_MAX in *. lia. }
  assert (S1 : step vm
               = Next (mk (bytecode vm) (Double.of_int address :: v :: st)
                          (memory vm) (string_literals vm) (size pre + 1)
                          (cout vm))).
  { unfold step. rewrite F1. unfold execute. simpl. by rewrite S, P. }
  simpl. rewrite S1. unfold step. rewrite F2. unfold execute. simpl.
  rewrite T, (proj2 (Z.ltb_ge _ _)) by lia.
  by replace (size pre + 1 + 1) with (size pre + 2) by lia.
Qed.
End Store.

Section StoreLayout.
Import Compiler.

#[local] Arguments declaredType : simpl never.

Lemma deref_set_type p ty st s :
  SymbolTable.deref p st = Some s ->
  SymbolTable.deref p (SymbolTable.set_type p ty st)
  = Some (mkSymbol (name s) ty (address s)).
Proof.
  unfold SymbolTable.deref, SymbolTable.set_type. simpl.
  rewrite list_lookup_alter_eq.
  destruct (SymbolTable.scopes st !! ref_scope p) as [scope|]; [|done]. simpl.
  rewrite lookup_alter_eq. by intros ->.
Qed.

(** What an assignment lowers to, when lowering succeeds. *)
Lemma assignment_layout identifier value c c' :
  compileExpression (AssignmentExpression identifier value) c = Ok c' ->
  empty (bytecode c') = false ->
  exists p c1 s,
    SymbolTable.lookupSymbol (tok_value identifier) (symbolTable c) = Some p /\
    compileExpression value c = Ok c1 /\
    SymbolTable.deref p (symbolTable c1) = Some s /\
    bytecode c'
    = bytecode c1 ++ [Bytecode_int Instruction.PUSH_INT (address s);
                      Bytecode_op Instruction.STORE].
Proof.
  intros H Hne. simpl in H.
  destruct (SymbolTable.lookupSymbol _ _) as [p|];
    [|injection H as <-; done].
  destruct (compileExpression value c) as [c1|] eqn:Hv; [|done]. simpl in H.
  destruct (empty (bytecode c1)) eqn:Hne1; [injection H as <-; congruence|].
  destruct (resolveExpressionType value (symbolTable c1)) as [ty ws].
  simpl in H.
  destruct (SymbolTable.deref p (symbolTable c1)) as [s|] eqn:D; [|done].
  destruct (_ && _); [injection H as <-; done|].
  exists p, c1, s. repeat split; try done.
  unfold push_address in H.
  destruct (bool_decide (type s = NodeType.UNKNOWN)); simpl in H.
  - rewrite (deref_set_type _ _ _ _ D) in H. simpl in H.
    injection H as <-. simpl. by rewrite <- app_assoc.
  - rewrite D in H. simpl in H. injection H as <-. simpl.
    by rewrite <- app_assoc.
Qed.


(** What a print statement lowers to, when lowering succeeds. *)
Lemma print_layout e c c' :
  compileNode (PrintStatement e) c = Ok c' ->
  empty (bytecode c') = false ->
  exists c1,
    compileExpression e c = Ok c1 /\
    bytecode c'
    = bytecode c1
        ++ [Bytecode_op
              (if is_string (resolveExpressionType e (symbolTable c1)).1
               then Instruction.PRINT_STRING else Instruction.PRINT_VALUE)].
Proof.
  intros H Hne. simpl in H.
  destruct (compileExpression e c) as [c1|] eqn:He; [|done]. simpl in H.
  destruct (empty (bytecode c1)) eqn:Hne1; [injection H as <-; congruence|].
  exists c1. split; [done|].
  destruct (resolveExpressionType e (symbolTable c1)) as [ty ws]. simpl in *.
  by destruct (is_string ty); injection H as <-.
Qed.
End StoreLayout.

(** C3.  An assignment lowers to the code of its right-hand side followed
    by [PUSH_INT address; STORE], where [address] is that of the symbol
    the target resolves to.  With the right-hand value [v] on the stack,
    these two instructions write [v] to memory at [address] and leave [v]
    on the stack. *)
Theorem assignment_leaves_value_on_stack identifier value c c' vm v st rest :
  Compiler.compileExpression (AssignmentExpression identifier value) c = Ok c' ->
  empty (Compiler.bytecode c') = false ->
  VM.bytecode vm = Compiler.bytecode c' ++ rest ->
  VM.stack vm = v :: st ->
  exists p c1 s,
    SymbolTable.lookupSymbol (tok_value identifier) (Compiler.symbolTable c)
    = Some p /\
    Compiler.compileExpression value c = Ok c1 /\
    SymbolTable.deref p (Compiler.symbolTable c1) = Some s /\
    Compiler.bytecode c'
    = Compiler.bytecode c1
        ++ [Bytecode_int Instruction.PUSH_INT (address s);
            Bytecode_op Instruction.STORE] /\
    (0 <= address s <= Double.INT_MAX ->
     VM.pc vm = size (Compiler.bytecode c1) ->
     steps 2 vm
     = Some (VM.mk (VM.bytecode vm) (v :: st)
               (VM.store (address s) v (VM.memory vm))
               (VM.string_literals vm) (size (Compiler.bytecode c')) (VM.cout vm))
     /\ VM.store (address s) v (VM.memory vm) !! Z.to_nat (address s) = Some v).
Proof.
  intros H Hne B S.
  destruct (assignment_layout _ _ _ _ H Hne) as (p & c1 & s & L & Hv & D & B').
  exists p, c1, s. repeat split; try done.
  - rewrite (store_run vm (Compiler.bytecode c1) (address s) rest v st);
      try done; [|by rewrite B, B'].
    rewrite B', size_app, !size_cons. change (size (@nil Bytecode)) with 0.
    by replace (size (Compiler.bytecode c1) + (1 + (1 + 0)))
         with (size (Compiler.bytecode c1) + 2) by lia.
  - apply store_lookup. lia.
Qed.

Lemma assignment_witness :
  let e := assign "x" (int_literal "7") in
  let c' := after (ExpressionNode e) declared_x0 in
  let vm := running 4 print_assignment in
  Compiler.compileExpression e declared_x0 = Ok c' /\
  empty (Compiler.bytecode c') = false /\
  VM.bytecode vm
  = Compiler.bytecode c'
      ++ [Bytecode_op Instruction.PRINT_VALUE; Bytecode_op Instruction.HALT] /\
  VM.stack vm = [Double.of_int 7; Double.of_int 0] /\
  steps 2 vm
  = Some (VM.mk (VM.bytecode vm) [Double.of_int 7; Double.of_int 0]
            [Double.of_int 7] [] 6 []).
Proof.
  intros e c' vm.
  assert (H1 : Compiler.compileExpression e declared_x0 = Ok c')
    by (vm_compute; reflexivity).
  assert (H2 : empty (Compiler.bytecode c') = false) by (vm_compute; reflexivity).
  assert (H3 : VM.bytecode vm
               = Compiler.bytecode c'
                   ++ [Bytecode_op Instruction.PRINT_VALUE;
                       Bytecode_op Instruction.HALT])
    by (vm_compute; reflexivity).
  assert (H4 : VM.stack vm = [Double.of_int 7; Double.of_int 0])
    by (vm_compute; reflexivity).
  repeat (split; [assumption|]).
  destruct (assignment_leaves_value_on_stack _ _ _ _ _ _ _ _ H1 H2 H3 H4)
    as (p & c1 & s & L & Hv & D & B' & Hrun).
  assert (Hc1 : c1 = after (ExpressionNode (int_literal "7")) declared_x0).
  { assert (E : Compiler.compileExpression (int_literal "7") declared_x0
                = Ok (after (ExpressionNode (int_literal "7")) declared_x0))
      by (vm_compute; reflexivity).
    rewrite E in Hv. by injection Hv as <-. }
  assert (Hp : p = mkRef 0 "x").
  { assert (E : SymbolTable.lookupSymbol "x"
                  (Compiler.symbolTable declared_x0) = Some (mkRef 0 "x"))
      by (vm_compute; reflexivity).
    change (tok_value (tok TokenType.IDENTIFIER "x")) with "x" in L.
    rewrite E in L. by injection L as <-. }
  assert (Hs : address s = 0).
  { subst c1 p.
    assert (E : SymbolTable.deref (mkRef 0 "x")
                  (Compiler.symbolTable
                     (after (ExpressionNode (int_literal "7")) declared_x0))
                = Some (mkSymbol "x" NodeType.INTEGER 0))
      by (vm_compute; reflexivity).
    rewrite E in D. by injection D as <-. }
  rewrite Hs in Hrun. subst c1.
  destruct Hrun as [Hsteps _]; [done|by vm_compute|].
  rewrite Hsteps. vm_compute. reflexivity.
Defined.

(** [print(x = 7)] prints 7 and leaves 7 in the cell of [x]. *)
Example print_assignment_prints_7 :
  exists vm v,
    compile_and_run 20 print_assignment = Some (VM.Returns vm v None) /\
    VM.cout vm = [PrintedNumber (Double.of_int 7)] /\
    VM.memory vm = [Double.of_int 7].
Proof. eexists _, _. vm_compute. repeat split; reflexivity. Qed.



(** [var a = 20; var b = 4;] returns 4. *)
Example two_declarations_return_4 :
  exists vm,
    compile_and_run 20 two_declarations
    = Some (VM.Returns vm (Double.of_int 4) None).
Proof. eexists. vm_compute. reflexivity. Qed.

(** ** Printing *)

Lemma print_value_step vm b val st :
  VM.fetch vm = Some b -> instruction b = Instruction.PRINT_VALUE ->
  VM.stack vm = val :: st ->
  VM.step vm
  = VM.Next (VM.mk (VM.bytecode vm) st (VM.memory vm) (VM.string_literals vm)
               (VM.pc vm + 1) (VM.cout vm ++ [printed_value val])).
Proof.
  intros F I S. unfold VM.step, VM.execute, printed_value. rewrite F, I.
  simpl. rewrite S.
  by destruct (Double.eqb val Double.zero), (Double.eqb val Double.one).
Qed.

Lemma print_string_step vm b val st idx s :
  VM.fetch vm = Some b -> instruction b = Instruction.PRINT_STRING ->
  VM.stack vm = val :: st ->
  Double.to_int val = Some idx -> 0 <= idx ->
  VM.string_literals vm !! Z.to_nat idx = Some s ->
  VM.step vm
  = VM.Next (VM.mk (VM.bytecode vm) st (VM.memory vm) (VM.string_literals vm)
               (VM.pc vm + 1) (VM.cout vm ++ [PrintedText s])).
Proof.
  intros F I S T Hidx L. unfold VM.step, VM.execute. rewrite F, I.
  simpl. rewrite S, T. unfold VM.valid_index, size.
  apply lookup_lt_Some in L as Hlt.
  rewrite (proj2 (Z.leb_le _ _)), (proj2 (Z.ltb_lt _ _)) by lia.
  simpl. by rewrite L.
Qed.

(** C7.  A print statement lowers to the code of its expression followed
    by [PRINT_STRING] when the resolved type of the expression is the
    string type and by [PRINT_VALUE] otherwise.  [PRINT_VALUE] pops the
    value and prints "false" when it equals 0, "true" when it equals 1,
    and the number itself otherwise; [PRINT_STRING] prints the pooled
    string the value indexes. *)
Theorem print_instruction_follows_resolved_type e c c' vm val st rest :
  Compiler.compileNode (PrintStatement e) c = Ok c' ->
  empty (Compiler.bytecode c') = false ->
  VM.bytecode vm = Compiler.bytecode c' ++ rest ->
  VM.stack vm = val :: st ->
  exists c1,
    Compiler.compileExpression e c = Ok c1 /\
    let exprType :=
      (Compiler.resolveExpressionType e (Compiler.symbolTable c1)).1 in
    Compiler.bytecode c'
    = Compiler.bytecode c1
        ++ [Bytecode_op (if is_string exprType then Instruction.PRINT_STRING
                         else Instruction.PRINT_VALUE)] /\
    (VM.pc vm = size (Compiler.bytecode c1) ->
     let printing (p : Printed) :=
       VM.step vm
       = VM.Next (VM.mk (VM.bytecode vm) st (VM.memory vm)
                    (VM.string_literals vm) (size (Compiler.bytecode c'))
                    (VM.cout vm ++ [p])) in
     (is_string exprType = false -> printing (printed_value val)) /\
     (is_string exprType = true ->
      forall idx s,
        Double.to_int val = Some idx -> 0 <= idx ->
        VM.string_literals vm !! Z.to_nat idx = Some s ->
        printing (PrintedText s))).
Proof.
  intros H Hne B S.
  destruct (print_layout _ _ _ H Hne) as (c1 & He & B').
  exists c1. split; [done|]. split; [done|].
  intros P printing.
  assert (Hsz : size (Compiler.bytecode c') = VM.pc vm + 1).
  { rewrite B', size_app, size_cons, P. change (size (@nil Bytecode)) with 0.
    lia. }
  unfold printing. rewrite Hsz. split.
  - intros Hty. rewrite Hty in B'.
    apply print_value_step with (b := Bytecode_op Instruction.PRINT_VALUE);
      [|done|done].
    eapply fetch_at; [|exact P]. by rewrite B, B', <- app_assoc.
  - intros Hty idx s T Hidx L. rewrite Hty in B'.
    apply print_string_step
      with (b := Bytecode_op Instruction.PRINT_STRING) (val := val) (idx := idx);
      try done.
    eapply fetch_at; [|exact P]. by rewrite B, B', <- app_assoc.
Qed.

Lemma print_witness :
  let e := int_literal "1" in
  let c' := after (PrintStatement e) Compiler.new in
  let vm := VM.mk (Compiler.bytecode c' ++ [Bytecode_op Instruction.HALT])
              [Double.of_int 1] [] [] 1 [] in
  Compiler.compileNode (PrintStatement e) Compiler.new = Ok c' /\
  empty (Compiler.bytecode c') = false /\
  VM.bytecode vm = Compiler.bytecode c' ++ [Bytecode_op Instruction.HALT] /\
  VM.stack vm = [Double.of_int 1] /\
  Compiler.bytecode c'
  = [Bytecode_int Instruction.PUSH_INT 1; Bytecode_op Instruction.PRINT_VALUE] /\
  VM.step vm
  = VM.Next (VM.mk (VM.bytecode vm) [] [] [] 2 [PrintedText "true"]).
Proof.
  intros e c' vm.
  assert (H1 : Compiler.compileNode (PrintStatement e) Compiler.new = Ok c')
    by (vm_compute; reflexivity).
  assert (H2 : empty (Compiler.bytecode c') = false) by (vm_compute; reflexivity).
  assert (H3 : VM.bytecode vm
               = Compiler.bytecode c' ++ [Bytecode_op Instruction.HALT])
    by reflexivity.
  assert (H4 : VM.stack vm = [Double.of_int 1]) by reflexivity.
  repeat (split; [assumption|]).
  destruct (print_instruction_follows_resolved_type _ _ _ _ _ _ _ H1 H2 H3 H4)
    as (c1 & He & B' & Hrun).
  vm_compute in He. injection He as <-.
  split; [by vm_compute|].
  destruct Hrun as [Hvalue _]; [by vm_compute|].
  rewrite Hvalue by (by vm_compute). vm_compute. reflexivity.
Defined.

(** ** A successful compilation that looks like a failed one *)

(** C9.  [var x; print(1);] has no semantic violation -- the compiler
    reports nothing -- yet [compile] returns the empty program, the value
    it also returns for the failing [print(y);].  The declaration emits no
    instruction, the block loop takes the empty buffer for an error and
    stops, and [print(1);], which alone compiles to three instructions,
    is skipped. *)
Theorem uninitialized_declaration_looks_like_failure :
  exists c1 c2 c3,
    Compiler.compile (Some uninitialized_first) Compiler.new = Ok ([], c1) /\
    Compiler.cerr c1 = [] /\
    Compiler.compile (Some undeclared_use) Compiler.new = Ok ([], c2) /\
    has_error (Compiler.cerr c2) = true /\
    Compiler.compile (Some (PrintStatement (int_literal "1"))) Compiler.new
    = Ok ([Bytecode_int Instruction.PUSH_INT 1;
           Bytecode_op Instruction.PRINT_VALUE;
           Bytecode_op Instruction.HALT], c3) /\
    Compiler.compileNode (declare "x" None) Compiler.new
    = Ok (Compiler.with_symbolTable
            (apply_op (OpAddSymbol "x" NodeType.UNKNOWN) SymbolTable.new)
            Compiler.new).
Proof.
  eexists _, _, _. vm_compute. repeat split; reflexivity.
Qed.

(** ** Float literals *)






(** ** Arithmetic on literals *)

Lemma stoi_range text z :
  stoi text = Ok z -> Double.INT_MIN <= z <= Double.INT_MAX.
Proof.
  unfold stoi.
  destruct (Parse.sign _) as [neg s].
  destruct (Parse.digits s 0 0) as [[n count] rest].
  destruct count; [done|].
  destruct (_ && _) eqn:E; [|done].
  intros [= <-]. apply andb_prop in E as [H1 H2].
  apply Z.leb_le in H1. apply Z.leb_le in H2. done.
Qed.

(** The operand of an integer literal is the integer, exactly. *)
Lemma int_literal_exact token z p :
  tok_type token = TokenType.INT_LITERAL -> stoi (tok_value token) = Ok z ->
  literal_push token = Some p ->
  operand p = Double.of_int z /\ Double.to_int (operand p) = Some z.
Proof.
  intros Hty Hz. unfold literal_push. rewrite Hty, Hz. intros [= <-]. simpl.
  split; [done|]. apply to_int_of_int. by eapply stoi_range.
Qed.










(** [20 / 4] returns 5 and [7 / 2] returns 3.5; [1 - 2] returns -1 without
    an error. *)
Example integer_literal_quotients :
  (exists vm, compile_and_run 4
                (ExpressionNode (binary (int_literal "20") TokenType.SLASH
                                        (int_literal "4")))
              = Some (VM.Returns vm (Double.of_int 5) None)) /\
  (exists vm, compile_and_run 4
                (ExpressionNode (binary (int_literal "7") TokenType.SLASH
                                        (int_literal "2")))
              = Some (VM.Returns vm (S754_finite false 7881299347898368 (-51))
                        None)) /\
  (exists vm, compile_and_run 4
                (ExpressionNode (binary (int_literal "1") TokenType.MINUS
                                        (int_literal "2")))
              = Some (VM.Returns vm Double.minus_one None)).
Proof. repeat split; eexists; vm_compute; reflexivity. Qed.

(** ** The scenarios of the specification, run on the embedding *)

Example four_operations_print_24_16_80_5 :
  output 40 four_operations
  = Some [PrintedNumber (Double.of_int 24); PrintedNumber (Double.of_int 16);
          PrintedNumber (Double.of_int 80); PrintedNumber (Double.of_int 5)].
Proof. vm_compute. reflexivity. Qed.

Example concatenation_prints_hello_world :
  output 10 (PrintStatement (binary (string_literal "Hello, ") TokenType.PLUS
                                    (string_literal "World!")))
  = Some [PrintedText "Hello, World!"].
Proof. vm_compute. reflexivity. Qed.

Example skipped_assignments_keep_x :
  output 40 skipped_assignments = Some [PrintedNumber (Double.of_int 3)].
Proof. vm_compute. reflexivity. Qed.

Example branches :
  output 40 (branch_on TokenType.GREATER) = Some [PrintedText "A"] /\
  output 40 (branch_on TokenType.LESS) = Some [PrintedText "B"].
Proof. split; vm_compute; reflexivity. Qed.

(** One failing program per kind of error: each compiles to nothing. *)
Example failing_programs_compile_to_nothing :
  compiled (PrintStatement (variable "y")) = Some [] /\
  compiled (BlockStatement [ declare "x" (Some (int_literal "1"));
                             declare "x" (Some (int_literal "2")) ]) = Some [] /\
  compiled (BlockStatement [ declare "x" (Some (int_literal "1"));
                             ExpressionNode (assign "x" (string_literal "s")) ])
  = Some [] /\
  compiled (PrintStatement (binary (int_literal "1") TokenType.MINUS
                                   (string_literal "s"))) = Some [] /\
  compiled (PrintStatement (binary (float_literal "1.5") TokenType.AND
                                   (boolean true))) = Some [] /\
  compiled (BlockStatement [ PrintStatement (int_literal "1"); OtherNode ])
  = Some [] /\
  compiled (BlockStatement
              [ PrintStatement (int_literal "1");
                IfStatement (boolean true)
                  (BlockStatement
                     [ PrintStatement (int_literal "2");
                       BlockStatement [PrintStatement (variable "y")] ])
                  None;
                PrintStatement (int_literal "3") ]) = Some [].
Proof. repeat split; vm_compute; reflexivity. Qed.

(** ** The shape of lowered code *)

Section Shape.
Import Compiler.

#[local] Arguments emit : simpl never.
#[local] Arguments fail : simpl never.
#[local] Arguments report : simpl never.
#[local] Arguments with_bytecode : simpl never.
#[local] Arguments with_symbolTable : simpl never.
#[local] Arguments close_short_circuit : simpl never.
#[local] Arguments push_address : simpl never.
#[local] Arguments enterScope : simpl never.
#[local] Arguments exitScope : simpl never.
#[local] Arguments declaredType : simpl never.

Lemma ExprCode_pool pool pool' base code :
  ExprCode pool base code -> pool <= pool' -> ExprCode pool' base code.
Proof.
  intros H Hp. induction H.
  - by apply code_push.
  - apply code_push_string. lia.
  - apply code_load.
  - by apply code_store.
  - by apply code_binary.
  - by apply code_short_circuit.
  - by apply code_unary.
Qed.

Lemma StmtCode_pool pool pool' base code :
  StmtCode pool base code -> pool <= pool' -> StmtCode pool' base code.
Proof.
  intros H Hp. induction H.
  - apply code_expression. by eapply ExprCode_pool.
  - apply code_nothing.
  - by apply code_sequence.
  - apply code_if; [by eapply ExprCode_pool|done].
  - apply code_if_else; [by eapply ExprCode_pool|done|done].
  - apply code_print; [by eapply ExprCode_pool|done].
Qed.

Lemma push_address_emit p c c' :
  push_address p c = Ok c' ->
  exists address, c' = emit (Bytecode_int Instruction.PUSH_INT address) c.
Proof.
  unfold push_address. destruct (SymbolTable.deref p (symbolTable c)) as [s|];
    [|done].
  intros [= <-]. by exists (address s).
Qed.

Lemma exitScope_fields c :
  bytecode (exitScope c) = bytecode c /\
  string_literals (exitScope c) = string_literals c.
Proof.
  unfold exitScope. by destruct (SymbolTable.exitScope (symbolTable c)).
Qed.

Lemma close_short_circuit_pool idx pad c :
  string_literals (close_short_circuit idx pad c) = string_literals c.
Proof. reflexivity. Qed.

(** A step that left the buffer empty ends the lowering with an empty
    buffer; [Hne] says the end result is not empty. *)
Ltac nonempty Hne :=
  match goal with
  | H : (if empty (bytecode ?c1) then _ else _) = Ok _ |- _ =>
      let E := fresh "E" in
      destruct (empty (bytecode c1)) eqn:E;
      [ injection H as <-; by rewrite E in Hne |]
  end.

Lemma compileExpression_code e :
  literal_typed e = true ->
  forall c c', compileExpression e c = Ok c' ->
  empty (bytecode c') = false -> lowered ExprCode c c'.
Proof.
  induction e as [token|token|identifier|identifier value IH
                 |l IHl op r IHr|op r IH]; intros T c c' H Hne; simpl in H, T.
  - (* Literal *)
    destruct (tok_type token); try done.
    + destruct (stoi _); [|done]. injection H as <-.
      exists [Bytecode_int Instruction.PUSH_INT a].
      split; [done|]. split; [done|]. apply code_push. by left.
    + destruct (stof _); [|done]. injection H as <-.
      exists [Bytecode_float Instruction.PUSH_FLOAT a].
      split; [done|]. split; [done|]. apply code_push. by right.
    + injection H as <-.
      exists [Bytecode_int Instruction.PUSH_STRING (size (string_literals c))].
      split; [done|]. simpl. rewrite size_app, size_cons.
      pose proof (size_nonneg (string_literals c)).
      change (size (@nil string)) with 0.
      split; [lia|]. apply code_push_string. lia.
  - (* BooleanLiteral *)
    destruct (tok_type token); injection H as <-;
      (eexists [_]; split; [done|]; split; [done|]; apply code_push; by left).
  - (* IdentifierExpression *)
    destruct (SymbolTable.lookupSymbol _ _) as [p|];
      [|injection H as <-; done].
    destruct (push_address p c) as [c1|] eqn:Hp; [|done].
    apply push_address_emit in Hp as [a ->]. injection H as <-.
    exists [Bytecode_int Instruction.PUSH_INT a; Bytecode_op Instruction.LOAD].
    split; [unfold emit, with_bytecode; simpl; by rewrite <- app_assoc|].
    split; [done|]. apply code_load.
  - (* AssignmentExpression *)
    destruct (SymbolTable.lookupSymbol _ _) as [p|];
      [|injection H as <-; done].
    destruct (compileExpression value c) as [c1|] eqn:Hv; [|done].
    simpl in H. nonempty Hne.
    destruct (IH T _ _ Hv E) as (code & B & P & C).
    destruct (resolveExpressionType value (symbolTable c1)) as [ty ws].
    simpl in H.
    destruct (SymbolTable.deref p (symbolTable c1)) as [s|]; [|done].
    destruct (_ && _); [injection H as <-; done|].
    destruct (push_address p _) as [c2|] eqn:Hp; [|done].
    apply push_address_emit in Hp as [a ->]. injection H as <-.
    exists (code ++ [Bytecode_int Instruction.PUSH_INT a;
                     Bytecode_op Instruction.STORE]).
    destruct (bool_decide _); unfold emit, with_bytecode, with_symbolTable,
      report; simpl; rewrite B, <- !app_assoc;
      (split; [done|]; split; [done|]; by apply code_store).
  - (* BinaryExpression *)
    apply andb_prop in T as [Tl Tr].
    destruct (operandType l (symbolTable c)) as [lt wl].
    destruct (operandType r (symbolTable c)) as [rt wr].
    set (c0 := report (wl ++ wr) c) in *.
    assert (Hoperands : forall i,
      (c1 ← compileExpression l c0;
       if empty (bytecode c1) then Ok c1 else
       c2 ← compileExpression r c1;
       if empty (bytecode c2) then Ok c2 else
       Ok (emit (Bytecode_op i) c2)) = Ok c' ->
      binary_instruction i = true -> lowered ExprCode c c').
    { intros i H' Hi.
      destruct (compileExpression l c0) as [c1|] eqn:Hl; [|done].
      simpl in H'. nonempty Hne.
      destruct (IHl Tl _ _ Hl E) as (code_l & Bl & Pl & Cl).
      destruct (compileExpression r c1) as [c2|] eqn:Hr; [|done].
      simpl in H'. nonempty Hne.
      destruct (IHr Tr _ _ Hr E0) as (code_r & Br & Pr & Cr).
      injection H' as <-.
      exists (code_l ++ code_r ++ [Bytecode_op i]).
      unfold emit, with_bytecode. simpl. rewrite Br, Bl, <- !app_assoc.
      split; [done|]. split; [unfold c0, report in *; simpl in *; lia|].
      apply code_binary; [| |done].
      - eapply ExprCode_pool; [exact Cl|done].
      - rewrite Bl, size_app in Cr. exact Cr. }
    assert (Hshort : forall jump pad,
      (c1 ← compileExpression l c0;
       if empty (bytecode c1) then Ok c1 else
       c2 ← compileExpression r (emit (Bytecode_int jump 0) c1);
       if empty (bytecode c2) then Ok c2 else
       Ok (close_short_circuit (length (bytecode c1)) pad c2)) = Ok c' ->
      jump = Instruction.JUMP_IF_FALSE \/ jump = Instruction.JUMP_IF_TRUE ->
      lowered ExprCode c c').
    { intros jump pad H' Hj.
      destruct (compileExpression l c0) as [c1|] eqn:Hl; [|done].
      simpl in H'. nonempty Hne.
      destruct (IHl Tl _ _ Hl E) as (code_l & Bl & Pl & Cl).
      destruct (compileExpression r _) as [c2|] eqn:Hr; [|done].
      simpl in H'. nonempty Hne.
      destruct (IHr Tr _ _ Hr E0) as (code_r & Br & Pr & Cr).
      injection H' as <-.
      assert (Br' : bytecode c2
                    = bytecode c1 ++ Bytecode_int jump 0 :: code_r).
      { rewrite Br. unfold emit, with_bytecode. simpl.
        by rewrite <- app_assoc. }
      pose proof (close_short_circuit_bytecode _ _ _ pad _ Br') as B.
      cbv zeta in B.
      eexists (code_l ++ _ :: code_r ++ [_; _]).
      rewrite B, Bl, <- !app_assoc, close_short_circuit_pool.
      split; [done|].
      split; [unfold c0, report, emit, with_bytecode in *; simpl in *; lia|].
      unfold emit, with_bytecode in Cr. simpl in Cr.
      rewrite size_app, size_cons in Cr.
      change (size (@nil Bytecode)) with 0 in Cr.
      rewrite Bl, size_app in Cr.
      replace (size (bytecode c0 ++ code_l) + 1 + size code_r + 1)
        with (size (bytecode c0) + size code_l + size code_r + 2)
        by (rewrite size_app; lia).
      replace (size (bytecode c0) + size code_l + size code_r + 2 + 1)
        with (size (bytecode c0) + size code_l + size code_r + 3) by lia.
      apply code_short_circuit; [|by rewrite Z.add_0_r in Cr|done].
      eapply ExprCode_pool; [exact Cl|].
      unfold emit, with_bytecode in *. simpl in *. lia. }
    destruct (tok_type op);
      repeat match type of H with
             | (if ?b then _ else _) = _ => destruct b
             end;
      first [ eapply Hoperands; [exact H|reflexivity]
            | eapply Hshort; [exact H|by auto]
            | injection H as <-; done ].
  - (* UnaryExpression *)
    destruct (compileExpression r c) as [c1|] eqn:Hr; [|done].
    simpl in H. nonempty Hne.
    destruct (IH T _ _ Hr E) as (code & B & P & C).
    destruct (tok_type op); injection H as <-; try done;
      (eexists (code ++ [_]); unfold emit, with_bytecode; simpl;
       rewrite B, <- app_assoc; split; [done|]; split; [done|];
       apply code_unary; [done|]; by auto).
Qed.

Lemma patch_placeholder pre i post target :
  patch (length pre) target (pre ++ Bytecode_int i 0 :: post)
  = pre ++ Bytecode_int i target :: post.
Proof. by rewrite patch_middle. Qed.

Lemma lowered_sequence c1 c2 c3 :
  lowered StmtCode c1 c2 -> lowered StmtCode c2 c3 -> lowered StmtCode c1 c3.
Proof.
  intros (k1 & B1 & P1 & C1) (k2 & B2 & P2 & C2).
  exists (k1 ++ k2). rewrite B2, B1, <- app_assoc.
  split; [done|]. split; [lia|].
  apply code_sequence; [by eapply StmtCode_pool|].
  by rewrite B1, size_app in C2.
Qed.

Lemma compileNode_code node :
  node_literal_typed node = true ->
  forall c c', compileNode node c = Ok c' ->
  empty (bytecode c') = false -> lowered StmtCode c c'.
Proof.
  induction node as [e|identifier initializer
                    |condition thenBranch elseBranch IHthen IHelse
                    |statements IH|e|] using ASTNode_ind;
    intros T c c' H Hne.
  - (* expression *)
    destruct (compileExpression_code e T c c' H Hne) as (code & B & P & C).
    exists code. split; [done|]. split; [done|]. by apply code_expression.
  - (* VariableDeclaration *)
    simpl in H, T.
    destruct (declaredType initializer (symbolTable c)) as [varType| |];
      [|injection H as <-; done|done].
    destruct (SymbolTable.addSymbol _ _ _) as [[added st] ds].
    destruct added; simpl in H; [|injection H as <-; done].
    destruct initializer as [init|].
    + destruct (compileExpression init _) as [c1|] eqn:Hi; [|done].
      simpl in H. nonempty Hne.
      destruct (compileExpression_code init T _ _ Hi E) as (code & B & P & C).
      destruct (SymbolTable.lookupSymbol _ _) as [p|];
        [|injection H as <-; done].
      destruct (push_address p c1) as [c2|] eqn:Hp; [|done].
      apply push_address_emit in Hp as [a ->]. injection H as <-.
      exists (code ++ [Bytecode_int Instruction.PUSH_INT a;
                       Bytecode_op Instruction.STORE]).
      unfold emit, with_bytecode, with_symbolTable, report in *. simpl in *.
      rewrite B, <- !app_assoc.
      split; [done|]. split; [done|].
      apply code_expression. by apply code_store.
    + injection H as <-. exists [].
      unfold with_symbolTable, report. simpl. rewrite app_nil_r.
      split; [done|]. split; [done|]. apply code_nothing.
  - (* IfStatement *)
    simpl in H, T. apply andb_prop in T as [T Te].
    apply andb_prop in T as [Tc Tt].
    destruct (compileExpression condition c) as [c1|] eqn:Hc; [|done].
    simpl in H. nonempty Hne.
    destruct (compileExpression_code condition Tc _ _ Hc E)
      as (code_c & Bc & Pc & Cc).
    set (c2 := emit (Bytecode_int Instruction.JUMP_IF_FALSE 0) c1) in *.
    destruct (compileNode thenBranch c2) as [c3|] eqn:Ht; [|done].
    simpl in H. nonempty Hne.
    destruct (IHthen Tt _ _ Ht E0) as (code_t & Bt & Pt & Ct).
    assert (Bt' : bytecode c3
                  = bytecode c1
                      ++ Bytecode_int Instruction.JUMP_IF_FALSE 0 :: code_t).
    { rewrite Bt. unfold c2, emit, with_bytecode. simpl.
      by rewrite <- app_assoc. }
    assert (Sc2 : size (bytecode c2) = size (bytecode c) + size code_c + 1).
    { unfold c2, emit, with_bytecode. simpl.
      rewrite size_app, size_cons, Bc, size_app.
      change (size (@nil Bytecode)) with 0. lia. }
    assert (Pc2 : string_literals c2 = string_literals c1) by done.
    rewrite Sc2 in Ct. rewrite Pc2 in Pt.
    destruct elseBranch as [elseNode|].
    + set (c4 := with_bytecode _ (emit (Bytecode_int Instruction.JUMP 0) c3))
        in *.
      assert (B4 : bytecode c4
                   = bytecode c1
                       ++ Bytecode_int Instruction.JUMP_IF_FALSE
                            (size (bytecode c) + size code_c + size code_t + 2)
                       :: code_t ++ [Bytecode_int Instruction.JUMP 0]).
      { unfold c4, emit, with_bytecode. simpl. rewrite Bt'.
        replace ((bytecode c1
                    ++ Bytecode_int Instruction.JUMP_IF_FALSE 0 :: code_t)
                 ++ [Bytecode_int Instruction.JUMP 0])
          with (bytecode c1
                  ++ Bytecode_int Instruction.JUMP_IF_FALSE 0
                  :: code_t ++ [Bytecode_int Instruction.JUMP 0])
          by (by rewrite <- app_assoc).
        rewrite patch_placeholder. do 3 f_equal.
        rewrite size_app, size_cons, size_app, size_cons.
        rewrite Bc, size_app. change (size (@nil Bytecode)) with 0. lia. }
      assert (P4 : string_literals c4 = string_literals c3) by done.
      destruct (compileNode elseNode c4) as [c5|] eqn:He; [|done].
      simpl in H. nonempty Hne.
      destruct (IHelse Te _ _ He E1) as (code_e & Be & Pe & Ce).
      injection H as <-.
      rewrite P4 in Pe.
      assert (S4 : size (bytecode c4)
                   = size (bytecode c) + size code_c + size code_t + 2).
      { rewrite B4, size_app, size_cons, size_app, size_cons, Bc, size_app.
        change (size (@nil Bytecode)) with 0. lia. }
      rewrite S4 in Ce.
      assert (S5 : size (bytecode c5)
                   = size (bytecode c) + size code_c + size code_t
                     + size code_e + 2)
        by (rewrite Be, size_app; lia).
      exists (code_c
                ++ Bytecode_int Instruction.JUMP_IF_FALSE
                     (size (bytecode c) + size code_c + size code_t + 2)
                :: code_t
                ++ Bytecode_int Instruction.JUMP
                     (size (bytecode c) + size code_c + size code_t
                      + size code_e + 2)
                :: code_e).
      unfold with_bytecode. simpl.
      split; [|split; [lia|]].
      * rewrite S5, Be, B4.
        replace ((bytecode c1
                    ++ Bytecode_int Instruction.JUMP_IF_FALSE
                         (size (bytecode c) + size code_c + size code_t + 2)
                    :: code_t ++ [Bytecode_int Instruction.JUMP 0])
                 ++ code_e)
          with ((bytecode c1
                   ++ Bytecode_int Instruction.JUMP_IF_FALSE
                        (size (bytecode c) + size code_c + size code_t + 2)
                   :: code_t)
                ++ Bytecode_int Instruction.JUMP 0 :: code_e)
          by (rewrite <- !app_assoc; simpl; by rewrite <- app_assoc).
        replace (length (bytecode c3))
          with (length (bytecode c1
                          ++ Bytecode_int Instruction.JUMP_IF_FALSE
                               (size (bytecode c) + size code_c
                                + size code_t + 2)
                          :: code_t))
          by (rewrite Bt', !length_app; done).
        rewrite patch_placeholder, Bc, <- !app_assoc. simpl. reflexivity.
      * apply (code_if_else _ _ code_c code_t code_e).
        -- eapply ExprCode_pool; [exact Cc|lia].
        -- eapply StmtCode_pool; [exact Ct|lia].
        -- exact Ce.
    + injection H as <-.
      assert (S3 : size (bytecode c3)
                   = size (bytecode c) + size code_c + size code_t + 1)
        by (rewrite Bt', size_app, size_cons, Bc, size_app; lia).
      exists (code_c
                ++ Bytecode_int Instruction.JUMP_IF_FALSE
                     (size (bytecode c) + size code_c + size code_t + 1)
                :: code_t).
      unfold with_bytecode. simpl.
      split; [|split; [lia|]].
      * rewrite S3, Bt'.
        rewrite patch_placeholder, Bc, <- !app_assoc. reflexivity.
      * apply (code_if _ _ code_c code_t).
        -- eapply ExprCode_pool; [exact Cc|lia].
        -- exact Ct.
  - (* BlockStatement *)
    rewrite compileNode_block_unfold in H. simpl in T.
    assert (L0 : lowered StmtCode c (enterScope c)).
    { exists []. unfold enterScope, with_symbolTable. simpl.
      rewrite app_nil_r. split; [done|]. split; [done|]. apply code_nothing. }
    revert H L0 T. generalize (enterScope c) as c0.
    induction IH as [|stmt rest Hstmt _ IHrest]; intros c0 H L0 T.
    + injection H as <-. eapply lowered_sequence; [exact L0|].
      destruct (exitScope_fields c0) as [Eb Ep].
      exists []. rewrite Eb, Ep, app_nil_r.
      split; [done|]. split; [done|]. apply code_nothing.
    + simpl in T. apply andb_prop in T as [Ts Tr].
      destruct (compileNode stmt c0) as [c1|] eqn:Hs; [|done].
      simpl in H. nonempty Hne.
      apply (IHrest c1 H); [|done].
      eapply lowered_sequence; [exact L0|]. by apply Hstmt.
  - (* PrintStatement *)
    simpl in H, T.
    destruct (compileExpression e c) as [c1|] eqn:He; [|done].
    simpl in H. nonempty Hne.
    destruct (compileExpression_code e T _ _ He E) as (code & B & P & C).
    destruct (resolveExpressionType e (symbolTable c1)) as [ty ws].
    simpl in H.
    destruct (is_string ty); injection H as <-;
      (eexists (code ++ [_]); unfold emit, with_bytecode, report; simpl;
       rewrite B, <- app_assoc; split; [done|]; split; [done|];
       apply code_print; [done|]; by auto).
  - (* any other node class *)
    injection H as <-. done.
Qed.

(** A finished program is the code of its statements and a [HALT]. *)
Lemma compile_code ast c program c' :
  node_literal_typed ast = true ->
  compile (Some ast) c = Ok (program, c') -> program <> [] ->
  exists body : list Bytecode,
    program = body ++ [Bytecode_op Instruction.HALT] /\
    StmtCode (size (string_literals c')) 0 body.
Proof.
  intros T H Hp. unfold compile in H.
  destruct (compileNode ast _) as [c1|] eqn:Hc; [|done]. simpl in H.
  destruct (exitScope_fields c1) as [Eb Ep].
  destruct (empty (bytecode (exitScope c1))) eqn:E;
    [by injection H as <- <-|].
  injection H as <- <-. rewrite Eb in E.
  destruct (compileNode_code ast T _ _ Hc E) as (code & B & P & C).
  exists code. unfold emit, with_bytecode. simpl. rewrite Eb, Ep, B.
  split; [done|]. exact C.
Qed.
End Shape.

(** ** Runs of lowered code *)

Section Safety.
Import VM.

Lemma steps_app n : forall m vm vm' vm'',
  steps n vm = Some vm' -> steps m vm' = Some vm'' ->
  steps (n + m) vm = Some vm''.
Proof.
  induction n as [|n IH]; intros m vm vm' vm''; simpl.
  - by intros [= ->].
  - destruct (step vm) as [vm1|]; [|done]. apply IH.
Qed.

Lemma safely_here vm (Q : VM.t -> Prop) : Q vm -> safely vm (pc vm) Q.
Proof. intros HQ. left. by exists 0%nat, vm. Qed.

Lemma safely_then vm t1 (Q1 : VM.t -> Prop) t2 (Q2 : VM.t -> Prop) :
  safely vm t1 Q1 ->
  (forall vm', pc vm' = t1 -> bytecode vm' = bytecode vm -> Q1 vm' ->
               safely vm' t2 Q2) ->
  safely vm t2 Q2.
Proof.
  intros [(n & vm1 & Hs & Hpc & Hb & HQ)|Hstop] Hnext; [|by right].
  destruct (Hnext vm1 Hpc Hb HQ)
    as [(m & vm2 & Hs2 & Hpc2 & Hb2 & HQ2)|(m & vm2 & f & Hs2 & Hd & Hf)].
  - left. exists (n + m)%nat, vm2.
    split; [by eapply steps_app|]. rewrite Hb2, Hb. done.
  - right. exists (n + m)%nat, vm2, f. split; [by eapply steps_app|done].
Qed.

Lemma safely_weaken vm t (Q Q' : VM.t -> Prop) :
  safely vm t Q -> (forall vm', Q vm' -> Q' vm') -> safely vm t Q'.
Proof.
  intros [(n & vm1 & Hs & Hpc & Hb & HQ)|Hstop] HQQ; [|by right].
  left. exists n, vm1. auto.
Qed.

(** One instruction that is not a jump, on a stack that holds its
    operands. *)
Lemma straight_step vm b :
  fetch vm = Some b -> straight (instruction b) = true ->
  (operands (instruction b) <= length (stack vm))%nat ->
  (exists vm' results,
      step vm = Next vm' /\ pc vm' = pc vm + 1 /\
      bytecode vm' = bytecode vm /\
      length results = produces (instruction b) /\
      stack vm' = results ++ drop (operands (instruction b)) (stack vm))
  \/ (exists f, step vm = Done f /\ well_behaved f = true).
Proof.
  intros F S L. unfold step. rewrite F.
  unfold execute, compare, binary, error, print, with_stack, with_pc.
  cbn [stack pc bytecode memory string_literals cout].
  destruct (instruction b) eqn:I; try done; simpl in L;
    destruct (stack vm) as [|v2 [|v1 s]] eqn:St; simpl in L; try lia;
    repeat case_match;
    first [ right; eexists; split; [reflexivity|reflexivity]
          | left; eexists _, [_]; repeat split; reflexivity
          | left; eexists _, []; repeat split; reflexivity ].
Qed.

Lemma holds_app_l code idx s1 s2 : holds code idx (s1 ++ s2) -> holds code idx s1.
Proof.
  intros (pre & post & -> & <-). exists pre, (s2 ++ post).
  by rewrite <- app_assoc.
Qed.

Lemma holds_app_r code idx s1 s2 :
  holds code idx (s1 ++ s2) -> holds code (idx + size s1) s2.
Proof.
  intros (pre & post & -> & <-). exists (pre ++ s1), post.
  rewrite size_app, <- !app_assoc. done.
Qed.

Lemma holds_cons code idx b s :
  holds code idx (b :: s) -> holds code (idx + 1) s.
Proof.
  intros H. apply (holds_app_r code idx [b] s) in H.
  by rewrite size_cons, Z.add_0_r in H.
Qed.

Lemma holds_fetch vm b s :
  holds (bytecode vm) (pc vm) (b :: s) -> fetch vm = Some b.
Proof.
  intros (pre & post & B & P). eapply fetch_at; [exact B|done].
Qed.

Lemma safely_straight vm b s :
  holds (bytecode vm) (pc vm) (b :: s) ->
  straight (instruction b) = true ->
  (operands (instruction b) <= length (stack vm))%nat ->
  safely vm (pc vm + 1)
    (fun vm' => exists results,
       length results = produces (instruction b) /\
       stack vm' = results ++ drop (operands (instruction b)) (stack vm)).
Proof.
  intros H S L.
  destruct (straight_step vm b (holds_fetch _ _ _ H) S L)
    as [(vm' & results & Hs & Hpc & Hb & Hl & Hst)|(f & Hs & Hf)].
  - left. exists 1%nat, vm'. simpl. rewrite Hs.
    split; [done|]. split; [done|]. split; [done|]. by exists results.
  - right. by exists 0%nat, vm, f.
Qed.

(** An instruction that takes the values [args] and leaves one. *)
Lemma safely_result vm b s args rest :
  holds (bytecode vm) (pc vm) (b :: s) ->
  straight (instruction b) = true -> produces (instruction b) = 1%nat ->
  stack vm = args ++ rest -> length args = operands (instruction b) ->
  safely vm (pc vm + 1) (fun vm' => exists r, stack vm' = r :: rest).
Proof.
  intros H S P St L.
  eapply safely_weaken.
  - apply (safely_straight vm b s H S). rewrite St, length_app. lia.
  - intros vm' (results & Hl & Hst). rewrite P in Hl.
    destruct results as [|r [|? ?]]; try done. exists r.
    by rewrite Hst, St, <- L, drop_app_length.
Qed.

(** An instruction that takes the values [args] and leaves none. *)
Lemma safely_consumed vm b s args rest :
  holds (bytecode vm) (pc vm) (b :: s) ->
  straight (instruction b) = true -> produces (instruction b) = 0%nat ->
  stack vm = args ++ rest -> length args = operands (instruction b) ->
  safely vm (pc vm + 1) (fun vm' => stack vm' = rest).
Proof.
  intros H S P St L.
  eapply safely_weaken.
  - apply (safely_straight vm b s H S). rewrite St, length_app. lia.
  - intros vm' (results & Hl & Hst). rewrite P in Hl.
    destruct results as [|? ?]; try done.
    by rewrite Hst, St, <- L, drop_app_length.
Qed.

Lemma jump_step vm target s :
  holds (bytecode vm) (pc vm) (Bytecode_int Instruction.JUMP target :: s) ->
  Double.INT_MIN <= target <= Double.INT_MAX ->
  step vm = Next (mk (bytecode vm) (stack vm) (memory vm)
                     (string_literals vm) target (cout vm)).
Proof.
  intros H T. unfold step. rewrite (holds_fetch _ _ _ H).
  unfold execute, jump. simpl. by rewrite to_int_of_int.
Qed.

Lemma conditional_jump_step vm i target s v rest :
  holds (bytecode vm) (pc vm) (Bytecode_int i target :: s) ->
  i = Instruction.JUMP_IF_FALSE \/ i = Instruction.JUMP_IF_TRUE ->
  Double.INT_MIN <= target <= Double.INT_MAX ->
  stack vm = v :: rest ->
  exists next,
    step vm = Next (mk (bytecode vm) rest (memory vm)
                       (string_literals vm) next (cout vm)) /\
    (next = target \/ next = pc vm + 1).
Proof.
  intros H Hi T St. unfold step. rewrite (holds_fetch _ _ _ H).
  unfold execute, jump, with_stack, with_pc. simpl.
  destruct Hi as [-> | ->]; simpl; rewrite St, to_int_of_int by done.
  - destruct (Double.eqb v Double.zero); eexists; split; eauto.
  - destruct (Double.neqb v Double.zero); eexists; split; eauto.
Qed.

Lemma holds_size code idx seg :
  holds code idx seg -> 0 <= idx /\ idx + size seg <= size code.
Proof.
  intros (pre & post & -> & <-). rewrite !size_app.
  pose proof (size_nonneg pre). pose proof (size_nonneg post). lia.
Qed.

Lemma safely_step vm vm1 t (Q : VM.t -> Prop) :
  step vm = Next vm1 -> bytecode vm1 = bytecode vm ->
  safely vm1 t Q -> safely vm t Q.
Proof.
  intros Hs Hb [(n & vm2 & Hn & Hpc & Hb2 & HQ)|(n & vm2 & f & Hn & Hd & Hf)].
  - left. exists (S n), vm2. simpl. rewrite Hs, Hb2, Hb. done.
  - right. exists (S n), vm2, f. simpl. by rewrite Hs.
Qed.

Lemma safely_target vm t t' (Q : VM.t -> Prop) :
  safely vm t Q -> t = t' -> safely vm t' Q.
Proof. by intros H <-. Qed.

(** The code of an expression pushes one value, or the run ends well
    inside it. *)
Lemma ExprCode_safe pool base code :
  ExprCode pool base code ->
  forall vm, holds (bytecode vm) base code -> pc vm = base ->
  size (bytecode vm) <= Double.INT_MAX ->
  safely vm (base + size code) (pushed_one vm).
Proof.
  induction 1 as [base b Hb|base index Hi|base address
                 |base value address Hv IH
                 |base l r i Hl IHl Hr IHr Hi
                 |base l r jump pad Hl IHl Hr IHr Hj
                 |base r i Hr IH Hi]; intros vm H P M.
  - (* a push *)
    subst base. change (size [b]) with 1.
    apply (safely_result vm b [] [] (stack vm)); try done;
      by destruct Hb as [-> | ->].
  - subst base. change (size [_]) with 1.
    by apply (safely_result vm (Bytecode_int Instruction.PUSH_STRING index)
                [] [] (stack vm)).
  - (* PUSH_INT address; LOAD *)
    subst base.
    eapply safely_then.
    { by apply (safely_result vm _ _ [] (stack vm) H). }
    intros vm1 P1 B1 [a St1].
    eapply safely_target.
    { apply (safely_result vm1 (Bytecode_op Instruction.LOAD) [] [a] (stack vm));
        try done.
      rewrite B1, P1. by apply holds_cons in H. }
    rewrite P1. change (size [_; _]) with 2. lia.
  - (* value; PUSH_INT address; STORE *)
    pose proof (holds_app_l _ _ _ _ H) as H1.
    pose proof (holds_app_r _ _ _ _ H) as H2.
    pose proof (holds_cons _ _ _ _ H2) as H3.
    eapply safely_then; [by apply IH|].
    intros vm1 P1 B1 [v St1].
    eapply safely_then.
    { apply (safely_result vm1 (Bytecode_int Instruction.PUSH_INT address)
               [Bytecode_op Instruction.STORE] [] (stack vm1)); try done.
      rewrite B1, P1. exact H2. }
    intros vm2 P2 B2 [a St2].
    eapply safely_target.
    { apply (safely_result vm2 (Bytecode_op Instruction.STORE) []
               [a; v] (stack vm)); try done.
      - rewrite B2, B1, P2, P1. exact H3.
      - by rewrite St2, St1. }
    rewrite P2, P1, size_app. change (size [_; _]) with 2. lia.
  - (* l; r; op *)
    pose proof (holds_app_l _ _ _ _ H) as H1.
    pose proof (holds_app_r _ _ _ _ H) as H2.
    pose proof (holds_app_l _ _ _ _ H2) as H3.
    pose proof (holds_app_r _ _ _ _ H2) as H4.
    eapply safely_then; [by apply IHl|].
    intros vm1 P1 B1 [v1 St1].
    eapply safely_then.
    { apply IHr; [by rewrite B1|done|by rewrite B1]. }
    intros vm2 P2 B2 [v2 St2].
    eapply safely_target.
    { apply (safely_result vm2 (Bytecode_op i) [] [v2; v1] (stack vm)).
      - rewrite B2, B1, P2. exact H4.
      - by destruct i.
      - by destruct i.
      - by rewrite St2, St1.
      - by destruct i. }
    rewrite P2, !size_app. change (size [_]) with 1. lia.
  - (* l; jump; r; JUMP; PUSH_INT pad *)
    pose proof (holds_size _ _ _ H) as [Hlo Hhi].
    rewrite size_app, size_cons, size_app in Hhi.
    change (size [_; _]) with 2 in Hhi.
    pose proof (size_nonneg l) as Nl. pose proof (size_nonneg r) as Nr.
    unfold Double.INT_MIN, Double.INT_MAX in *.
    pose proof (holds_app_l _ _ _ _ H) as H1.
    pose proof (holds_app_r _ _ _ _ H) as H2.
    pose proof (holds_cons _ _ _ _ H2) as H3.
    pose proof (holds_app_l _ _ _ _ H3) as H4.
    pose proof (holds_app_r _ _ _ _ H3) as H5.
    pose proof (holds_cons _ _ _ _ H5) as H6.
    eapply safely_then; [by apply IHl|].
    intros vm1 P1 B1 [v1 St1].
    destruct (conditional_jump_step vm1 jump
                (base + size l + size r + 2)
                (r ++ [Bytecode_int Instruction.JUMP
                         (base + size l + size r + 3);
                       Bytecode_int Instruction.PUSH_INT pad])
                v1 (stack vm))
      as (next & Hs & Hnext); try done.
    { rewrite B1, P1. exact H2. }
    { unfold Double.INT_MIN, Double.INT_MAX. lia. }
    eapply safely_step; [exact Hs|done|].
    destruct Hnext as [-> | ->].
    + (* the landing pad *)
      eapply safely_target.
      { apply (safely_result _ (Bytecode_int Instruction.PUSH_INT pad) []
                 [] (stack vm)); try done.
        simpl. rewrite B1.
        by replace (base + size l + size r + 2)
          with (base + size l + 1 + size r + 1) by lia. }
      simpl. rewrite size_app, size_cons, size_app.
      change (size [_; _]) with 2. lia.
    + (* the right operand *)
      eapply safely_then.
      { apply IHr; simpl; [by rewrite B1|lia|by rewrite B1]. }
      intros vm2 P2 B2 [v2 St2]. simpl in B2, St2.
      eapply safely_step.
      { apply (jump_step vm2 (base + size l + size r + 3)
                 [Bytecode_int Instruction.PUSH_INT pad]).
        - rewrite B2, B1, P2. exact H5.
        - unfold Double.INT_MIN, Double.INT_MAX. lia. }
      { done. }
      eapply safely_target.
      { apply safely_here. simpl. by exists v2. }
      simpl. rewrite size_app, size_cons, size_app.
      change (size [_; _]) with 2. lia.
  - (* r; op *)
    pose proof (holds_app_l _ _ _ _ H) as H1.
    pose proof (holds_app_r _ _ _ _ H) as H2.
    eapply safely_then; [by apply IH|].
    intros vm1 P1 B1 [v St1].
    eapply safely_target.
    { apply (safely_result vm1 (Bytecode_op i) [] [v] (stack vm)).
      - rewrite B1, P1. exact H2.
      - by destruct Hi as [-> | ->].
      - by destruct Hi as [-> | ->].
      - done.
      - by destruct Hi as [-> | ->]. }
    rewrite P1, size_app. change (size [_]) with 1. lia.
Qed.

(** The code of a statement leaves the stack it found in place, or the
    run ends well inside it. *)
Lemma StmtCode_safe pool base code :
  StmtCode pool base code ->
  forall vm, holds (bytecode vm) base code -> pc vm = base ->
  size (bytecode vm) <= Double.INT_MAX ->
  safely vm (base + size code) (stack_kept vm).
Proof.
  induction 1 as [base e He|base|base first second H1 IH1 H2 IH2
                 |base condition thenCode Hc Ht IHt
                 |base condition thenCode elseCode Hc Ht IHt He IHe
                 |base e i He Hi]; intros vm H P M.
  - (* an expression *)
    eapply safely_weaken; [by eapply ExprCode_safe|].
    intros vm' [v St]. by exists [v].
  - (* nothing *)
    eapply safely_target; [apply safely_here; by exists []|].
    change (size (@nil Bytecode)) with 0. lia.
  - (* a sequence *)
    pose proof (holds_app_l _ _ _ _ H) as Hf.
    pose proof (holds_app_r _ _ _ _ H) as Hs.
    eapply safely_then; [by apply IH1|].
    intros vm1 P1 B1 [extra1 St1].
    eapply safely_target.
    { eapply safely_weaken.
      - apply IH2; [by rewrite B1|done|by rewrite B1].
      - intros vm2 [extra2 St2]. exists (extra2 ++ extra1).
        by rewrite St2, St1, app_assoc. }
    rewrite size_app. lia.
  - (* if without else *)
    pose proof (holds_size _ _ _ H) as [Hlo Hhi].
    rewrite size_app, size_cons in Hhi.
    pose proof (size_nonneg condition) as Nc.
    pose proof (size_nonneg thenCode) as Nt.
    pose proof (holds_app_l _ _ _ _ H) as Hcond.
    pose proof (holds_app_r _ _ _ _ H) as Hjump.
    pose proof (holds_cons _ _ _ _ Hjump) as Hthen.
    eapply safely_then; [by eapply ExprCode_safe|].
    intros vm1 P1 B1 [v1 St1].
    destruct (conditional_jump_step vm1 Instruction.JUMP_IF_FALSE
                (base + size condition + size thenCode + 1)
                thenCode v1 (stack vm))
      as (next & Hstep & Hnext); try done.
    { rewrite B1, P1. exact Hjump. }
    { by left. }
    { unfold Double.INT_MIN, Double.INT_MAX in *. lia. }
    eapply safely_step; [exact Hstep|done|].
    destruct Hnext as [-> | ->].
    + eapply safely_target; [apply safely_here; by exists []|].
      simpl. rewrite size_app, size_cons. lia.
    + eapply safely_target.
      { eapply safely_weaken.
        - apply IHt; simpl; [by rewrite B1|lia|by rewrite B1].
        - intros vm2 [extra St2]. by exists extra. }
      rewrite size_app, size_cons. lia.
  - (* if with else *)
    pose proof (holds_size _ _ _ H) as [Hlo Hhi].
    rewrite size_app, size_cons, size_app, size_cons in Hhi.
    pose proof (size_nonneg condition) as Nc.
    pose proof (size_nonneg thenCode) as Nt.
    pose proof (size_nonneg elseCode) as Ne.
    pose proof (holds_app_l _ _ _ _ H) as Hcond.
    pose proof (holds_app_r _ _ _ _ H) as Hjump.
    pose proof (holds_cons _ _ _ _ Hjump) as Hrest.
    pose proof (holds_app_l _ _ _ _ Hrest) as Hthen.
    pose proof (holds_app_r _ _ _ _ Hrest) as Hskip.
    pose proof (holds_cons _ _ _ _ Hskip) as Helse.
    eapply safely_then; [by eapply ExprCode_safe|].
    intros vm1 P1 B1 [v1 St1].
    destruct (conditional_jump_step vm1 Instruction.JUMP_IF_FALSE
                (base + size condition + size thenCode + 2)
                (thenCode
                   ++ Bytecode_int Instruction.JUMP
                        (base + size condition + size thenCode
                         + size elseCode + 2)
                   :: elseCode)
                v1 (stack vm))
      as (next & Hstep & Hnext); try done.
    { rewrite B1, P1. exact Hjump. }
    { by left. }
    { unfold Double.INT_MIN, Double.INT_MAX in *. lia. }
    eapply safely_step; [exact Hstep|done|].
    destruct Hnext as [-> | ->].
    + (* the else branch *)
      eapply safely_target.
      { eapply safely_weaken.
        - apply IHe; simpl; [|done|by rewrite B1]. rewrite B1.
          by replace (base + size condition + size thenCode + 2)
            with (base + size condition + 1 + size thenCode + 1) by lia.
        - intros vm2 [extra St2]. by exists extra. }
      rewrite size_app, size_cons, size_app, size_cons. lia.
    + (* the then branch and the jump over the else branch *)
      eapply safely_then.
      { apply IHt; simpl; [by rewrite B1|lia|by rewrite B1]. }
      intros vm2 P2 B2 [extra St2]. simpl in B2, St2.
      eapply safely_step.
      { apply (jump_step vm2 (base + size condition + size thenCode
                              + size elseCode + 2) elseCode).
        - rewrite B2, B1, P2. exact Hskip.
        - unfold Double.INT_MIN, Double.INT_MAX in *. lia. }
      { done. }
      eapply safely_target.
      { apply safely_here. simpl. by exists extra. }
      simpl. rewrite size_app, size_cons, size_app, size_cons. lia.
  - (* print *)
    pose proof (holds_app_l _ _ _ _ H) as H1.
    pose proof (holds_app_r _ _ _ _ H) as H2.
    eapply safely_then; [by eapply ExprCode_safe|].
    intros vm1 P1 B1 [v St1].
    eapply safely_target.
    { eapply safely_weaken.
      - apply (safely_consumed vm1 (Bytecode_op i) [] [v] (stack vm)).
        + rewrite B1, P1. exact H2.
        + by destruct Hi as [-> | ->].
        + by destruct Hi as [-> | ->].
        + done.
        + by destruct Hi as [-> | ->].
      - intros vm2 St2. by exists []. }
    rewrite P1, size_app. change (size [_]) with 1. lia.
Qed.
End Safety.

(** ** Finished programs *)

Section Program.
Import VM.

Lemma all_placed_nil pool limit base : all_placed pool limit base [].
Proof. intros i b H. by rewrite lookup_nil in H. Qed.

Lemma all_placed_cons pool limit base b code :
  placed pool limit base b -> all_placed pool limit (base + 1) code ->
  all_placed pool limit base (b :: code).
Proof.
  intros Hb Hc [|i] b' H; simpl in H.
  - injection H as <-. by rewrite Z.add_0_r.
  - replace (base + Z.of_nat (S i)) with (base + 1 + Z.of_nat i) by lia.
    by apply Hc.
Qed.

Lemma all_placed_app pool limit base code1 code2 :
  all_placed pool limit base code1 ->
  all_placed pool limit (base + size code1) code2 ->
  all_placed pool limit base (code1 ++ code2).
Proof.
  intros H1 H2 i b H. apply lookup_app_Some in H as [H|[Hle H]].
  - by apply H1.
  - replace (base + Z.of_nat i)
      with (base + size code1 + Z.of_nat (i - length code1))
      by (unfold size; lia).
    by apply H2.
Qed.

Lemma ExprCode_placed pool base code :
  ExprCode pool base code ->
  forall limit, base + size code <= limit -> all_placed pool limit base code.
Proof.
  induction 1 as [base b Hb|base index Hi|base address
                 |base value address Hv IH
                 |base l r i Hl IHl Hr IHr Hi
                 |base l r jump pad Hl IHl Hr IHr Hj
                 |base r i Hr IH Hi]; intros limit Hlim.
  - apply all_placed_cons; [|apply all_placed_nil].
    unfold placed. by destruct Hb as [-> | ->].
  - apply all_placed_cons; [|apply all_placed_nil].
    unfold placed. simpl. by exists index.
  - repeat (apply all_placed_cons; [done|]). apply all_placed_nil.
  - rewrite size_app in Hlim. change (size [_; _]) with 2 in Hlim.
    apply all_placed_app; [apply IH; lia|].
    repeat (apply all_placed_cons; [done|]). apply all_placed_nil.
  - rewrite !size_app in Hlim. change (size [_]) with 1 in Hlim.
    pose proof (size_nonneg l). pose proof (size_nonneg r).
    apply all_placed_app; [apply IHl; lia|].
    apply all_placed_app; [apply IHr; lia|].
    apply all_placed_cons; [|apply all_placed_nil].
    unfold placed. by destruct i.
  - rewrite size_app, size_cons, size_app in Hlim.
    change (size [_; _]) with 2 in Hlim.
    pose proof (size_nonneg l). pose proof (size_nonneg r).
    apply all_placed_app; [apply IHl; lia|].
    apply all_placed_cons.
    { unfold placed. simpl.
      destruct Hj as [-> | ->]; eexists; (split; [reflexivity|lia]). }
    apply all_placed_app; [apply IHr; lia|].
    apply all_placed_cons.
    { unfold placed. simpl. eexists. split; [reflexivity|lia]. }
    apply all_placed_cons; [done|]. apply all_placed_nil.
  - rewrite size_app in Hlim. change (size [_]) with 1 in Hlim.
    apply all_placed_app; [apply IH; lia|].
    apply all_placed_cons; [|apply all_placed_nil].
    unfold placed. by destruct Hi as [-> | ->].
Qed.

Lemma StmtCode_placed pool base code :
  StmtCode pool base code ->
  forall limit, base + size code <= limit -> all_placed pool limit base code.
Proof.
  induction 1 as [base e He|base|base first second H1 IH1 H2 IH2
                 |base condition thenCode Hc Ht IHt
                 |base condition thenCode elseCode Hc Ht IHt He IHe
                 |base e i He Hi]; intros limit Hlim.
  - by eapply ExprCode_placed.
  - apply all_placed_nil.
  - rewrite size_app in Hlim.
    pose proof (size_nonneg first). pose proof (size_nonneg second).
    apply all_placed_app; [apply IH1; lia|apply IH2; lia].
  - rewrite size_app, size_cons in Hlim.
    pose proof (size_nonneg condition). pose proof (size_nonneg thenCode).
    apply all_placed_app; [eapply ExprCode_placed; [done|lia]|].
    apply all_placed_cons; [|apply IHt; lia].
    unfold placed. simpl. eexists. split; [reflexivity|lia].
  - rewrite size_app, size_cons, size_app, size_cons in Hlim.
    pose proof (size_nonneg condition). pose proof (size_nonneg thenCode).
    pose proof (size_nonneg elseCode).
    apply all_placed_app; [eapply ExprCode_placed; [done|lia]|].
    apply all_placed_cons.
    { unfold placed. simpl. eexists. split; [reflexivity|lia]. }
    apply all_placed_app; [apply IHt; lia|].
    apply all_placed_cons.
    { unfold placed. simpl. eexists. split; [reflexivity|lia]. }
    replace (base + size condition + 1 + size thenCode + 1)
      with (base + size condition + size thenCode + 2) by lia.
    apply IHe. lia.
  - rewrite size_app in Hlim. change (size [_]) with 1 in Hlim.
    apply all_placed_app; [eapply ExprCode_placed; [done|lia]|].
    apply all_placed_cons; [|apply all_placed_nil].
    unfold placed. by destruct Hi as [-> | ->].
Qed.

(** A turn that does not return leaves the program alone, and goes to
    the next instruction unless it ran a jump. *)
Lemma step_next vm b vm' :
  fetch vm = Some b -> step vm = Next vm' ->
  bytecode vm' = bytecode vm /\
  (jump_instruction (instruction b) = false -> pc vm' = pc vm + 1).
Proof.
  intros F. unfold step. rewrite F.
  unfold execute, compare, binary, error, jump, print, with_stack, with_pc.
  cbn [stack pc bytecode memory string_literals cout].
  destruct (instruction b) eqn:I; repeat case_match; try done;
    by intros [= <-].
Qed.

Lemma step_jump vm b vm' target :
  fetch vm = Some b -> jump_instruction (instruction b) = true ->
  operand b = Double.of_int target ->
  Double.INT_MIN <= target <= Double.INT_MAX ->
  step vm = Next vm' -> pc vm' = target \/ pc vm' = pc vm + 1.
Proof.
  intros F J O T. unfold step. rewrite F.
  unfold execute, error, jump, with_stack, with_pc.
  cbn [stack pc bytecode memory string_literals cout].
  rewrite O, to_int_of_int by done.
  destruct (instruction b) eqn:I; try done; repeat case_match; try done;
    intros [= <-]; simpl; auto.
Qed.

Lemma fetch_body vm body b :
  bytecode vm = body ++ [Bytecode_op Instruction.HALT] ->
  0 <= pc vm -> body !! Z.to_nat (pc vm) = Some b -> fetch vm = Some b.
Proof.
  intros B P L. unfold fetch, valid_index. rewrite B.
  pose proof (lookup_lt_Some _ _ _ L) as Hlt.
  rewrite size_app, size_cons. unfold size at 1.
  change (size (@nil Bytecode)) with 0.
  rewrite (proj2 (Z.leb_le _ _)), (proj2 (Z.ltb_lt _ _)) by lia. simpl.
  by rewrite lookup_app_l.
Qed.

(** In a program whose jumps go forward, each turn returns or moves the
    program counter forward, and not past the [HALT]. *)
Lemma placed_step pool body vm :
  all_placed pool (size body) 0 body -> size body <= Double.INT_MAX ->
  bytecode vm = body ++ [Bytecode_op Instruction.HALT] ->
  0 <= pc vm <= size body ->
  (exists f, step vm = Done f)
  \/ (exists vm', step vm = Next vm' /\ bytecode vm' = bytecode vm /\
                  pc vm < pc vm' <= size body).
Proof.
  intros Hp M B [P0 P1].
  destruct (Z.eq_dec (pc vm) (size body)) as [E|E].
  { left. eexists. apply step_halt with (b := Bytecode_op Instruction.HALT);
      [|done].
    apply fetch_at with (pre := body) (post := []); done. }
  destruct (body !! Z.to_nat (pc vm)) as [b|] eqn:L.
  2:{ apply lookup_ge_None in L. unfold size in *. lia. }
  pose proof (fetch_body _ _ _ B P0 L) as F.
  destruct (step vm) as [vm'|f] eqn:S; [right|by left; exists f].
  exists vm'. destruct (step_next _ _ _ F S) as [Hb Hpc].
  split; [done|]. split; [done|].
  pose proof (Hp _ _ L) as Hplaced. rewrite Z2Nat.id in Hplaced by done.
  simpl in Hplaced. unfold placed in Hplaced.
  destruct (jump_instruction (instruction b)) eqn:J.
  - assert (exists target,
              operand b = Double.of_int target /\ pc vm < target <= size body)
      as (target & O & T) by (by destruct (instruction b)).
    assert (Hrange : Double.INT_MIN <= target <= Double.INT_MAX)
      by (unfold Double.INT_MIN, Double.INT_MAX in *; lia).
    destruct (step_jump vm b vm' target F J O Hrange S) as [-> | ->]; lia.
  - rewrite Hpc by done. lia.
Qed.

Lemma placed_terminates pool body :
  all_placed pool (size body) 0 body -> size body <= Double.INT_MAX ->
  forall n vm,
    bytecode vm = body ++ [Bytecode_op Instruction.HALT] ->
    0 <= pc vm <= size body -> size body - pc vm < Z.of_nat n ->
    exists f, loop n vm = Some f.
Proof.
  intros Hp M. induction n as [|n IH]; intros vm B P Hn; [lia|].
  simpl. destruct (placed_step pool body vm Hp M B P)
    as [[f ->]|(vm' & -> & Hb & Hpc)]; [by exists f|].
  apply IH; [by rewrite Hb|lia|lia].
Qed.

Lemma loop_more n : forall vm f k,
  loop n vm = Some f -> loop (n + k) vm = Some f.
Proof.
  induction n as [|n IH]; intros vm f k; simpl; [done|].
  destruct (step vm); [apply IH|done].
Qed.

Lemma loop_agree n1 n2 vm f1 f2 :
  loop n1 vm = Some f1 -> loop n2 vm = Some f2 -> f1 = f2.
Proof.
  intros H1 H2. apply loop_more with (k := n2) in H1.
  apply loop_more with (k := n1) in H2.
  rewrite Nat.add_comm in H2. congruence.
Qed.

(** From its first instruction, a finished program runs to an end that
    is not a failure of the lowering. *)
Lemma program_stops pool body strings :
  StmtCode pool 0 body ->
  size (body ++ [Bytecode_op Instruction.HALT]) <= Double.INT_MAX ->
  stops (init (body ++ [Bytecode_op Instruction.HALT]) strings).
Proof.
  intros C M.
  set (vm := init (body ++ [Bytecode_op Instruction.HALT]) strings).
  assert (H : holds (bytecode vm) 0 body)
    by (by exists [], [Bytecode_op Instruction.HALT]).
  destruct (StmtCode_safe pool 0 body C vm H eq_refl M)
    as [(n & vm' & Hs & Hpc & Hb & _)|Hstop]; [|done].
  exists n, vm',
    (Returns (with_pc (pc vm' + 1) vm') (top_or_zero (stack vm')) None).
  split; [done|]. split; [|done].
  apply step_halt with (b := Bytecode_op Instruction.HALT); [|done].
  apply fetch_at with (pre := body) (post := []); [by rewrite Hb|].
  by rewrite Hpc.
Qed.
End Program.

(** ** The parser returns *)

Section Parsing.
Import Parser.

Lemma follows_refl p : follows p p.
Proof. repeat split; lia. Qed.

Lemma follows_trans p1 p2 p3 : follows p1 p2 -> follows p2 p3 -> follows p1 p3.
Proof. intros (T1 & P1 & C1) (T2 & P2 & C2). split; [congruence|lia]. Qed.

Lemma follows_remaining p p' : follows p p' -> (remaining p' <= remaining p)%nat.
Proof. intros (T & P & _). unfold remaining. rewrite T. lia. Qed.

Lemma report_length e p : length (cerr (report e p)) = S (length (cerr p)).
Proof. unfold report. simpl. rewrite length_app. simpl. lia. Qed.

Lemma follows_report e p : follows p (report e p).
Proof. split; [done|]. rewrite report_length. simpl. lia. Qed.

Lemma complained_report e p : complained p (report e p).
Proof. unfold complained. rewrite report_length. lia. Qed.

Lemma complained_before p p1 p2 :
  complained p p1 -> follows p1 p2 -> complained p p2.
Proof. unfold complained. intros H (_ & _ & C). lia. Qed.

Lemma complained_after p p1 p2 :
  follows p p1 -> complained p1 p2 -> complained p p2.
Proof. unfold complained. intros (_ & _ & C) H. lia. Qed.

Lemma peek_token p :
  tok_type (peek p) <> TokenType.EOF_TOKEN ->
  tokens p !! current_pos p = Some (peek p).
Proof. unfold peek. by destruct (tokens p !! current_pos p). Qed.

Lemma lookup_remaining p token :
  tokens p !! current_pos p = Some token -> (0 < remaining p)%nat.
Proof. intros H%lookup_lt_Some. unfold remaining. lia. Qed.

(** A successful [match] consumed the token it compared. *)
Lemma match_spec type p :
  type <> TokenType.EOF_TOKEN ->
  match match_ type p with
  | (true, p') =>
      tokens p !! current_pos p = Some (peek p) /\ tok_type (peek p) = type /\
      p' = mk (tokens p) (S (current_pos p)) (cerr p)
  | (false, p') => p' = p /\ tok_type (peek p) <> type
  end.
Proof.
  intros Hty. unfold match_. case_bool_decide as E; simpl; [|done].
  split; [|done]. apply peek_token. congruence.
Qed.

Lemma match_any_spec types p :
  TokenType.EOF_TOKEN ∉ types ->
  match match_any types p with
  | (true, p') =>
      tokens p !! current_pos p = Some (peek p) /\ tok_type (peek p) ∈ types /\
      p' = mk (tokens p) (S (current_pos p)) (cerr p)
  | (false, p') => p' = p /\ tok_type (peek p) ∉ types
  end.
Proof.
  induction types as [|type types IH]; intros Hty; simpl.
  - split; [done|]. apply not_elem_of_nil.
  - apply not_elem_of_cons in Hty as [Hne Hty].
    pose proof (match_spec type p (not_eq_sym Hne)) as M.
    destruct (match_ type p) as [[] p1].
    + destruct M as (L & T & ->). split; [done|]. split; [|done].
      rewrite T. apply list_elem_of_here.
    + destruct M as [-> Hn]. specialize (IH Hty).
      destruct (match_any types p) as [[] p2].
      * destruct IH as (L & T & ->). split; [done|]. split; [|done].
        by apply list_elem_of_further.
      * destruct IH as [-> Hn']. split; [done|].
        apply not_elem_of_cons. done.
Qed.

(** [consume] takes the token it expects, or writes an error line, stays
    where it is and returns an [EOF_TOKEN]. *)
Lemma consume_spec type message p :
  match consume type message p with
  | (token, p') =>
      (tok_type (peek p) = type /\ token = peek p /\
       p' = mk (tokens p) (S (current_pos p)) (cerr p))
      \/ (tok_type (peek p) <> type /\
          tok_type token = TokenType.EOF_TOKEN /\
          p' = report (ConsumeError message (tok_line (peek p))
                         (tok_column (peek p))) p)
  end.
Proof.
  unfold consume. case_bool_decide as E; simpl; [by left|by right].
Qed.

Lemma follows_advance p : follows p (mk (tokens p) (S (current_pos p)) (cerr p)).
Proof. split; simpl; [done|lia]. Qed.

Lemma consume_follows type message p :
  follows p (consume type message p).2.
Proof.
  pose proof (consume_spec type message p) as H.
  destruct (consume type message p) as [token p']. simpl.
  destruct H as [(_ & _ & ->)|(_ & _ & ->)];
    [apply follows_advance|apply follows_report].
Qed.

#[local] Arguments match_any : simpl never.
#[local] Arguments match_ : simpl never.
#[local] Arguments consume : simpl never.
#[local] Arguments peek : simpl never.
#[local] Arguments report : simpl never.
#[local] Arguments binary_level : simpl never.

Lemma remaining_advance p token :
  tokens p !! current_pos p = Some token ->
  (remaining (mk (tokens p) (S (current_pos p)) (cerr p)) < remaining p)%nat.
Proof. intros H%lookup_lt_Some. unfold remaining. simpl. lia. Qed.

Lemma previous_advance p :
  previous (mk (tokens p) (S (current_pos p)) (cerr p))
  = tokens p !! current_pos p.
Proof. reflexivity. Qed.

(** [follows] and [complained] along the facts at hand. *)
Ltac chain :=
  match goal with
  | |- follows ?a ?a => apply follows_refl
  | H : follows ?a ?b |- follows ?a ?b => exact H
  | H : follows ?b ?c |- follows ?a ?c =>
      apply (follows_trans a b c); [chain|exact H]
  end.

Ltac complaint :=
  match goal with
  | H : complained ?b ?c |- complained ?a ?d =>
      apply (complained_before a c d);
        [apply (complained_after a b c); [chain|exact H]|chain]
  end.

(** Every parser state at hand has the tokens of the first. *)
Ltac retoken :=
  repeat match goal with
         | H : follows ?a ?b |- _ =>
             let E := fresh "E" in
             pose proof (proj1 H) as E;
             first [progress (rewrite E in * |-); try rewrite E; clear E
                   |progress (rewrite E); clear E]
         end.

Lemma drawn_lookup p token :
  tokens p !! current_pos p = Some token -> drawn (tokens p) token = true.
Proof.
  intros L. apply bool_decide_eq_true. by eapply list_elem_of_lookup_2.
Qed.

(** Positions and error counts, from the [follows] facts at hand. *)
Ltac positions :=
  unfold complained in *;
  repeat match goal with
         | H : follows _ _ |- _ => destruct H as (_ & ? & ?)
         end;
  repeat match goal with x := _ |- _ => subst x end;
  rewrite ?report_length in *; simpl in *; try lia.

(** The operator loop of a precedence level. *)
Lemma binary_loop_returns types operand r :
  TokenType.EOF_TOKEN ∉ types ->
  (forall type, type ∈ types -> binary_operator type = true) ->
  (forall p, (remaining p < r)%nat -> returns_expression operand p) ->
  forall n expr p,
    (remaining p <= r)%nat -> (remaining p < n)%nat ->
    (forall e', expr = Some e' -> parsed_expression (tokens p) e' = true) ->
    exists e p',
      binary_loop types operand n expr p = Ret e p' /\ follows p p' /\
      match e with
      | Some e' => parsed_expression (tokens p) e' = true /\ is_Some expr
      | None => expr = None \/ complained p p'
      end.
Proof.
  intros Heof Hops Hoperand.
  induction n as [|n IH]; intros expr p Hr Hn Hexpr; [lia|].
  simpl. pose proof (match_any_spec types p Heof) as M.
  destruct (match_any types p) as [[] p1].
  - destruct M as (L & T & ->). rewrite previous_advance, L.
    pose proof (remaining_advance p _ L) as Hlt.
    pose proof (follows_advance p) as F1.
    set (p1 := mk (tokens p) (S (current_pos p)) (cerr p)) in *.
    destruct (Hoperand p1) as (right & p2 & -> & F & Hright); [lia|]. simpl.
    pose proof (follows_remaining _ _ F) as Hle.
    assert (F2 : follows p p2) by chain.
    destruct right as [rr|].
    2:{ exists None, p2. destruct expr; (split; [done|]); (split; [done|]);
          right; complaint. }
    destruct expr as [l|];
      [|exists None, p2; split; [done|]; split; [done|]; by left].
    destruct Hright as [Hrr _].
    destruct (IH (Some (BinaryExpression l (peek p) rr)) p2)
      as (e & p' & -> & F' & He); try lia.
    + intros e' [= <-]. pose proof (Hexpr l eq_refl) as Hl.
      pose proof (drawn_lookup p _ L) as Hd. retoken. simpl.
      by rewrite Hd, (Hops _ T), Hl, Hrr.
    + exists e, p'. split; [done|].
      split; [chain|].
      destruct e as [e'|].
      * destruct He as [He _]. split; [|done]. by retoken.
      * destruct He as [?|He]; [done|]. right. complaint.
  - destruct M as [-> _]. exists expr, p. split; [done|].
    split; [apply follows_refl|].
    destruct expr as [e'|]; [|by left]. split; [by apply Hexpr|done].
Qed.

Lemma binary_level_returns types operand r n :
  TokenType.EOF_TOKEN ∉ types ->
  (forall type, type ∈ types -> binary_operator type = true) ->
  (forall p, (remaining p <= r)%nat -> returns_expression operand p) ->
  (r < n)%nat ->
  forall p, (remaining p <= r)%nat ->
            returns_expression (binary_level types operand n) p.
Proof.
  intros Heof Hops Hoperand Hn p Hr.
  destruct (Hoperand p Hr) as (e0 & p1 & Eq & F & H0).
  unfold returns_expression, binary_level. rewrite Eq. simpl.
  pose proof (follows_remaining _ _ F) as Hle.
  destruct (binary_loop_returns types operand r Heof Hops) with
    (n := n) (expr := e0) (p := p1) as (e & p' & -> & F' & He); try lia.
  - intros p0 Hp0. apply Hoperand. lia.
  - intros e' ->. destruct H0 as [H0 _]. by retoken.
  - exists e, p'. split; [done|]. split; [chain|].
    destruct e as [e'|].
    + destruct He as [Hp [e0' ->]]. split; [by retoken|].
      destruct H0 as [_ Hlt]. positions.
    + destruct He as [->|He].
      * complaint.
      * complaint.
Qed.

Ltac no_eof :=
  rewrite ?not_elem_of_cons; repeat split; try done; apply not_elem_of_nil.

Ltac member H :=
  repeat (apply elem_of_cons in H as [H|H]; [try rewrite H; try done|]);
  try by apply elem_of_nil in H.

Lemma primary_returns fuel r :
  (forall p, (remaining p < r)%nat -> returns_expression (expression fuel) p) ->
  forall p, (remaining p <= r)%nat -> returns_expression (primary (S fuel)) p.
Proof.
  intros Hexpr p Hr. unfold returns_expression. simpl.
  pose proof (match_any_spec [TokenType.INT_LITERAL; TokenType.FLOAT_LITERAL;
                              TokenType.STRING_LITERAL] p) as M1.
  destruct (match_any _ p) as [[] p1].
  { destruct M1 as (L & T & ->); [no_eof|]. rewrite previous_advance, L.
    eexists _, _. split; [done|]. split; [apply follows_advance|].
    split; [|simpl; lia]. simpl. rewrite (drawn_lookup p _ L). by member T. }
  clear M1.
  pose proof (match_any_spec [TokenType.TRUE; TokenType.FALSE] p) as M2.
  destruct (match_any _ p) as [[] p2].
  { destruct M2 as (L & T & ->); [no_eof|]. rewrite previous_advance, L.
    eexists _, _. split; [done|]. split; [apply follows_advance|].
    split; [|simpl; lia]. simpl. rewrite (drawn_lookup p _ L). by member T. }
  clear M2.
  pose proof (match_spec TokenType.IDENTIFIER p) as M3.
  destruct (match_ _ p) as [[] p3].
  { destruct M3 as (L & T & ->); [done|]. rewrite previous_advance, L.
    eexists _, _. split; [done|]. split; [apply follows_advance|].
    split; [|simpl; lia]. simpl. by rewrite (drawn_lookup p _ L), T. }
  clear M3.
  pose proof (match_spec TokenType.LPAREN p) as M4.
  destruct (match_ _ p) as [[] p4].
  - destruct M4 as (L & T & ->); [done|].
    pose proof (remaining_advance p _ L) as Hlt.
    pose proof (follows_advance p) as F1.
    set (p1' := mk (tokens p) (S (current_pos p)) (cerr p)) in *.
    destruct (Hexpr p1') as (e & p5 & -> & F & He); [lia|]. simpl.
    assert (F5 : follows p p5) by chain.
    pose proof (match_spec TokenType.RPAREN p5) as M5.
    destruct (match_ _ p5) as [[] p6].
    + destruct M5 as (L5 & T5 & ->); [done|].
      eexists _, _. split; [done|].
      split; [eapply follows_trans; [exact F5|apply follows_advance]|].
      destruct e as [e'|].
      * destruct He as [Hp Hlt']. split; [by retoken|]. positions.
      * positions.
    + destruct M5 as [-> _]; [done|].
      eexists _, _. split; [done|].
      split; [eapply follows_trans; [exact F5|apply follows_report]|].
      eapply complained_after; [exact F5|apply complained_report].
  - eexists _, _. split; [done|]. split; [apply follows_report|].
    apply complained_report.
Qed.

Lemma unary_returns fuel r :
  (forall p, (remaining p < r)%nat -> returns_expression (unary fuel) p) ->
  (forall p, (remaining p <= r)%nat -> returns_expression (primary fuel) p) ->
  forall p, (remaining p <= r)%nat -> returns_expression (unary (S fuel)) p.
Proof.
  intros Hunary Hprimary p Hr. unfold returns_expression. simpl.
  pose proof (match_any_spec [TokenType.BANG; TokenType.MINUS] p) as M.
  destruct (match_any _ p) as [[] p1].
  - destruct M as (L & T & ->); [no_eof|]. rewrite previous_advance, L.
    pose proof (remaining_advance p _ L) as Hlt.
    pose proof (follows_advance p) as F1.
    set (p1 := mk (tokens p) (S (current_pos p)) (cerr p)) in *.
    destruct (Hunary p1) as (right & p2 & -> & F & Hright); [lia|]. simpl.
    assert (F2 : follows p p2) by chain.
    destruct right as [rr|].
    + eexists _, _. split; [done|]. split; [done|].
      destruct Hright as [Hp Hlt'].
      split; [|positions]. pose proof (drawn_lookup p _ L) as Hd.
      retoken. simpl. rewrite Hd. by member T.
    + eexists _, _. split; [done|]. split; [done|].
      complaint.
  - destruct M as [_ _]; [no_eof|]. by apply Hprimary.
Qed.

Lemma assignment_returns fuel r :
  (forall p, (remaining p <= r)%nat -> returns_expression (logical_or fuel) p) ->
  (forall p, (remaining p < r)%nat -> returns_expression (assignment fuel) p) ->
  forall p, (remaining p <= r)%nat -> returns_expression (assignment (S fuel)) p.
Proof.
  intros Hor Hassign p Hr.
  destruct (Hor p Hr) as (e0 & p1 & Eq & F & H0).
  unfold returns_expression. simpl. rewrite Eq. simpl.
  pose proof (follows_remaining _ _ F) as Hle.
  pose proof (match_spec TokenType.ASSIGN p1) as M.
  destruct (match_ _ p1) as [[] p2].
  - destruct M as (L & T & ->); [done|]. rewrite previous_advance, L.
    pose proof (remaining_advance p1 _ L) as Hlt.
    pose proof (follows_advance p1) as F1.
    set (p2 := mk (tokens p1) (S (current_pos p1)) (cerr p1)) in *.
    assert (F2 : follows p p2) by chain.
    destruct e0 as [[| |identifier| | |]|];
      try (eexists _, _; split; [done|]; split;
           [eapply follows_trans; [exact F2|apply follows_report]
           |eapply complained_after; [exact F2|apply complained_report]]).
    destruct (Hassign p2) as (value & p3 & -> & F3 & Hv); [lia|]. simpl.
    assert (F' : follows p p3) by chain.
    destruct value as [v|].
    + eexists _, _. split; [done|]. split; [done|].
      destruct Hv as [Hp Hlt']. destruct H0 as [Hid _]. simpl in Hid.
      split; [retoken; simpl; by rewrite Hid, Hp|]. positions.
    + eexists _, _. split; [done|]. split; [done|].
      complaint.
  - destruct M as [-> _]; [done|]. by exists e0, p1.
Qed.

(** Every parsing function for expressions returns when it may nest
    calls ten deep for each token that is left, and a few more. *)
Lemma expression_levels r :
  (forall fuel p, (10 * r + 1 <= fuel)%nat -> (remaining p <= r)%nat ->
                  returns_expression (primary fuel) p) /\
  (forall fuel p, (10 * r + 2 <= fuel)%nat -> (remaining p <= r)%nat ->
                  returns_expression (unary fuel) p) /\
  (forall fuel p, (10 * r + 3 <= fuel)%nat -> (remaining p <= r)%nat ->
                  returns_expression (factor fuel) p) /\
  (forall fuel p, (10 * r + 4 <= fuel)%nat -> (remaining p <= r)%nat ->
                  returns_expression (term fuel) p) /\
  (forall fuel p, (10 * r + 5 <= fuel)%nat -> (remaining p <= r)%nat ->
                  returns_expression (comparison fuel) p) /\
  (forall fuel p, (10 * r + 6 <= fuel)%nat -> (remaining p <= r)%nat ->
                  returns_expression (logical_and fuel) p) /\
  (forall fuel p, (10 * r + 7 <= fuel)%nat -> (remaining p <= r)%nat ->
                  returns_expression (logical_or fuel) p) /\
  (forall fuel p, (10 * r + 8 <= fuel)%nat -> (remaining p <= r)%nat ->
                  returns_expression (assignment fuel) p) /\
  (forall fuel p, (10 * r + 9 <= fuel)%nat -> (remaining p <= r)%nat ->
                  returns_expression (expression fuel) p).
Proof.
  induction r as [r IH] using (well_founded_induction lt_wf).
  assert (Hprimary : forall fuel p,
    (10 * r + 1 <= fuel)%nat -> (remaining p <= r)%nat ->
    returns_expression (primary fuel) p).
  { intros [|fuel] p Hf Hr; [lia|].
    apply primary_returns with (r := r); [|done].
    intros p' Hp'.
    destruct (IH (remaining p')) as (_ & _ & _ & _ & _ & _ & _ & _ & He);
      [lia|]. apply He; lia. }
  assert (Hunary : forall fuel p,
    (10 * r + 2 <= fuel)%nat -> (remaining p <= r)%nat ->
    returns_expression (unary fuel) p).
  { intros [|fuel] p Hf Hr; [lia|].
    apply unary_returns with (r := r); [| |done].
    - intros p' Hp'.
      destruct (IH (remaining p')) as (_ & Hu & _); [lia|]. apply Hu; lia.
    - intros p' Hp'. apply Hprimary; lia. }
  assert (Hfactor : forall fuel p,
    (10 * r + 3 <= fuel)%nat -> (remaining p <= r)%nat ->
    returns_expression (factor fuel) p).
  { intros [|fuel] p Hf Hr; [lia|]. simpl.
    apply binary_level_returns with (r := r); try done; try lia.
    - no_eof.
    - intros type H. by member H.
    - intros p' Hp'. apply Hunary; lia. }
  assert (Hterm : forall fuel p,
    (10 * r + 4 <= fuel)%nat -> (remaining p <= r)%nat ->
    returns_expression (term fuel) p).
  { intros [|fuel] p Hf Hr; [lia|]. simpl.
    apply binary_level_returns with (r := r); try done; try lia.
    - no_eof.
    - intros type H. by member H.
    - intros p' Hp'. apply Hfactor; lia. }
  assert (Hcomparison : forall fuel p,
    (10 * r + 5 <= fuel)%nat -> (remaining p <= r)%nat ->
    returns_expression (comparison fuel) p).
  { intros [|fuel] p Hf Hr; [lia|]. simpl.
    apply binary_level_returns with (r := r); try done; try lia.
    - unfold comparison_operators. no_eof.
    - intros type H. unfold comparison_operators in H. by member H.
    - intros p' Hp'. apply Hterm; lia. }
  assert (Hand : forall fuel p,
    (10 * r + 6 <= fuel)%nat -> (remaining p <= r)%nat ->
    returns_expression (logical_and fuel) p).
  { intros [|fuel] p Hf Hr; [lia|]. simpl.
    apply binary_level_returns with (r := r); try done; try lia.
    - no_eof.
    - intros type H. by member H.
    - intros p' Hp'. apply Hcomparison; lia. }
  assert (Hor : forall fuel p,
    (10 * r + 7 <= fuel)%nat -> (remaining p <= r)%nat ->
    returns_expression (logical_or fuel) p).
  { intros [|fuel] p Hf Hr; [lia|]. simpl.
    apply binary_level_returns with (r := r); try done; try lia.
    - no_eof.
    - intros type H. by member H.
    - intros p' Hp'. apply Hand; lia. }
  assert (Hassign : forall fuel p,
    (10 * r + 8 <= fuel)%nat -> (remaining p <= r)%nat ->
    returns_expression (assignment fuel) p).
  { intros [|fuel] p Hf Hr; [lia|].
    apply assignment_returns with (r := r); [| |done].
    - intros p' Hp'. apply Hor; lia.
    - intros p' Hp'.
      destruct (IH (remaining p')) as (_ & _ & _ & _ & _ & _ & _ & Ha & _);
        [lia|]. apply Ha; lia. }
  repeat (split; [assumption|]).
  intros [|fuel] p Hf Hr; [lia|]. simpl. apply Hassign; lia.
Qed.

Lemma expression_returns fuel p :
  (10 * remaining p + 9 <= fuel)%nat -> returns_expression (expression fuel) p.
Proof.
  intros Hf.
  destruct (expression_levels (remaining p))
    as (_ & _ & _ & _ & _ & _ & _ & _ & He).
  by apply He.
Qed.

Lemma consume_matching type message p :
  tok_type (peek p) = type ->
  consume type message p = (peek p, mk (tokens p) (S (current_pos p)) (cerr p)).
Proof. intros E. unfold consume. by rewrite bool_decide_true. Qed.

Lemma returns_node_weaken f p : returns_node true f p -> returns_node false f p.
Proof.
  intros (node & p' & E & F & H). exists node, p'. split; [done|].
  split; [done|]. destruct node; [|done]. destruct H. by split.
Qed.

(** The statement loop of [block] and of [parse]. *)
Lemma statements_loop_returns stop statement r :
  TokenType.EOF_TOKEN ∈ stop ->
  (forall p, (remaining p <= r)%nat -> returns_node true statement p) ->
  forall n statements p,
    (remaining p <= r)%nat -> (remaining p < n)%nat ->
    forallb (parsed_node (tokens p)) statements = true ->
    exists l p',
      statements_loop stop statement n statements p = Ret l p' /\
      follows p p' /\
      match l with
      | Some nodes =>
          forallb (parsed_node (tokens p)) nodes = true /\
          (length statements <= length nodes)%nat /\
          (tok_type (peek p) ∉ stop -> (length statements < length nodes)%nat)
          /\ tok_type (peek p') ∈ stop
      | None => complained p p'
      end.
Proof.
  intros Heof Hstatement.
  induction n as [|n IH]; intros statements p Hr Hn Hall; [lia|].
  simpl. case_bool_decide as Hstop.
  { exists (Some statements), p. split; [done|]. split; [apply follows_refl|].
    split; [done|]. split; [lia|]. split; [done|done]. }
  destruct (Hstatement p Hr) as (node & p1 & -> & F & Hnode). simpl.
  destruct node as [s|];
    [|exists None, p1; split; [done|]; split; [done|done]].
  destruct Hnode as [Hs Hlt]. specialize (Hlt eq_refl).
  assert (Hrem : (remaining p1 < remaining p)%nat).
  { assert (tok_type (peek p) <> TokenType.EOF_TOKEN) as Hne
      by (intros E; by rewrite E in Hstop).
    pose proof (lookup_lt_Some _ _ _ (peek_token p Hne)) as Hbound.
    destruct F as (Ft & Fp & _). unfold remaining. rewrite Ft. lia. }
  destruct (IH (statements ++ [s]) p1) as (l & p' & -> & F' & Hl); try lia.
  { retoken. rewrite forallb_app, Hall. simpl. by rewrite Hs. }
  exists l, p'. split; [done|]. split; [chain|].
  destruct l as [nodes|]; [|complaint].
  destruct Hl as (Hp & Hlen & _ & Hend).
  rewrite length_app in Hlen. simpl in Hlen.
  split; [by retoken|]. split; [lia|]. split; [|done]. intros _. lia.
Qed.

Lemma parseVariableDeclaration_returns fuel p :
  (10 * remaining p + 9 <= fuel)%nat ->
  tok_type (peek p) = TokenType.VAR ->
  returns_node true (parseVariableDeclaration fuel) p.
Proof.
  intros Hf Hvar. unfold returns_node, parseVariableDeclaration.
  rewrite (consume_matching _ _ p Hvar).
  pose proof (follows_advance p) as F1.
  set (p1 := mk (tokens p) (S (current_pos p)) (cerr p)) in *.
  pose proof (consume_spec TokenType.IDENTIFIER
                "Expected identifier after 'var'" p1) as C.
  destruct (consume _ _ p1) as [identifier p2].
  destruct C as [(T & -> & ->)|(_ & T & ->)].
  2:{ rewrite bool_decide_true by done. eexists _, _. split; [done|].
      split; [eapply follows_trans; [exact F1|apply follows_report]|].
      eapply complained_after; [exact F1|apply complained_report]. }
  rewrite bool_decide_false by (by rewrite T).
  assert (Hid : tok_type (peek p1) <> TokenType.EOF_TOKEN) by (by rewrite T).
  pose proof (follows_advance p1) as F12.
  set (p2 := mk (tokens p1) (S (current_pos p1)) (cerr p1)) in *.
  assert (F2 : follows p p2) by chain.
  pose proof (match_spec TokenType.ASSIGN p2) as M.
  destruct (match_ _ p2) as [[] p3].
  - destruct M as (L & _ & ->); [done|].
    pose proof (follows_advance p2) as F23.
    set (p3 := mk (tokens p2) (S (current_pos p2)) (cerr p2)) in *.
    assert (F3 : follows p p3) by chain.
    pose proof (follows_remaining _ _ F3) as Hle.
    destruct (expression_returns fuel p3) as (init & p4 & -> & F4 & Hinit);
      [lia|]. simpl.
    assert (F' : follows p p4) by chain.
    destruct init as [init|];
      [|eexists _, _; split; [done|]; split; [done|];
        complaint].
    pose proof (consume_follows TokenType.SEMICOLON
                  "Expected ';' after variable declaration" p4) as F5.
    destruct (consume _ _ p4) as [? p5]. simpl in F5.
    eexists _, _. split; [done|]. split; [chain|].
    destruct Hinit as [Hp _].
    pose proof (drawn_lookup p1 _ (peek_token p1 Hid)) as Hd.
    split; [retoken; simpl; by rewrite Hd, T, Hp|]. intros _. positions.
  - destruct M as [-> _]; [done|].
    pose proof (consume_follows TokenType.SEMICOLON
                  "Expected ';' after variable declaration" p2) as F5.
    destruct (consume _ _ p2) as [? p5]. simpl in F5.
    eexists _, _. split; [done|]. split; [chain|].
    pose proof (drawn_lookup p1 _ (peek_token p1 Hid)) as Hd.
    split; [retoken; simpl; by rewrite Hd, T|]. intros _. positions.
Qed.

Lemma parsePrintStatement_returns fuel p :
  (10 * remaining p + 9 <= fuel)%nat ->
  tok_type (peek p) = TokenType.PRINT ->
  returns_node true (parsePrintStatement fuel) p.
Proof.
  intros Hf Hprint. unfold returns_node, parsePrintStatement.
  rewrite (consume_matching _ _ p Hprint).
  pose proof (follows_advance p) as F1.
  set (p1 := mk (tokens p) (S (current_pos p)) (cerr p)) in *.
  pose proof (consume_follows TokenType.LPAREN
                "Expected '(' after 'print'" p1) as F2.
  destruct (consume _ _ p1) as [? p2]. simpl in F2.
  assert (F2' : follows p p2) by chain.
  pose proof (follows_remaining _ _ F2') as Hle.
  destruct (expression_returns fuel p2) as (e & p3 & -> & F3 & He); [lia|].
  simpl.
  assert (F3' : follows p p3) by chain.
  destruct e as [e|];
    [|eexists _, _; split; [done|]; split; [done|];
      complaint].
  pose proof (consume_follows TokenType.RPAREN
                "Expected ')' after print expression" p3) as F4.
  destruct (consume _ _ p3) as [? p4]. simpl in F4.
  pose proof (consume_follows TokenType.SEMICOLON
                "Expected ';' after print statement" p4) as F5.
  destruct (consume _ _ p4) as [? p5]. simpl in F5.
  eexists _, _. split; [done|].
  split; [eapply follows_trans; [exact F3'|chain]|].
  destruct He as [Hp _]. split; [by retoken|]. intros _. positions.
Qed.

Lemma block_returns fuel r :
  (forall p, (remaining p <= r)%nat ->
             returns_node true (parseStatement fuel) p) ->
  (r < fuel)%nat ->
  forall p, (remaining p <= r)%nat -> returns_node false (block (S fuel)) p.
Proof.
  intros Hstatement Hf p Hr. unfold returns_node. simpl.
  pose proof (consume_follows TokenType.LBRACE
                "Expected '{' to start a block" p) as F1.
  destruct (consume _ _ p) as [? p1]. simpl in F1.
  pose proof (follows_remaining _ _ F1) as Hle.
  destruct (statements_loop_returns
              [TokenType.RBRACE; TokenType.EOF_TOKEN]
              (parseStatement fuel) r) with
    (n := fuel) (statements := @nil ASTNode) (p := p1)
    as (l & p2 & -> & F2 & Hl); try done; try lia.
  { apply list_elem_of_further, list_elem_of_here. }
  simpl.
  assert (F2' : follows p p2) by chain.
  destruct l as [nodes|];
    [|eexists _, _; split; [done|]; split; [done|];
      complaint].
  pose proof (consume_follows TokenType.RBRACE
                "Expected '}' to end a block" p2) as F3.
  destruct (consume _ _ p2) as [? p3]. simpl in F3.
  eexists _, _. split; [done|]. split; [chain|].
  destruct Hl as [Hl _]. split; [by retoken|done].
Qed.

Lemma parseIfStatement_returns fuel r :
  (10 * r + 9 <= fuel)%nat ->
  (forall p, (remaining p < r)%nat -> returns_node false (block fuel) p) ->
  (forall p, (remaining p < r)%nat ->
             tok_type (peek p) = TokenType.IF ->
             returns_node true (parseIfStatement fuel) p) ->
  forall p, (remaining p <= r)%nat -> tok_type (peek p) = TokenType.IF ->
            returns_node true (parseIfStatement (S fuel)) p.
Proof.
  intros Hf Hblock Hif p Hr Hpeek. unfold returns_node. simpl.
  rewrite (consume_matching _ _ p Hpeek).
  assert (Hne : tok_type (peek p) <> TokenType.EOF_TOKEN) by (by rewrite Hpeek).
  pose proof (remaining_advance p _ (peek_token p Hne)) as Hlt.
  pose proof (follows_advance p) as F1.
  set (p1 := mk (tokens p) (S (current_pos p)) (cerr p)) in *.
  pose proof (consume_follows TokenType.LPAREN
                "Expected '(' after 'if'" p1) as F2.
  destruct (consume _ _ p1) as [? p2]. simpl in F2.
  pose proof (follows_remaining _ _ F2) as Hle2.
  destruct (expression_returns fuel p2) as (cond & p3 & -> & F3 & Hc); [lia|].
  simpl.
  pose proof (follows_remaining _ _ F3) as Hle3.
  assert (F2' : follows p p2) by chain.
  assert (F3' : follows p p3) by chain.
  destruct cond as [cond|];
    [|eexists _, _; split; [done|]; split; [done|];
      complaint].
  destruct Hc as [Hcond _].
  pose proof (consume_follows TokenType.RPAREN
                "Expected ')' after if condition" p3) as F4.
  destruct (consume _ _ p3) as [? p4]. simpl in F4.
  pose proof (follows_remaining _ _ F4) as Hle4.
  assert (F4' : follows p p4) by chain.
  destruct (Hblock p4) as (thenBranch & p5 & -> & F5 & Ht); [lia|]. simpl.
  pose proof (follows_remaining _ _ F5) as Hle5.
  assert (F5' : follows p p5) by chain.
  assert (Hprogress : (current_pos p < current_pos p5)%nat).
  { clear Hlt Hle2 Hle3 Hle4 Hle5 Ht. positions. }
  destruct thenBranch as [thenNode|];
    [|eexists _, _; split; [done|]; split; [done|];
      complaint].
  destruct Ht as [Hthen _].
  pose proof (match_spec TokenType.ELSE p5) as M.
  destruct (match_ _ p5) as [[] p6].
  - destruct M as (L & _ & ->); [done|].
    pose proof (remaining_advance p5 _ L) as Hlt6.
    pose proof (follows_advance p5) as F56.
    set (p6 := mk (tokens p5) (S (current_pos p5)) (cerr p5)) in *.
    assert (F6 : follows p p6) by chain.
    assert (Helse : returns_node false
              (fun p => if bool_decide (tok_type (peek p6) = TokenType.IF)
                        then parseIfStatement fuel p else block fuel p) p6).
    { case_bool_decide as E.
      - apply returns_node_weaken. apply Hif; [lia|done].
      - apply Hblock. lia. }
    destruct Helse as (elseBranch & p7 & -> & F7 & He). simpl.
    assert (F7' : follows p p7) by chain.
    destruct elseBranch as [elseNode|];
      [|eexists _, _; split; [done|]; split; [done|];
        complaint].
    destruct He as [Helse _].
    eexists _, _. split; [done|]. split; [done|].
    split; [retoken; simpl; by rewrite Hcond, Hthen, Helse|].
    intros _. positions.
  - destruct M as [-> _]; [done|].
    eexists _, _. split; [done|]. split; [done|].
    split; [retoken; simpl; by rewrite Hcond, Hthen|done].
Qed.

Lemma parseStatement_returns fuel r :
  (10 * r + 9 <= fuel)%nat ->
  (forall p, (remaining p <= r)%nat ->
             tok_type (peek p) = TokenType.IF ->
             returns_node true (parseIfStatement fuel) p) ->
  forall p, (remaining p <= r)%nat ->
            returns_node true (parseStatement (S fuel)) p.
Proof.
  intros Hf Hif p Hr. unfold returns_node. simpl.
  case_bool_decide as Evar.
  { apply (parseVariableDeclaration_returns fuel p); [lia|done]. }
  case_bool_decide as Eif.
  { by apply (Hif p). }
  case_bool_decide as Eprint.
  { apply (parsePrintStatement_returns fuel p); [lia|done]. }
  destruct (expression_returns fuel p) as (e & p1 & -> & F1 & He); [lia|].
  simpl.
  destruct e as [e|]; [|eexists _, _; split; [done|]; split; [done|done]].
  destruct He as [Hp Hlt].
  pose proof (consume_follows TokenType.SEMICOLON
                "Expected ';' after expression statement" p1) as F2.
  destruct (consume _ _ p1) as [? p2]. simpl in F2.
  eexists _, _. split; [done|]. split; [chain|].
  split; [done|]. intros _. destruct F2 as (_ & ? & _). lia.
Qed.

Lemma statement_levels r :
  (forall fuel p, (10 * r + 11 <= fuel)%nat -> (remaining p <= r)%nat ->
                  tok_type (peek p) = TokenType.IF ->
                  returns_node true (parseIfStatement fuel) p) /\
  (forall fuel p, (10 * r + 12 <= fuel)%nat -> (remaining p <= r)%nat ->
                  returns_node true (parseStatement fuel) p) /\
  (forall fuel p, (10 * r + 13 <= fuel)%nat -> (remaining p <= r)%nat ->
                  returns_node false (block fuel) p).
Proof.
  induction r as [r IH] using (well_founded_induction lt_wf).
  assert (Hif : forall fuel p,
    (10 * r + 11 <= fuel)%nat -> (remaining p <= r)%nat ->
    tok_type (peek p) = TokenType.IF ->
    returns_node true (parseIfStatement fuel) p).
  { intros [|fuel] p Hf Hr Hpeek; [lia|].
    apply parseIfStatement_returns with (r := r); try done; try lia.
    - intros p' Hp'.
      destruct (IH (remaining p')) as (_ & _ & Hb); [lia|]. apply Hb; lia.
    - intros p' Hp' Hpeek'.
      destruct (IH (remaining p')) as (Hi & _); [lia|]. apply Hi; [lia|lia|done]. }
  assert (Hstatement : forall fuel p,
    (10 * r + 12 <= fuel)%nat -> (remaining p <= r)%nat ->
    returns_node true (parseStatement fuel) p).
  { intros [|fuel] p Hf Hr; [lia|].
    apply parseStatement_returns with (r := r); try done; try lia.
    intros p' Hp' Hpeek'. apply Hif; [lia|done|done]. }
  split; [done|]. split; [done|].
  intros [|fuel] p Hf Hr; [lia|].
  apply block_returns with (r := r); try done; try lia.
  intros p' Hp'. apply Hstatement; lia.
Qed.

(** [parse] returns whenever it may nest calls [depth] deep, and then
    with a tree of the parser, or with null and an error line, or with
    null because no statement precedes the end of the input. *)
Lemma parse_within_returns fuel p :
  (depth (remaining p) <= fuel)%nat ->
  exists ast p',
    parse_within fuel p = Ret ast p' /\ follows p p' /\
    match ast with
    | Some node =>
        parsed_node (tokens p) node = true /\
        tok_type (peek p') = TokenType.EOF_TOKEN
    | None =>
        complained p p' \/ tok_type (peek p) = TokenType.EOF_TOKEN
    end.
Proof.
  unfold parse_within, depth. intros Hf.
  destruct (statement_levels (remaining p)) as (_ & Hstatement & _).
  destruct (statements_loop_returns [TokenType.EOF_TOKEN]
              (parseStatement fuel) (remaining p)) with
    (n := fuel) (statements := @nil ASTNode) (p := p)
    as (l & p' & -> & F & Hl); try done; try lia.
  { apply list_elem_of_here. }
  { intros p0 Hp0. apply Hstatement; lia. }
  simpl. destruct l as [[|first [|second rest]]|];
    eexists _, _; (split; [done|]); (split; [done|]).
  - right. destruct Hl as (_ & _ & Hl & _).
    destruct (decide (tok_type (peek p) = TokenType.EOF_TOKEN)) as [|Hne];
      [done|].
    exfalso. simpl in Hl. enough (0 < 0)%nat by lia. apply Hl.
    rewrite not_elem_of_cons. split; [done|apply not_elem_of_nil].
  - destruct Hl as (Hl & _ & _ & Hend).
    apply list_elem_of_singleton in Hend. split; [|done].
    simpl in Hl. by apply andb_prop in Hl as [? _].
  - destruct Hl as (Hl & _ & _ & Hend).
    apply list_elem_of_singleton in Hend. by split.
  - by left.
Qed.

(** *** A larger bound on the depth changes no result *)

Lemma bind_refines {A B} (f g : t -> Result A) (k k' : A -> t -> Result B) p :
  refines f g -> (forall a, refines (k a) (k' a)) ->
  forall b p', bind (f p) k = Ret b p' -> bind (g p) k' = Ret b p'.
Proof.
  intros Hf Hk b p' H. destruct (f p) as [a p1| |] eqn:E; try done.
  rewrite (Hf _ _ _ E). simpl in *. by apply Hk.
Qed.

Lemma bind_refines_same {A B} (f g : t -> Result A) (k : A -> t -> Result B) p :
  refines f g ->
  forall b p', bind (f p) k = Ret b p' -> bind (g p) k = Ret b p'.
Proof. intros Hf. apply bind_refines; [done|]. by intros a p1 b p2. Qed.

Lemma binary_loop_refines types operand operand' :
  refines operand operand' ->
  forall n n' expr, (n <= n')%nat ->
    refines (binary_loop types operand n expr)
            (binary_loop types operand' n' expr).
Proof.
  intros Hop. induction n as [|n IH]; intros [|n'] expr Hle p a p' H;
    try done; try lia.
  simpl in *. destruct (match_any types p) as [[] p1]; [|done].
  destruct (previous p1); [|done].
  revert H. apply bind_refines; [done|].
  intros right p2 b p3 H. destruct expr, right; try done.
  revert H. apply IH. lia.
Qed.

Lemma binary_level_refines types operand operand' n n' :
  refines operand operand' -> (n <= n')%nat ->
  refines (binary_level types operand n) (binary_level types operand' n').
Proof.
  intros Hop Hle p a p'. unfold binary_level.
  apply bind_refines; [done|]. intros expr. by apply binary_loop_refines.
Qed.

Lemma expressions_refine fuel :
  forall fuel', (fuel <= fuel')%nat ->
    refines (primary fuel) (primary fuel') /\
    refines (unary fuel) (unary fuel') /\
    refines (factor fuel) (factor fuel') /\
    refines (term fuel) (term fuel') /\
    refines (comparison fuel) (comparison fuel') /\
    refines (logical_and fuel) (logical_and fuel') /\
    refines (logical_or fuel) (logical_or fuel') /\
    refines (assignment fuel) (assignment fuel') /\
    refines (expression fuel) (expression fuel').
Proof.
  induction fuel as [|fuel IH]; intros [|fuel'] Hle; try lia;
    try (repeat split; intros p a p' H; discriminate H).
  destruct (IH fuel') as
    (Hprimary & Hunary & Hfactor & Hterm & Hcomparison & Hand & Hor
     & Hassign & Hexpr); [lia|].
  assert (Hf : (fuel <= fuel')%nat) by lia.
  repeat split; try (by apply binary_level_refines).
  - intros p a p' H. simpl in *.
    destruct (match_any _ p) as [[] p1]; [done|].
    destruct (match_any _ p) as [[] p2]; [done|].
    destruct (match_ TokenType.IDENTIFIER p) as [[] p3]; [done|].
    destruct (match_ TokenType.LPAREN p) as [[] p4]; [|done].
    revert H. by apply bind_refines_same.
  - intros p a p' H. simpl in *.
    destruct (match_any _ p) as [[] p1]; [|by apply Hprimary].
    destruct (previous p1); [|done].
    revert H. by apply bind_refines_same.
  - intros p a p' H. simpl in *.
    revert H. apply bind_refines; [done|].
    intros expr p1 b p2 H.
    destruct (match_ TokenType.ASSIGN p1) as [[] p3]; [|done].
    destruct (previous p3); [|done].
    destruct expr as [[]|]; try done.
    revert H. by apply bind_refines_same.
  - intros p a p' H. simpl in *. by apply Hassign.
Qed.

Lemma statements_loop_refines stop statement statement' :
  refines statement statement' ->
  forall n n' statements, (n <= n')%nat ->
    refines (statements_loop stop statement n statements)
            (statements_loop stop statement' n' statements).
Proof.
  intros Hs. induction n as [|n IH]; intros [|n'] statements Hle p a p' H;
    try done; try lia.
  simpl in *. case_bool_decide; [done|].
  revert H. apply bind_refines; [done|].
  intros [s|] p1 b p2 H; [|done]. revert H. apply IH. lia.
Qed.

Lemma statements_refine fuel :
  forall fuel', (fuel <= fuel')%nat ->
    refines (parseStatement fuel) (parseStatement fuel') /\
    refines (parseIfStatement fuel) (parseIfStatement fuel') /\
    refines (block fuel) (block fuel').
Proof.
  induction fuel as [|fuel IH]; intros [|fuel'] Hle; try lia;
    try (repeat split; intros p a p' H; discriminate H).
  destruct (IH fuel') as (Hstatement & Hif & Hblock); [lia|].
  destruct (expressions_refine fuel fuel') as (_ & _ & _ & _ & _ & _ & _ & _ & Hexpr);
    [lia|].
  assert (Hf : (fuel <= fuel')%nat) by lia.
  repeat split.
  - intros p a p' H. simpl in *.
    case_bool_decide.
    { unfold parseVariableDeclaration in *.
      destruct (consume TokenType.VAR _ p) as [? p1].
      destruct (consume TokenType.IDENTIFIER _ p1) as [identifier p2].
      case_bool_decide; [done|].
      destruct (match_ TokenType.ASSIGN p2) as [[] p3]; [|done].
      revert H. by apply bind_refines_same. }
    case_bool_decide; [by apply Hif|].
    case_bool_decide.
    { unfold parsePrintStatement in *.
      destruct (consume TokenType.PRINT _ p) as [? p1].
      destruct (consume TokenType.LPAREN _ p1) as [? p2].
      revert H. by apply bind_refines_same. }
    revert H. by apply bind_refines_same.
  - intros p a p' H. simpl in *.
    destruct (consume TokenType.IF _ p) as [? p1].
    destruct (consume TokenType.LPAREN _ p1) as [? p2].
    revert H. apply bind_refines; [done|].
    intros [cond|] p3 b p4 H; [|done].
    destruct (consume TokenType.RPAREN _ p3) as [? p5].
    revert H. apply bind_refines; [done|].
    intros [thenNode|] p6 c p7 H; [|done].
    destruct (match_ TokenType.ELSE p6) as [[] p8]; [|done].
    revert H. case_bool_decide; by apply bind_refines_same.
  - intros p a p' H. simpl in *.
    destruct (consume TokenType.LBRACE _ p) as [? p1].
    revert H. apply bind_refines_same.
    by apply statements_loop_refines.
Qed.

Lemma parse_within_refines fuel fuel' :
  (fuel <= fuel')%nat -> refines (parse_within fuel) (parse_within fuel').
Proof.
  intros Hle p a p'. unfold parse_within.
  apply bind_refines_same.
  apply statements_loop_refines; [|done].
  by destruct (statements_refine fuel fuel') as (? & _).
Qed.

(** [parse] on a new parser. *)
Lemma parse_new_returns source :
  exists ast p,
    parse (new source) = Ret ast p /\ follows (new source) p /\
    match ast with
    | Some node =>
        parsed_node source node = true /\
        tok_type (peek p) = TokenType.EOF_TOKEN
    | None =>
        complained (new source) p
        \/ tok_type (peek (new source)) = TokenType.EOF_TOKEN
    end /\
    forall fuel, (depth (length source) <= fuel)%nat ->
      parse_within fuel (new source) = Ret ast p.
Proof.
  change (parse (new source))
    with (parse_within (depth (length source - 0)) (new source)).
  rewrite Nat.sub_0_r.
  destruct (parse_within_returns (depth (length source)) (new source))
    as (ast & p & H & F & Hast).
  { unfold remaining. cbn [tokens current_pos new]. by rewrite Nat.sub_0_r. }
  exists ast, p. split; [done|]. split; [done|]. split; [done|].
  intros fuel Hf. by eapply parse_within_refines.
Qed.
End Parsing.

(** ** The lexer returns *)

Section Lexing.
Import Lexer.

Lemma skipWhitespace_from_length s line column :
  (length (skipWhitespace_from s line column).1.1 <= length s)%nat.
Proof.
  revert line column. induction s as [|c s IH]; intros line column; simpl;
    [lia|].
  destruct (is_blank c); [specialize (IH line (column + 1)); lia|].
  destruct (Ascii.eqb c newline); [specialize (IH (line + 1) 1); lia|].
  simpl. lia.
Qed.

Lemma skipWhitespace_rest lx :
  (length (rest (skipWhitespace lx)) <= length (rest lx))%nat /\
  errors (skipWhitespace lx) = errors lx.
Proof.
  unfold skipWhitespace.
  pose proof (skipWhitespace_from_length (rest lx) (current_line lx)
                (current_column lx)) as H.
  by destruct (skipWhitespace_from _ _ _) as [[s line] column].
Qed.

(** After a decimal point [number] takes digits only. *)
Lemma number_from_digits s :
  match number_from s true with
  | (value, hasDecimal, r) =>
      s = value ++ r /\ forallb isDigit value = true /\ hasDecimal = true
  end.
Proof.
  induction s as [|c s IH]; simpl; [done|].
  destruct (isDigit c) eqn:D; simpl.
  - destruct (Ascii.eqb c ".") eqn:E; [done|].
    destruct (number_from s true) as [[value d] r].
    destruct IH as (-> & Hv & ->). simpl. by rewrite D.
  - by destruct (Ascii.eqb c ".").
Qed.

Lemma number_from_spec s :
  match number_from s false with
  | (value, hasDecimal, r) =>
      s = value ++ r /\
      if hasDecimal then decimal value = true
      else forallb isDigit value = true
  end.
Proof.
  induction s as [|c s IH]; simpl; [done|].
  destruct (Ascii.eqb c ".") eqn:E.
  - rewrite orb_true_r.
    pose proof (number_from_digits s) as H.
    destruct (number_from s true) as [[value d] r].
    destruct H as (-> & Hv & ->). simpl. by rewrite E.
  - rewrite orb_false_r. destruct (isDigit c) eqn:D; [|done].
    destruct (number_from s false) as [[value d] r].
    destruct IH as (-> & Hv). split; [done|].
    destruct d; simpl; by rewrite ?E, D.
Qed.

Lemma number_from_first c s :
  isDigit c = true ->
  exists value, (number_from (c :: s) false).1.1 = c :: value.
Proof.
  intros D. simpl. rewrite D. simpl.
  destruct (Ascii.eqb c ".") eqn:E.
  { apply Ascii.eqb_eq in E. subst c. done. }
  destruct (number_from s false) as [[value d] r]. by exists value.
Qed.

Lemma identifier_from_spec s :
  match identifier_from s with
  | (value, r) => s = value ++ r /\ forallb isAlphaNumeric value = true
  end.
Proof.
  induction s as [|c s IH]; simpl; [done|].
  destruct (isAlphaNumeric c) eqn:A; [|done].
  destruct (identifier_from s) as [value r]. destruct IH as [-> Hv].
  simpl. by rewrite A.
Qed.

Lemma isAlpha_isAlphaNumeric c : isAlpha c = true -> isAlphaNumeric c = true.
Proof.
  unfold isAlpha, isAlphaNumeric. simpl.
  intros H. repeat (apply orb_prop in H as [H|H]); rewrite H;
    by rewrite ?orb_true_r.
Qed.

Lemma string_from_length s :
  (length (string_from s).1.2 <= length s)%nat.
Proof.
  remember (length s) as n eqn:Hn. revert s Hn.
  induction n as [n IH] using (well_founded_induction lt_wf).
  intros [|c s] Hn; simpl; [lia|].
  destruct (Ascii.eqb c quote); [simpl in *; lia|].
  destruct (Ascii.eqb c backslash).
  - destruct s as [|c' s']; [simpl; lia|].
    destruct (_ || _).
    + pose proof (IH (length s') ltac:(simpl in Hn; lia) s' eq_refl) as H.
      destruct (string_from s') as [[value r] k]. simpl in *. lia.
    + pose proof (IH (length (c' :: s')) ltac:(simpl in *; lia) (c' :: s')
                    eq_refl) as H.
      destruct (string_from (c' :: s')) as [[value r] k]. simpl in *. lia.
  - pose proof (IH (length s) ltac:(simpl in Hn; lia) s eq_refl) as H.
    destruct (string_from s) as [[value r] k]. simpl in *. lia.
Qed.

Lemma comment_from_length s : (length (comment_from s).1 <= length s)%nat.
Proof.
  induction s as [|c s IH]; simpl; [lia|].
  destruct (Ascii.eqb c newline); [simpl; lia|].
  destruct (comment_from s) as [r n]. simpl in *. lia.
Qed.

Lemma advance_rest lx :
  rest lx <> [] ->
  length (rest lx) = S (length (rest (advance lx))) /\
  errors (advance lx) = errors lx.
Proof. unfold advance. by destruct (rest lx). Qed.

Lemma advance_length lx :
  (length (rest (advance lx)) <= length (rest lx))%nat /\
  errors (advance lx) = errors lx.
Proof.
  unfold advance. destruct (rest lx) eqn:R; simpl; [by rewrite R|].
  split; [lia|done].
Qed.

Lemma turn_single type text lx :
  rest lx <> [] ->
  well_lexed (mkToken type text (current_line lx) (current_column lx)) = true ->
  type <> TokenType.EOF_TOKEN ->
  turn lx (single type text lx).1 (single type text lx).2.
Proof.
  intros Hne Hw Hty. unfold single, turn. simpl.
  destruct (advance_rest lx Hne) as [Hl He]. split; [lia|].
  rewrite Hw. split; [done|]. exists []. rewrite app_nil_r. split; [done|].
  unfold is_eof. simpl. by rewrite bool_decide_false.
Qed.

Lemma turn_one_or_two second two text2 one text1 lx :
  rest lx <> [] ->
  (forall line column, well_lexed (mkToken two text2 line column) = true) ->
  (forall line column, well_lexed (mkToken one text1 line column) = true) ->
  two <> TokenType.EOF_TOKEN -> one <> TokenType.EOF_TOKEN ->
  turn lx (one_or_two second two text2 one text1 lx).1
          (one_or_two second two text2 one text1 lx).2.
Proof.
  intros Hne Hw2 Hw1 Hty2 Hty1. unfold one_or_two, turn.
  destruct (advance_rest lx Hne) as [Hl He].
  destruct (advance_length (advance lx)) as [Hl' He'].
  destruct (Ascii.eqb _ second); simpl.
  - split; [lia|]. rewrite Hw2. split; [done|]. exists [].
    rewrite app_nil_r. split; [congruence|].
    unfold is_eof. simpl. by rewrite bool_decide_false.
  - split; [lia|]. rewrite Hw1. split; [done|]. exists [].
    rewrite app_nil_r. split; [congruence|].
    unfold is_eof. simpl. by rewrite bool_decide_false.
Qed.

Lemma turn_doubled c type text lx :
  rest lx <> [] ->
  (forall line column, well_lexed (mkToken type text line column) = true) ->
  type <> TokenType.EOF_TOKEN ->
  turn lx (doubled c type text lx).1 (doubled c type text lx).2.
Proof.
  intros Hne Hw Hty. unfold doubled, turn.
  destruct (advance_rest lx Hne) as [Hl He].
  destruct (advance_length (advance lx)) as [Hl' He'].
  destruct (Ascii.eqb _ c); simpl.
  - split; [lia|]. rewrite Hw. split; [done|]. exists [].
    rewrite app_nil_r. split; [congruence|].
    unfold is_eof. simpl. by rewrite bool_decide_false.
  - split; [lia|]. split; [done|]. eexists. rewrite He. split; [done|done].
Qed.

Lemma well_lexed_keyword chars line column :
  starts_with isAlpha chars = true ->
  forallb isAlphaNumeric chars = true ->
  well_lexed (mkToken (keyword (string_of_list_ascii chars))
                (string_of_list_ascii chars) line column) = true.
Proof.
  intros Hs Ha. unfold well_lexed.
  cbn [tok_type tok_value]. rewrite list_ascii_of_string_of_list_ascii, Hs, Ha.
  set (value := string_of_list_ascii chars).
  assert (K : keyword value = TokenType.IDENTIFIER ->
              bool_decide (keyword value = TokenType.IDENTIFIER) = true)
    by (intros K; by apply bool_decide_eq_true).
  revert K. unfold keyword.
  destruct (String.eqb value "var") eqn:E1; [done|].
  destruct (String.eqb value "if") eqn:E2; [done|].
  destruct (String.eqb value "else") eqn:E3; [done|].
  destruct (String.eqb value "print") eqn:E4; [done|].
  destruct (String.eqb value "true") eqn:E5; [done|].
  destruct (String.eqb value "false") eqn:E6; [done|].
  intros K. by rewrite K.
Qed.

Lemma keyword_not_eof value : keyword value <> TokenType.EOF_TOKEN.
Proof. unfold keyword. by repeat destruct (String.eqb _ _). Qed.

Lemma well_lexed_number value (hasDecimal : bool) line column :
  starts_with isDigit value = true ->
  (if hasDecimal then decimal value = true
   else forallb isDigit value = true) ->
  well_lexed (mkToken (if hasDecimal then TokenType.FLOAT_LITERAL
                       else TokenType.INT_LITERAL)
                (string_of_list_ascii value) line column) = true.
Proof.
  intros Hs H. unfold well_lexed.
  destruct hasDecimal; cbn [tok_type tok_value];
    rewrite list_ascii_of_string_of_list_ascii; by rewrite Hs, H.
Qed.

Lemma turn_scan lx : rest lx <> [] -> turn lx (scan lx).1 (scan lx).2.
Proof.
  intros Hne. unfold scan.
  destruct (isDigit (peek lx)) eqn:D.
  { unfold number, peek in *. destruct (rest lx) as [|c s] eqn:R; [done|].
    destruct (number_from_first c s D) as [value' Hv].
    pose proof (number_from_spec (c :: s)) as H.
    destruct (number_from (c :: s) false) as [[value d] r].
    cbn [fst snd] in Hv. subst value. destruct H as [Hs H].
    unfold turn. cbn [fst snd rest errors current_line current_column].
    rewrite R. split; [rewrite Hs, length_app; simpl; lia|].
    split; [cbn [forallb]; by rewrite well_lexed_number|].
    exists []. rewrite app_nil_r. split; [done|].
    cbn [existsb]. unfold is_eof. cbn [tok_type]. by destruct d. }
  destruct (isAlpha (peek lx)) eqn:A.
  { unfold identifier, peek in *. destruct (rest lx) as [|c s] eqn:R; [done|].
    pose proof (identifier_from_spec (c :: s)) as H.
    pose proof (isAlpha_isAlphaNumeric c A) as AN.
    assert (Hfirst : exists value', (identifier_from (c :: s)).1 = c :: value').
    { simpl. rewrite AN. destruct (identifier_from s) as [v0 r0]. by eexists. }
    destruct Hfirst as [value' Hv].
    destruct (identifier_from (c :: s)) as [value r].
    cbn [fst] in Hv. subst value. destruct H as [Hs H].
    unfold turn. cbn [fst snd rest errors current_line current_column].
    rewrite R. split; [rewrite Hs, length_app; simpl; lia|].
    split; [cbn [forallb]; by rewrite well_lexed_keyword|].
    exists []. rewrite app_nil_r. split; [done|].
    cbn [existsb]. unfold is_eof. cbn [tok_type].
    rewrite bool_decide_false; [done|]. apply keyword_not_eof. }
  repeat match goal with
         | |- context [Ascii.eqb (peek lx) ?c] =>
             destruct (Ascii.eqb (peek lx) c) eqn:?
         end;
    try (by apply turn_single);
    try (by apply turn_one_or_two);
    try (by apply turn_doubled).
  - (* '/' *)
    destruct (advance_rest lx Hne) as [Hl He].
    destruct (Ascii.eqb (peek (advance lx)) "/"); simpl; unfold turn; simpl.
    + unfold skip_comment.
      pose proof (comment_from_length (rest (advance lx))) as Hc.
      destruct (comment_from _) as [r n]. simpl in *.
      split; [lia|]. split; [done|]. exists []. by rewrite app_nil_r.
    + split; [lia|]. split; [done|]. exists []. by rewrite app_nil_r.
  - (* a string *)
    destruct (advance_rest lx Hne) as [Hl He].
    unfold string_literal.
    pose proof (string_from_length (rest (advance lx))) as Hs.
    destruct (string_from _) as [[value r] n]. simpl in Hs.
    unfold isAtEnd. simpl. destruct r as [|c r]; simpl; unfold turn; simpl.
    + split; [lia|]. split; [done|]. eexists. rewrite He. split; [done|done].
    + unfold advance. simpl. split; [simpl in Hs; lia|]. split; [done|].
      exists []. rewrite app_nil_r. split; [done|done].
  - (* any other character *)
    unfold turn. simpl.
    destruct (advance_rest (report (UnexpectedCharacter (peek lx)
                (current_line lx) (current_column lx)) lx) Hne) as [Hl He].
    simpl in Hl. split; [lia|]. split; [done|]. rewrite He. simpl.
    eexists. split; [done|done].
Qed.

Lemma lexed_turn tokens lx pushed lx' :
  lexed tokens lx -> turn lx pushed lx' -> lexed (tokens ++ pushed) lx'.
Proof.
  intros [Hw He] (_ & Hw' & new & Hn & He').
  split; [by rewrite forallb_app, Hw, Hw'|].
  rewrite Hn. unfold unterminated in *. rewrite !existsb_app. intros H.
  apply orb_prop in H as [H|H].
  - by rewrite (He H).
  - rewrite (He' H). apply orb_true_r.
Qed.

(** The loop of [tokenize] ends within one turn more than there are
    characters left. *)
Lemma loop_returns fuel lx tokens :
  (length (rest lx) < fuel)%nat -> lexed tokens lx ->
  exists tokens' lx',
    loop fuel lx tokens = Some (tokens', lx') /\ lexed tokens' lx'.
Proof.
  revert lx tokens. induction fuel as [|fuel IH]; intros lx tokens Hf Hl;
    [lia|].
  simpl. unfold isAtEnd at 1.
  destruct (rest lx) as [|c s] eqn:R; [by exists tokens, lx|].
  destruct (skipWhitespace_rest lx) as [Hlen Herr].
  assert (Hl1 : lexed tokens (skipWhitespace lx)).
  { destruct Hl as [Hw He]. split; [done|]. by rewrite Herr. }
  unfold isAtEnd.
  destruct (rest (skipWhitespace lx)) as [|c' s'] eqn:R';
    [by exists tokens, (skipWhitespace lx)|].
  assert (Hne : rest (skipWhitespace lx) <> []) by (by rewrite R').
  pose proof (turn_scan _ Hne) as Ht.
  destruct (scan (skipWhitespace lx)) as [pushed lx1]. simpl in Ht.
  apply IH.
  - destruct Ht as [Ht _]. rewrite R' in Ht. rewrite R in Hlen.
    simpl in *. lia.
  - by eapply lexed_turn.
Qed.

Lemma list_ascii_length (s : string) :
  length (list_ascii_of_string s) = String.length s.
Proof. induction s as [|c s IH]; simpl; [done|]. by rewrite IH. Qed.

Lemma tokenize_returns source :
  exists body lx,
    tokenize source =
      Some (body ++ [mkToken TokenType.EOF_TOKEN ""
                       (current_line lx) (current_column lx)],
            errors lx) /\
    lexed body lx.
Proof.
  unfold tokenize.
  destruct (loop_returns (S (String.length source)) (new source) [])
    as (body & lx & -> & Hl).
  - unfold new. simpl. rewrite list_ascii_length. lia.
  - by split.
  - by exists body, lx.
Qed.
End Lexing.

(** ** Comparisons of [int] values held in doubles *)

Section IntegerOrder.

Lemma of_int_digits (p : positive) :
  Z.pos p <= Double.INT_MAX + 1 ->
  exists k,
    Z.pos k = 53 - Z.pos (digits2_pos p) /\
    Double.of_int (Z.pos p)
    = S754_finite false (PosDef.Pos.iter xO p k) (- Z.pos k) /\
    Double.of_int (Z.neg p)
    = S754_finite true (PosDef.Pos.iter xO p k) (- Z.pos k).
Proof.
  unfold Double.INT_MAX. intros Hp.
  assert (Hd : Z.pos (digits2_pos p) <= 32)
    by (apply digits2_pos_bound; lia).
  destruct (53 - Z.pos (digits2_pos p)) as [|k|k] eqn:Hk; try lia.
  exists k. split; [done|]. unfold Double.of_int, binary_normalize.
  rewrite !binary_round_exact with (k := k);
    unfold Double.prec, Double.emax; try lia.
  split; reflexivity.
Qed.

(** Normalized mantissas and exponents are ordered as the numbers. *)
Lemma magnitude_order p q kp kq :
  Z.pos kp = 53 - Z.pos (digits2_pos p) ->
  Z.pos kq = 53 - Z.pos (digits2_pos q) ->
  match - Z.pos kp ?= - Z.pos kq with
  | Eq => PosDef.Pos.compare_cont Eq (PosDef.Pos.iter xO p kp)
            (PosDef.Pos.iter xO q kq)
  | Lt => Lt
  | Gt => Gt
  end = (Z.pos p ?= Z.pos q).
Proof.
  intros Hp Hq.
  pose proof (digits2_pos_lower p) as Lp.
  pose proof (digits2_pos_upper p) as Up.
  pose proof (digits2_pos_lower q) as Lq.
  pose proof (digits2_pos_upper q) as Uq.
  destruct (Z.compare_spec (- Z.pos kp) (- Z.pos kq)) as [E|L|G].
  - assert (kp = kq) by lia. subst kq.
    change ((Z.pos (PosDef.Pos.iter xO p kp) ?= Z.pos (PosDef.Pos.iter xO q kp))
            = (Z.pos p ?= Z.pos q)).
    rewrite !Zpos_shift.
    assert (0 < 2 ^ Z.pos kp) by (apply Z.pow_pos_nonneg; lia).
    destruct (Z.compare_spec (Z.pos p) (Z.pos q));
      [apply Z.compare_eq_iff|apply Z.compare_lt_iff|apply Z.compare_gt_iff];
      nia.
  - symmetry. apply Z.compare_lt_iff.
    assert (2 ^ Z.pos (digits2_pos p) <= 2 ^ (Z.pos (digits2_pos q) - 1))
      by (apply Z.pow_le_mono_r; lia).
    lia.
  - symmetry. apply Z.compare_gt_iff.
    assert (2 ^ Z.pos (digits2_pos q) <= 2 ^ (Z.pos (digits2_pos p) - 1))
      by (apply Z.pow_le_mono_r; lia).
    lia.
Qed.

(** Doubles that hold [int] values compare as the [int] values. *)
Lemma SFcompare_of_int a b :
  Double.INT_MIN <= a <= Double.INT_MAX ->
  Double.INT_MIN <= b <= Double.INT_MAX ->
  SFcompare (Double.of_int a) (Double.of_int b) = Some (a ?= b).
Proof.
  unfold Double.INT_MIN, Double.INT_MAX. intros Ha Hb.
  assert (Hzero : Double.of_int 0 = S754_zero false) by reflexivity.
  destruct a as [|p|p], b as [|q|q]; rewrite ?Hzero;
    try (destruct (of_int_digits p) as (kp & Hkp & Hp & Hp');
         [unfold Double.INT_MAX; lia|]);
    try (destruct (of_int_digits q) as (kq & Hkq & Hq & Hq');
         [unfold Double.INT_MAX; lia|]);
    rewrite ?Hp, ?Hp', ?Hq, ?Hq'; simpl; try reflexivity.
  - f_equal. apply (magnitude_order p q kp kq Hkp Hkq).
  - f_equal. pose proof (magnitude_order p q kp kq Hkp Hkq) as M.
    simpl in M. rewrite <- M.
    by destruct (CompOpp (kp ?= kq)%positive).
Qed.

Lemma comparisons_of_int a b :
  Double.INT_MIN <= a <= Double.INT_MAX ->
  Double.INT_MIN <= b <= Double.INT_MAX ->
  Double.gtb (Double.of_int a) (Double.of_int b) = (a >? b) /\
  Double.ltb (Double.of_int a) (Double.of_int b) = (a <? b) /\
  Double.geb (Double.of_int a) (Double.of_int b) = (a >=? b) /\
  Double.leb (Double.of_int a) (Double.of_int b) = (a <=? b) /\
  Double.eqb (Double.of_int a) (Double.of_int b) = (a =? b) /\
  Double.neqb (Double.of_int a) (Double.of_int b) = negb (a =? b).
Proof.
  intros Ha Hb.
  unfold Double.gtb, Double.ltb, Double.geb, Double.leb, Double.eqb,
    Double.neqb, SFltb, SFleb, SFeqb.
  rewrite !SFcompare_of_int by done.
  rewrite Z.eqb_compare. unfold Z.gtb, Z.ltb, Z.geb, Z.leb.
  rewrite (Z.compare_antisym a b).
  by repeat split; destruct (a ?= b).
Qed.
End IntegerOrder.

(** ** The symbol table and the memory of the VM *)

Section Machine.

Lemma find_spec name ss i :
  match SymbolTable.find name ss i with
  | Some p =>
      ref_name p = name /\ (i <= ref_scope p)%nat /\
      (exists scope s,
          ss !! (ref_scope p - i)%nat = Some scope /\ scope !! name = Some s) /\
      (forall j scope,
          (j < ref_scope p - i)%nat -> ss !! j = Some scope ->
          scope !! name = None)
  | None => forall scope, scope ∈ ss -> scope !! name = None
  end.
Proof.
  revert i. induction ss as [|top ss IH]; intros i; simpl.
  - intros scope H. by apply elem_of_nil in H.
  - destruct (top !! name) as [s|] eqn:E.
    + simpl. rewrite Nat.sub_diag. split; [done|]. split; [lia|].
      split; [by exists top, s|]. intros j scope Hj. lia.
    + specialize (IH (S i)).
      destruct (SymbolTable.find name ss (S i)) as [p|].
      * destruct IH as (Hn & Hle & (scope & s & Hs & Hb) & Hnone).
        split; [done|]. split; [lia|]. split.
        -- exists scope, s. split; [|done].
           by replace (ref_scope p - i)%nat with (S (ref_scope p - S i))
             by lia.
        -- intros [|j] scope' Hj Hl; simpl in Hl.
           ++ by injection Hl as <-.
           ++ apply (Hnone j); [lia|done].
      * intros scope [->|H]%elem_of_cons; [done|by apply IH].
Qed.

(** Declarations change the innermost scope and the counter only. *)
Lemma declare_all_scopes declarations : forall st top rest,
  SymbolTable.scopes st = top :: rest ->
  exists top',
    SymbolTable.scopes (declare_all declarations st) = top' :: rest /\
    SymbolTable.next_address st
    <= SymbolTable.next_address (declare_all declarations st).
Proof.
  induction declarations as [|[name ty] declarations IH]; intros st top rest E;
    simpl.
  - exists top. split; [done|lia].
  - assert (H : exists top1,
      SymbolTable.scopes (SymbolTable.addSymbol name ty st).1.2 = top1 :: rest
      /\ SymbolTable.next_address st
         <= SymbolTable.next_address (SymbolTable.addSymbol name ty st).1.2).
    { unfold SymbolTable.addSymbol. rewrite E.
      destruct (top !! name) as [s|]; simpl.
      - exists top. split; [done|lia].
      - eexists. split; [done|lia]. }
    destruct H as (top1 & E1 & Hn1).
    destruct (IH _ _ _ E1) as (top' & Hs & Hn).
    exists top'. split; [done|lia].
Qed.

Lemma store_length address value mem :
  0 <= address ->
  size (VM.store address value mem) = Z.max (size mem) (address + 1).
Proof.
  intros Ha. unfold VM.store, size. rewrite length_insert.
  destruct (Z.of_nat (length mem) <=? address) eqn:E.
  - apply Z.leb_le in E. rewrite length_app, length_replicate. lia.
  - apply Z.leb_gt in E. lia.
Qed.


Lemma frame_refl vm : frame vm vm.
Proof. by repeat split. Qed.

Lemma frame_trans vm1 vm2 vm3 : frame vm1 vm2 -> frame vm2 vm3 -> frame vm1 vm3.
Proof.
  intros (B1 & P1 & C1 & M1) (B2 & P2 & C2 & M2).
  split; [congruence|]. split; [by etrans|]. split; [by etrans|lia].
Qed.

Lemma execute_framed b vm : framed vm (VM.execute b vm).
Proof.
  assert (R : forall s, frame vm (VM.with_stack s vm)) by (by repeat split).
  assert (P : forall x s, frame vm (VM.print x (VM.with_stack s vm))).
  { intros x s. repeat split; try done. simpl. by apply prefix_app_r. }
  unfold VM.execute, VM.compare, VM.binary, VM.jump, VM.error.
  destruct (instruction b); simpl;
    repeat case_match; simpl; try done; try apply frame_refl;
    try apply R; try apply P.
  - (* STORE *)
    repeat split; try done. simpl.
    match goal with
    | H : (_ <? 0) = false |- _ => apply Z.ltb_ge in H
    end.
    match goal with
    | |- context [VM.store ?a ?v ?m] =>
        pose proof (store_length a v m ltac:(done)) as L
    end.
    unfold size in L. lia.
  - (* CONCAT_STRING *)
    repeat split; try done. simpl. by apply prefix_app_r.
Qed.

Lemma step_framed vm : framed vm (VM.step vm).
Proof.
  unfold VM.step. destruct (VM.fetch vm) as [b|]; [|apply frame_refl].
  pose proof (execute_framed b (VM.with_pc (VM.pc vm + 1) vm)) as H.
  by destruct (VM.execute b _) as [vm'|[vm' v e|]].
Qed.

Lemma loop_framed fuel : forall vm vm' v e,
  VM.loop fuel vm = Some (VM.Returns vm' v e) -> frame vm vm'.
Proof.
  induction fuel as [|fuel IH]; intros vm vm' v e; simpl; [done|].
  pose proof (step_framed vm) as H.
  destruct (VM.step vm) as [vm1|f].
  - intros L. eapply frame_trans; [exact H|by eapply IH].
  - by intros [= ->].
Qed.
End Machine.

(** ** The ways [compile] does not return *)

Section Faults.
Import Compiler.

Lemma find_live name ss i p :
  SymbolTable.find name ss i = Some p ->
  exists scope,
    (i <= ref_scope p)%nat /\ ss !! (ref_scope p - i)%nat = Some scope /\
    is_Some (scope !! ref_name p).
Proof.
  revert i. induction ss as [|scope ss IH]; intros i; simpl; [done|].
  destruct (scope !! name) as [s|] eqn:E.
  - intros [= <-]. simpl. exists scope. rewrite Nat.sub_diag, E.
    split; [lia|]. by split.
  - intros (scope' & Hle & Hs & Hn)%IH. exists scope'. split; [lia|].
    split; [|done].
    replace (ref_scope p - i)%nat with (S (ref_scope p - S i)) by lia. done.
Qed.

(** The pointer that [lookupSymbol] returns designates a symbol. *)
Lemma lookupSymbol_live name st p :
  SymbolTable.lookupSymbol name st = Some p -> live p st.
Proof.
  intros (scope & _ & Hs & Hn)%find_live. unfold live, SymbolTable.deref.
  rewrite Nat.sub_0_r in Hs. by rewrite Hs.
Qed.

Lemma keeps_refl st : keeps st st.
Proof. by intros p. Qed.

Lemma keeps_trans st1 st2 st3 : keeps st1 st2 -> keeps st2 st3 -> keeps st1 st3.
Proof. intros H1 H2 p Hp. by apply H2, H1. Qed.

(** Setting the type of a symbol moves no symbol. *)
Lemma keeps_set_type q ty st : keeps st (SymbolTable.set_type q ty st).
Proof.
  intros p. unfold live, SymbolTable.deref, SymbolTable.set_type. simpl.
  rewrite list_lookup_alter. case_decide as Hs; [|done]. rewrite Hs.
  destruct (SymbolTable.scopes st !! ref_scope p) as [scope|]; simpl; [|done].
  intros [s Hs']. destruct (decide (ref_name q = ref_name p)) as [Hn|Hn].
  - rewrite Hn, lookup_alter_eq, Hs'. by eexists.
  - rewrite lookup_alter_ne by done. by eexists.
Qed.

Lemma push_address_keeps p c c' :
  push_address p c = Ok c' -> symbolTable c' = symbolTable c.
Proof.
  unfold push_address. destruct (SymbolTable.deref p (symbolTable c)); [|done].
  by intros [= <-].
Qed.

Lemma push_address_live p c :
  live p (symbolTable c) -> exists c', push_address p c = Ok c'.
Proof. intros [s Hs]. unfold push_address. rewrite Hs. by eexists. Qed.

(** The early return after a lowering step. *)
Ltac or_stop E :=
  match goal with
  | H : (if empty (bytecode ?c1) then _ else _) = Ok _ |- _ =>
      destruct (empty (bytecode c1)); [injection H as <-; exact E|]
  end.

(** Lowering an expression moves no symbol of the table. *)
Lemma compileExpression_keeps e :
  forall c c', compileExpression e c = Ok c' ->
               keeps (symbolTable c) (symbolTable c').
Proof.
  induction e as [token|token|identifier|identifier value IH
                 |l IHl op r IHr|op r IH]; intros c c' H; simpl in H.
  - destruct (tok_type token); try (injection H as <-; apply keeps_refl).
    + destruct (stoi _); [|done]. injection H as <-. apply keeps_refl.
    + destruct (stof _); [|done]. injection H as <-. apply keeps_refl.
  - destruct (tok_type token); injection H as <-; apply keeps_refl.
  - destruct (SymbolTable.lookupSymbol _ _) as [p|];
      [|injection H as <-; apply keeps_refl].
    destruct (push_address p c) as [c1|] eqn:Hp; [|done].
    injection H as <-. simpl. rewrite (push_address_keeps _ _ _ Hp).
    apply keeps_refl.
  - destruct (SymbolTable.lookupSymbol _ _) as [p|];
      [|injection H as <-; apply keeps_refl].
    destruct (compileExpression value c) as [c1|] eqn:Hv; [|done].
    simpl in H. pose proof (IH _ _ Hv) as E. or_stop E.
    destruct (resolveExpressionType value (symbolTable c1)) as [ty ws].
    simpl in H.
    destruct (SymbolTable.deref p (symbolTable c1)) as [s|]; [|done].
    destruct (_ && _); [injection H as <-; exact E|].
    destruct (push_address p _) as [c2|] eqn:Hp; [|done].
    injection H as <-. simpl. rewrite (push_address_keeps _ _ _ Hp).
    destruct (bool_decide _); [|exact E].
    simpl. eapply keeps_trans; [exact E|apply keeps_set_type].
  - destruct (operandType l (symbolTable c)) as [lt wl].
    destruct (operandType r (symbolTable c)) as [rt wr].
    set (c0 := report (wl ++ wr) c) in *.
    assert (Hoperands : forall i c',
      (c1 ← compileExpression l c0;
       if empty (bytecode c1) then Ok c1 else
       c2 ← compileExpression r c1;
       if empty (bytecode c2) then Ok c2 else
       Ok (emit (Bytecode_op i) c2)) = Ok c' ->
      keeps (symbolTable c) (symbolTable c')).
    { intros i c'' H'.
      destruct (compileExpression l c0) as [c1|] eqn:Hl; [|done].
      simpl in H'. pose proof (IHl _ _ Hl) as E1. or_stop E1.
      destruct (compileExpression r c1) as [c2|] eqn:Hr; [|done].
      simpl in H'.
      pose proof (keeps_trans _ _ _ E1 (IHr _ _ Hr)) as E2. or_stop E2.
      injection H' as <-. exact E2. }
    assert (Hshort : forall jump pad c',
      (c1 ← compileExpression l c0;
       if empty (bytecode c1) then Ok c1 else
       c2 ← compileExpression r (emit (Bytecode_int jump 0) c1);
       if empty (bytecode c2) then Ok c2 else
       Ok (close_short_circuit (length (bytecode c1)) pad c2)) = Ok c' ->
      keeps (symbolTable c) (symbolTable c')).
    { intros jump pad c'' H'.
      destruct (compileExpression l c0) as [c1|] eqn:Hl; [|done].
      simpl in H'. pose proof (IHl _ _ Hl) as E1. or_stop E1.
      destruct (compileExpression r _) as [c2|] eqn:Hr; [|done].
      simpl in H'.
      pose proof (keeps_trans _ _ _ E1 (IHr _ _ Hr)) as E2. or_stop E2.
      injection H' as <-. exact E2. }
    destruct (tok_type op);
      repeat match type of H with
             | (if ?b then _ else _) = _ => destruct b
             end;
      first [ by eapply Hoperands
            | by eapply Hshort
            | injection H as <-; apply keeps_refl ].
  - destruct (compileExpression r c) as [c1|] eqn:Hr; [|done].
    simpl in H. pose proof (IH _ _ Hr) as E. or_stop E.
    destruct (tok_type op); injection H as <-; exact E.
Qed.

(** When the lowering of an expression does not return, [std::stoi] or
    [std::stof] threw on one of its literals. *)
Lemma compileExpression_throws e :
  forall c f, compileExpression e c = Crash f ->
              exists token, token ∈ literals e /\ throws token f.
Proof.
  induction e as [token|token|identifier|identifier value IH
                 |l IHl op r IHr|op r IH]; intros c f H; simpl in H.
  - exists token. split; [apply list_elem_of_here|]. unfold throws.
    destruct (tok_type token); try done.
    + destruct (stoi _); [done|]. left. by injection H as <-.
    + destruct (stof _); [done|]. right. by injection H as <-.
  - by destruct (tok_type token).
  - destruct (SymbolTable.lookupSymbol _ _) as [p|] eqn:L; [|done].
    destruct (push_address_live p c (lookupSymbol_live _ _ _ L)) as [c1 Hp].
    by rewrite Hp in H.
  - destruct (SymbolTable.lookupSymbol _ _) as [p|] eqn:L; [|done].
    pose proof (lookupSymbol_live _ _ _ L) as Hlive.
    destruct (compileExpression value c) as [c1|] eqn:Hv;
      [|injection H as <-; by eapply IH].
    simpl in H. apply compileExpression_keeps in Hv.
    destruct (empty (bytecode c1)); [done|].
    destruct (resolveExpressionType value (symbolTable c1)) as [ty ws].
    simpl in H. destruct (Hv p Hlive) as [s Hs]. rewrite Hs in H.
    destruct (_ && _); [done|].
    match type of H with
    | context [push_address p ?c2] =>
        destruct (push_address_live p c2) as [c3 Hp];
          [|by rewrite Hp in H]
    end.
    destruct (bool_decide _); simpl; [|by exists s].
    apply keeps_set_type. by exists s.
  - assert (Hin : forall token,
      token ∈ literals l \/ token ∈ literals r ->
      token ∈ literals (BinaryExpression l op r)).
    { intros token. simpl. rewrite elem_of_app. done. }
    destruct (operandType l (symbolTable c)) as [lt wl].
    destruct (operandType r (symbolTable c)) as [rt wr].
    set (c0 := report (wl ++ wr) c) in *.
    assert (Hoperands : forall i,
      (c1 ← compileExpression l c0;
       if empty (bytecode c1) then Ok c1 else
       c2 ← compileExpression r c1;
       if empty (bytecode c2) then Ok c2 else
       Ok (emit (Bytecode_op i) c2)) = Crash f ->
      exists token,
        token ∈ literals (BinaryExpression l op r) /\ throws token f).
    { intros i H'.
      destruct (compileExpression l c0) as [c1|] eqn:Hl.
      2:{ injection H' as <-. destruct (IHl _ _ Hl) as (token & ? & ?).
          exists token. auto. }
      simpl in H'. destruct (empty (bytecode c1)); [done|].
      destruct (compileExpression r c1) as [c2|] eqn:Hr.
      2:{ injection H' as <-. destruct (IHr _ _ Hr) as (token & ? & ?).
          exists token. auto. }
      simpl in H'. by destruct (empty (bytecode c2)). }
    assert (Hshort : forall jump pad,
      (c1 ← compileExpression l c0;
       if empty (bytecode c1) then Ok c1 else
       c2 ← compileExpression r (emit (Bytecode_int jump 0) c1);
       if empty (bytecode c2) then Ok c2 else
       Ok (close_short_circuit (length (bytecode c1)) pad c2)) = Crash f ->
      exists token,
        token ∈ literals (BinaryExpression l op r) /\ throws token f).
    { intros jump pad H'.
      destruct (compileExpression l c0) as [c1|] eqn:Hl.
      2:{ injection H' as <-. destruct (IHl _ _ Hl) as (token & ? & ?).
          exists token. auto. }
      simpl in H'. destruct (empty (bytecode c1)); [done|].
      destruct (compileExpression r _) as [c2|] eqn:Hr.
      2:{ injection H' as <-. destruct (IHr _ _ Hr) as (token & ? & ?).
          exists token. auto. }
      simpl in H'. by destruct (empty (bytecode c2)). }
    destruct (tok_type op);
      repeat match type of H with
             | (if ?b then _ else _) = _ => destruct b
             end;
      first [ done | by eapply Hoperands | by eapply Hshort ].
  - destruct (compileExpression r c) as [c1|] eqn:Hr;
      [|injection H as <-; by eapply IH].
    simpl in H. destruct (empty (bytecode c1)); [done|].
    by destruct (tok_type op).
Qed.

Lemma Literal_getType_no_identifier token :
  Literal_getType token <> NodeType.IDENTIFIER_EXPRESSION.
Proof. unfold Literal_getType. by destruct (tok_type token). Qed.

Lemma Binary_getType_no_identifier lt op rt :
  Binary_getType lt op rt <> NodeType.IDENTIFIER_EXPRESSION.
Proof.
  unfold Binary_getType.
  destruct (tok_type op);
    repeat match goal with
           | |- context [if ?b then _ else _] => destruct b
           end; done.
Qed.

Lemma getType_identifier e :
  getType e = NodeType.IDENTIFIER_EXPRESSION <-> wraps_identifier e = true.
Proof.
  induction e as [token|token|identifier|identifier value IH
                 |l IHl op r IHr|op r IH]; simpl; try done.
  - split; [|done]. intros H. by apply Literal_getType_no_identifier in H.
  - split; [|done]. intros H. by apply Binary_getType_no_identifier in H.
Qed.

(** The cast of the initializer to [IdentifierExpression*] gives null
    for an identifier under unary operators or assignments, and for
    nothing else. *)
Lemma declaredType_NullCast initializer st :
  declaredType initializer st = NullCast <->
  exists init,
    initializer = Some init /\ wraps_identifier init = true
    /\ is_identifier init = false.
Proof.
  unfold declaredType. destruct initializer as [init|].
  2:{ split; [done|]. by intros (init & ? & _). }
  case_bool_decide as Hty.
  - apply getType_identifier in Hty.
    destruct init as [token|token|identifier|identifier value|l op r|op r];
      simpl in Hty; try discriminate Hty.
    + split; [by destruct (_ ≫= _)|]. by intros (init & [= <-] & _ & ?).
    + split; [|done]. intros _. by eexists.
    + split; [|done]. intros _. by eexists.
  - split; [done|]. intros (init' & [= <-] & Hw & _).
    by apply getType_identifier in Hw.
Qed.

Lemma compileNode_throws node :
  forall c f, compileNode node c = Crash f ->
    f = NullDereference
    \/ exists token, token ∈ node_literals node /\ throws token f.
Proof.
  induction node as [e|identifier initializer
                    |condition thenBranch elseBranch IHthen IHelse
                    |statements IH|e|] using ASTNode_ind;
    intros c f H.
  - right. by eapply compileExpression_throws.
  - simpl in H.
    destruct (declaredType initializer (symbolTable c)) as [varType| |];
      [|done|left; by injection H as <-].
    destruct (SymbolTable.addSymbol _ _ _) as [[added st] ds].
    destruct added; simpl in H; [|done].
    destruct initializer as [init|]; [|done].
    destruct (compileExpression init _) as [c1|] eqn:Hi;
      [|injection H as <-; right; by eapply compileExpression_throws].
    simpl in H. destruct (empty (bytecode c1)); [done|].
    destruct (SymbolTable.lookupSymbol _ _) as [p|] eqn:L; [|done].
    destruct (push_address_live p c1 (lookupSymbol_live _ _ _ L)) as [c2 Hp].
    by rewrite Hp in H.
  - simpl in H.
    destruct (compileExpression condition c) as [c1|] eqn:Hc.
    2:{ injection H as <-. right.
        destruct (compileExpression_throws _ _ _ Hc) as (token & ? & ?).
        exists token. split; [|done]. simpl. rewrite elem_of_app. auto. }
    simpl in H. destruct (empty (bytecode c1)); [done|].
    destruct (compileNode thenBranch _) as [c3|] eqn:Ht.
    2:{ injection H as <-. destruct (IHthen _ _ Ht) as [?|(token & ? & ?)];
          [by left|right].
        exists token. split; [|done]. simpl. rewrite !elem_of_app. auto. }
    simpl in H. destruct (empty (bytecode c3)); [done|].
    destruct elseBranch as [elseNode|]; [|done].
    destruct (compileNode elseNode _) as [c5|] eqn:He.
    2:{ injection H as <-. destruct (IHelse _ _ He) as [?|(token & ? & ?)];
          [by left|right].
        exists token. split; [|done]. simpl. rewrite !elem_of_app. auto. }
    simpl in H. by destruct (empty (bytecode c5)).
  - rewrite compileNode_block_unfold in H.
    revert H. generalize (enterScope c) as c0. simpl.
    induction IH as [|stmt rest Hstmt _ IHrest]; intros c0 H; [done|].
    destruct (compileNode stmt c0) as [c1|] eqn:Hs.
    2:{ injection H as <-. destruct (Hstmt _ _ Hs) as [?|(token & ? & ?)];
          [by left|right].
        exists token. split; [|done]. simpl. rewrite elem_of_app. auto. }
    simpl in H. destruct (empty (bytecode c1)); [done|].
    destruct (IHrest _ H) as [?|(token & ? & ?)]; [by left|right].
    exists token. split; [|done]. simpl. rewrite elem_of_app. auto.
  - simpl in H.
    destruct (compileExpression e c) as [c1|] eqn:He;
      [|injection H as <-; right; by eapply compileExpression_throws].
    simpl in H. destruct (empty (bytecode c1)); [done|].
    destruct (resolveExpressionType e (symbolTable c1)) as [ty ws].
    simpl in H. by destruct (is_string ty).
  - done.
Qed.
#[local] Arguments declaredType : simpl never.

(** A declaration with an initializer fails on the null cast only. *)
Lemma declaration_NullDereference identifier init c :
  compileNode (VariableDeclaration identifier (Some init)) c
  = Crash NullDereference
  <-> declaredType (Some init) (symbolTable c) = NullCast.
Proof.
  simpl.
  destruct (declaredType (Some init) (symbolTable c)) as [varType| |];
    [|done|done].
  split; [|done]. intros H. exfalso.
  destruct (SymbolTable.addSymbol _ _ _) as [[added st] ds].
  destruct added; simpl in H; [|done].
  destruct (compileExpression init _) as [c1|] eqn:Hi.
  - simpl in H. destruct (empty _); [done|].
    destruct (SymbolTable.lookupSymbol _ _) as [p|] eqn:L; [|done].
    destruct (push_address_live p c1 (lookupSymbol_live _ _ _ L)) as [c2 Hp].
    by rewrite Hp in H.
  - injection H as ->.
    destruct (compileExpression_throws _ _ _ Hi) as (token & _ & Ht).
    unfold throws, stoi, stof, round_decimal in Ht.
    destruct Ht as [[_ Ht]|[_ Ht]]; revert Ht;
      repeat case_match; done.
Qed.
End Faults.

(** ** From the lexer and the parser to the compiler *)

Section Bridge.

Lemma stoi_faults text f :
  stoi text = Crash f -> f = StdInvalidArgument \/ f = StdOutOfRange.
Proof.
  unfold stoi. destruct (Parse.sign _) as [neg s].
  destruct (Parse.digits s 0 0) as [[n count] r].
  destruct count; [intros [= <-]; by left|].
  destruct (_ && _); [done|]. intros [= <-]. by right.
Qed.

Lemma stof_faults text f :
  stof text = Crash f -> f = StdInvalidArgument \/ f = StdOutOfRange.
Proof.
  unfold stof, round_decimal. destruct (Parse.sign _) as [neg s].
  destruct (Parse.digits s 0 0) as [[n1 count1] s1].
  destruct (match s1 with
            | "."%char :: s2 =>
                let '(n2, count, _) := Parse.digits s2 n1 0 in (n2, count)
            | _ => (n1, O)
            end) as [n count2].
  destruct (count1 + count2)%nat; [intros [= <-]; by left|].
  destruct n as [|num|num]; try done.
  destruct (SFdiv _ _ _ _) as [| | |sign m e];
    try (intros [= <-]; by right).
  destruct (_ && _); [|done]. intros [= <-]. by right.
Qed.

Lemma digit_sign c s :
  Parse.is_digit c = true ->
  Parse.sign (Parse.skip_spaces (c :: s)) = (false, c :: s).
Proof.
  intros D.
  destruct c as [[] [] [] [] [] [] [] []]; try discriminate D; reflexivity.
Qed.

Lemma digits_count s :
  forall acc count, (count <= (Parse.digits s acc count).1.2)%nat.
Proof.
  induction s as [|c s IH]; intros acc count; simpl; [lia|].
  destruct (Parse.is_digit c); [|simpl; lia].
  specialize (IH (10 * acc + Parse.digit_value c) (S count)). lia.
Qed.

Lemma digits_first c s :
  Parse.is_digit c = true -> (0 < (Parse.digits (c :: s) 0 0).1.2)%nat.
Proof.
  intros D. simpl. rewrite D.
  pose proof (digits_count s (10 * 0 + Parse.digit_value c) 1). lia.
Qed.

(** Text that starts with a digit is a number for [std::stoi] and
    [std::stof]. *)
Lemma stoi_digit text :
  starts_with Lexer.isDigit (list_ascii_of_string text) = true ->
  stoi text <> Crash StdInvalidArgument.
Proof.
  unfold stoi. destruct (list_ascii_of_string text) as [|c s]; [done|].
  intros D. simpl in D. rewrite (digit_sign c s D).
  pose proof (digits_first c s D) as Hc.
  destruct (Parse.digits (c :: s) 0 0) as [[n count] r]. simpl in Hc.
  destruct count; [lia|]. by destruct (_ && _).
Qed.

Lemma stof_digit text :
  starts_with Lexer.isDigit (list_ascii_of_string text) = true ->
  stof text <> Crash StdInvalidArgument.
Proof.
  unfold stof, round_decimal.
  destruct (list_ascii_of_string text) as [|c s]; [done|].
  intros D. simpl in D. rewrite (digit_sign c s D).
  pose proof (digits_first c s D) as Hc.
  destruct (Parse.digits (c :: s) 0 0) as [[n1 count1] s1]. simpl in Hc.
  destruct (match s1 with
            | "."%char :: s2 =>
                let '(n2, count, _) := Parse.digits s2 n1 0 in (n2, count)
            | _ => (n1, O)
            end) as [n count2].
  destruct count1 as [|count1]; [lia|].
  change (S count1 + count2)%nat with (S (count1 + count2)).
  destruct n as [|num|num]; try done.
  match goal with
  | |- context [SFdiv ?a ?b ?x ?y] =>
      destruct (SFdiv a b x y) as [| | |sign m e]; try done
  end.
  by destruct (_ && _).
Qed.

(** On a token of the lexer the two functions throw for no other
    reason than a value out of range. *)
Lemma well_lexed_throws token f :
  well_lexed token = true -> throws token f -> f = StdOutOfRange.
Proof.
  unfold well_lexed, throws. intros Hw [[Hty Hf]|[Hty Hf]];
    rewrite Hty in Hw; apply andb_prop in Hw as [Hd _].
  - destruct (stoi_faults _ _ Hf) as [->|]; [|done].
    by apply stoi_digit in Hd.
  - destruct (stof_faults _ _ Hf) as [->|]; [|done].
    by apply stof_digit in Hd.
Qed.

Lemma parsed_expression_literals source e :
  parsed_expression source e = true ->
  forall token, token ∈ literals e -> token ∈ source.
Proof.
  induction e as [token|token|identifier|identifier value IH
                 |l IHl op r IHr|op r IH]; simpl; intros H token' Hin.
  - apply list_elem_of_singleton in Hin as ->.
    apply andb_prop in H as [H _]. by apply bool_decide_eq_true in H.
  - by apply elem_of_nil in Hin.
  - by apply elem_of_nil in Hin.
  - apply andb_prop in H as [_ H]. by apply IH.
  - apply andb_prop in H as [H Hr]. apply andb_prop in H as [_ Hl].
    apply elem_of_app in Hin as [Hin|Hin]; [by apply IHl|by apply IHr].
  - apply andb_prop in H as [_ H]. apply IH; [|done].
    by destruct (tok_type op).
Qed.

Lemma parsed_node_literals source node :
  parsed_node source node = true ->
  forall token, token ∈ node_literals node -> token ∈ source.
Proof.
  induction node as [e|identifier initializer
                    |condition thenBranch elseBranch IHthen IHelse
                    |statements IH|e|] using ASTNode_ind;
    simpl; intros H token Hin.
  - by eapply parsed_expression_literals.
  - apply andb_prop in H as [_ H]. destruct initializer as [init|].
    + by eapply parsed_expression_literals.
    + by apply elem_of_nil in Hin.
  - apply andb_prop in H as [H He]. apply andb_prop in H as [Hc Ht].
    apply elem_of_app in Hin as [Hin|Hin];
      [by eapply parsed_expression_literals|].
    apply elem_of_app in Hin as [Hin|Hin]; [by apply IHthen|].
    destruct elseBranch as [elseNode|]; [by apply IHelse|].
    by apply elem_of_nil in Hin.
  - induction IH as [|stmt rest Hstmt _ IHrest]; simpl in *;
      [by apply elem_of_nil in Hin|].
    apply andb_prop in H as [Hs Hr].
    apply elem_of_app in Hin as [Hin|Hin]; [by apply Hstmt|by apply IHrest].
  - by eapply parsed_expression_literals.
  - done.
Qed.

Lemma parsed_expression_literal_typed source e :
  parsed_expression source e = true -> literal_typed e = true.
Proof.
  induction e as [token|token|identifier|identifier value IH
                 |l IHl op r IHr|op r IH]; simpl; intros H; try done.
  - by apply andb_prop in H as [_ H].
  - apply andb_prop in H as [_ H]. by apply IH.
  - apply andb_prop in H as [H Hr]. apply andb_prop in H as [_ Hl].
    by rewrite IHl, IHr.
  - apply andb_prop in H as [_ H]. apply IH. by destruct (tok_type op).
Qed.

Lemma parsed_node_literal_typed source node :
  parsed_node source node = true -> node_literal_typed node = true.
Proof.
  induction node as [e|identifier initializer
                    |condition thenBranch elseBranch IHthen IHelse
                    |statements IH|e|] using ASTNode_ind;
    simpl; intros H.
  - by eapply parsed_expression_literal_typed.
  - apply andb_prop in H as [_ H]. destruct initializer as [init|]; [|done].
    by eapply parsed_expression_literal_typed.
  - apply andb_prop in H as [H He]. apply andb_prop in H as [Hc Ht].
    rewrite (parsed_expression_literal_typed _ _ Hc), (IHthen Ht). simpl.
    destruct elseBranch as [elseNode|]; [by apply IHelse|done].
  - induction IH as [|stmt rest Hstmt _ IHrest]; simpl in *; [done|].
    apply andb_prop in H as [Hs Hr]. by rewrite (Hstmt Hs), (IHrest Hr).
  - by eapply parsed_expression_literal_typed.
  - done.
Qed.
End Bridge.

(** ** Properties of finished programs *)

(** X1.  A nonempty program that [compile] returns for a tree whose
    literals hold literal tokens is the code of the tree followed by one
    [HALT].  In that code every jump targets a later index, at most the
    index of the [HALT]; every [PUSH_STRING] names a string of the
    compiler's pool; and [HALT], [POP], [AND] and [OR] do not occur. *)
Theorem compiled_program_layout ast c program c' :
  node_literal_typed ast = true ->
  Compiler.compile (Some ast) c = Ok (program, c') -> program <> [] ->
  exists body : list Bytecode,
    program = body ++ [Bytecode_op Instruction.HALT] /\
    all_placed (size (Compiler.string_literals c')) (size body) 0 body.
Proof.
  intros T H Hne.
  destruct (compile_code ast c program c' T H Hne) as (body & -> & C).
  exists body. split; [done|]. eapply StmtCode_placed; [exact C|lia].
Qed.

Lemma compiled_program_layout_witness :
  let ast := branch_on TokenType.GREATER in
  let program := (compiled_by_new ast).1 in
  let c' := (compiled_by_new ast).2 in
  node_literal_typed ast = true /\
  Compiler.compile (Some ast) Compiler.new = Ok (program, c') /\
  program <> [] /\
  exists body : list Bytecode,
    program = body ++ [Bytecode_op Instruction.HALT] /\
    all_placed (size (Compiler.string_literals c')) (size body) 0 body.
Proof.
  intros ast program c'.
  assert (H1 : node_literal_typed ast = true) by reflexivity.
  assert (H2 : Compiler.compile (Some ast) Compiler.new = Ok (program, c'))
    by (vm_compute; reflexivity).
  assert (H3 : program <> []) by (vm_compute; discriminate).
  repeat (split; [assumption|]).
  exact (compiled_program_layout ast Compiler.new program c' H1 H2 H3).
Defined.

(** X2.  Running a program that [compile] returned takes at most as many
    turns of the VM loop as the program has instructions: the run always
    ends. *)
Theorem compiled_program_terminates ast c program c' pool :
  node_literal_typed ast = true ->
  Compiler.compile (Some ast) c = Ok (program, c') -> program <> [] ->
  size program <= Double.INT_MAX ->
  exists f, VM.run (length program) program pool = Some f.
Proof.
  intros T H Hne M.
  destruct (compile_code ast c program c' T H Hne) as (body & -> & C).
  assert (P : all_placed (size (Compiler.string_literals c')) (size body) 0 body)
    by (eapply StmtCode_placed; [exact C|lia]).
  rewrite size_app in M. change (size [_]) with 1 in M.
  pose proof (size_nonneg body) as N.
  unfold VM.run.
  eapply placed_terminates; [exact P|lia|done|by simpl|].
  simpl. rewrite length_app. unfold size. simpl. lia.
Qed.

Lemma compiled_program_terminates_witness :
  let ast := branch_on TokenType.GREATER in
  let program := (compiled_by_new ast).1 in
  let c' := (compiled_by_new ast).2 in
  node_literal_typed ast = true /\
  Compiler.compile (Some ast) Compiler.new = Ok (program, c') /\
  program <> [] /\
  size program <= Double.INT_MAX /\
  exists f, VM.run (length program) program (Compiler.string_literals c')
            = Some f.
Proof.
  intros ast program c'.
  assert (H1 : node_literal_typed ast = true) by reflexivity.
  assert (H2 : Compiler.compile (Some ast) Compiler.new = Ok (program, c'))
    by (vm_compute; reflexivity).
  assert (H3 : program <> []) by (vm_compute; discriminate).
  assert (H4 : size program <= Double.INT_MAX) by (vm_compute; discriminate).
  repeat (split; [assumption|]).
  exact (compiled_program_terminates ast Compiler.new program c'
           (Compiler.string_literals c') H1 H2 H3 H4).
Defined.

(** X3.  A run of a program that [compile] returned never ends in "Stack
    underflow", in the error of a directly executed [AND]/[OR], or in
    "Program did not halt": it ends at the [HALT], in a run-time error of
    the program itself (division by zero, an address or string index out
    of range), or in an undefined conversion to [int]. *)
Theorem compiled_program_never_underflows ast c program c' pool fuel f :
  node_literal_typed ast = true ->
  Compiler.compile (Some ast) c = Ok (program, c') -> program <> [] ->
  size program <= Double.INT_MAX ->
  VM.run fuel program pool = Some f ->
  well_behaved f = true.
Proof.
  intros T H Hne M R.
  destruct (compile_code ast c program c' T H Hne) as (body & -> & C).
  destruct (program_stops _ body pool C M) as (n & vm' & f' & Hs & Hd & Hf).
  assert (R' : VM.run (S n) (body ++ [Bytecode_op Instruction.HALT]) pool
               = Some f')
    by (eapply loop_done; [exact Hs|exact Hd|lia]).
  by rewrite (loop_agree _ _ _ _ _ R R').
Qed.

Lemma compiled_program_never_underflows_witness :
  let ast := branch_on TokenType.GREATER in
  let program := (compiled_by_new ast).1 in
  let c' := (compiled_by_new ast).2 in
  let f := ending (VM.run 40 program (Compiler.string_literals c')) in
  node_literal_typed ast = true /\
  Compiler.compile (Some ast) Compiler.new = Ok (program, c') /\
  program <> [] /\
  size program <= Double.INT_MAX /\
  VM.run 40 program (Compiler.string_literals c') = Some f /\
  well_behaved f = true.
Proof.
  intros ast program c' f.
  assert (H1 : node_literal_typed ast = true) by reflexivity.
  assert (H2 : Compiler.compile (Some ast) Compiler.new = Ok (program, c'))
    by (vm_compute; reflexivity).
  assert (H3 : program <> []) by (vm_compute; discriminate).
  assert (H4 : size program <= Double.INT_MAX) by (vm_compute; discriminate).
  assert (H5 : VM.run 40 program (Compiler.string_literals c') = Some f)
    by (vm_compute; reflexivity).
  repeat (split; [assumption|]).
  exact (compiled_program_never_underflows ast Compiler.new program c'
           (Compiler.string_literals c') 40%nat f H1 H2 H3 H4 H5).
Defined.

(** ** Properties of the lexer, the parser and the way to the VM *)

(** X4.  [Lexer::tokenize] returns on every source text: its loop ends
    within one turn more than the text has characters.  The vector it
    returns ends with an [EOF_TOKEN], and no token before that one is an
    [EOF_TOKEN] unless an unterminated string was reported. *)
Theorem tokenize_ends_with_an_end_token (source : string) :
  exists body last errors,
    Lexer.tokenize source = Some (body ++ [last], errors) /\
    tok_type last = TokenType.EOF_TOKEN /\
    (unterminated errors = false -> existsb is_eof body = false).
Proof.
  destruct (tokenize_returns source) as (body & lx & H & _ & He).
  eexists body, _, _. split; [exact H|]. split; [done|].
  intros Hu. destruct (existsb is_eof body); [|done].
  by rewrite He in Hu.
Qed.

(** X5.  Every token that [tokenize] returns carries the text of its
    type: an [INT_LITERAL] a nonempty run of digits; a [FLOAT_LITERAL]
    digits, one point, digits, starting with a digit; an [IDENTIFIER] a
    name that is no keyword; a keyword, an operator or a punctuation
    token its spelling; the [EOF_TOKEN] the empty text. *)
Theorem tokens_carry_the_text_of_their_type source tokens errors :
  Lexer.tokenize source = Some (tokens, errors) ->
  forallb well_lexed tokens = true.
Proof.
  destruct (tokenize_returns source) as (body & lx & -> & Hw & _).
  intros [= <- _]. rewrite forallb_app, Hw. done.
Qed.

Lemma tokens_carry_the_text_of_their_type_witness :
  let source := "var x1 = 3.25 >= y; // note"%string in
  Lexer.tokenize source = Some ((scanned source).1, (scanned source).2) /\
  forallb well_lexed (scanned source).1 = true.
Proof.
  intros source.
  assert (H : Lexer.tokenize source
              = Some ((scanned source).1, (scanned source).2))
    by (vm_compute; reflexivity).
  split; [assumption|].
  exact (tokens_carry_the_text_of_their_type source _ _ H).
Defined.

(** X6.  [Parser::parse] returns on every token vector, whether or not
    it ends with an [EOF_TOKEN]: the parsing functions never call each
    other more than [10 * n + 13] deep on [n] tokens, [tokens[current_pos
    - 1]] is never read out of range, and a larger bound on the depth
    gives the same tree and the same parser state. *)
Theorem parse_returns_on_every_token_vector (tokens : list Token) :
  exists ast p,
    Parser.parse (Parser.new tokens) = Parser.Ret ast p /\
    Parser.tokens p = tokens /\
    forall fuel, (Parser.depth (length tokens) <= fuel)%nat ->
      Parser.parse_within fuel (Parser.new tokens) = Parser.Ret ast p.
Proof.
  destruct (parse_new_returns tokens) as (ast & p & H & F & _ & Hf).
  exists ast, p. split; [done|]. split; [by destruct F|done].
Qed.

(** X7.  A tree that [parse] returns is built from tokens of the vector
    it parsed, each of the kind its place asks for: a [Literal] holds a
    literal token, a [BooleanLiteral] [true] or [false], an identifier
    place an [IDENTIFIER], a [BinaryExpression] one of the twelve binary
    operators, a [UnaryExpression] [!] or [-].  And the parser has then
    read the tokens to the end: the next token is the [EOF_TOKEN], or
    there is none. *)
Theorem parse_builds_trees_of_the_grammar tokens ast p :
  Parser.parse (Parser.new tokens) = Parser.Ret (Some ast) p ->
  parsed_node tokens ast = true /\
  tok_type (Parser.peek p) = TokenType.EOF_TOKEN.
Proof.
  destruct (parse_new_returns tokens) as (ast' & p' & H & _ & Hast & _).
  rewrite H. by intros [= -> ->].
Qed.

Lemma parse_builds_trees_of_the_grammar_witness :
  let tokens :=
    (scanned "if (x > 1 && !done) { print(x + 2.5); } else { x = -2; }").1 in
  let r := Parser.parse (Parser.new tokens) in
  let ast := default OtherNode (parsed_tree r) in
  r = Parser.Ret (Some ast) (parser_after r) /\
  parsed_node tokens ast = true /\
  tok_type (Parser.peek (parser_after r)) = TokenType.EOF_TOKEN.
Proof.
  intros tokens r ast.
  assert (H : Parser.parse (Parser.new tokens)
              = Parser.Ret (Some ast) (parser_after r))
    by (vm_compute; reflexivity).
  split; [assumption|].
  exact (parse_builds_trees_of_the_grammar tokens ast (parser_after r) H).
Defined.

(** X8.  [parse] does not fail silently: when it returns null it has
    written a "Parser Error" line, unless the first token is the
    [EOF_TOKEN] or there is no token at all. *)
Theorem parse_fails_only_with_an_error_line tokens p :
  Parser.parse (Parser.new tokens) = Parser.Ret None p ->
  Parser.cerr p = [] ->
  tok_type (Parser.peek (Parser.new tokens)) = TokenType.EOF_TOKEN.
Proof.
  destruct (parse_new_returns tokens) as (ast' & p' & H & _ & Hast & _).
  rewrite H. intros [= -> ->] E. destruct Hast as [Hc|Hp]; [|done].
  unfold complained in Hc. rewrite E in Hc.
  cbn [Parser.cerr Parser.new length] in Hc. lia.
Qed.

Lemma parse_fails_only_with_an_error_line_witness :
  let tokens := (scanned "  // nothing to run").1 in
  let p := parser_after (Parser.parse (Parser.new tokens)) in
  Parser.parse (Parser.new tokens) = Parser.Ret None p /\
  Parser.cerr p = [] /\
  tok_type (Parser.peek (Parser.new tokens)) = TokenType.EOF_TOKEN.
Proof.
  intros tokens p.
  assert (H1 : Parser.parse (Parser.new tokens) = Parser.Ret None p)
    by (vm_compute; reflexivity).
  assert (H2 : Parser.cerr p = []) by (vm_compute; reflexivity).
  repeat (split; [assumption|]).
  exact (parse_fails_only_with_an_error_line tokens p H1 H2).
Defined.

(** X9.  [compile] fails to return in two ways only: [std::stoi] or
    [std::stof] throws on the text of a numeric literal of the tree, or a
    declaration reads through the null result of a cast.  It never reads
    through a [Symbol*] that designates no symbol. *)
Theorem compile_fails_on_a_literal_or_a_null_cast ast c f :
  Compiler.compile ast c = Crash f ->
  f <> DanglingPointer /\
  (f = NullDereference \/
   exists node token,
     ast = Some node /\ token ∈ node_literals node /\ throws token f).
Proof.
  unfold Compiler.compile. intros H.
  destruct ast as [node|]; [|done].
  destruct (Compiler.compileNode node _) as [c1|] eqn:Hc.
  { simpl in H. by destruct (empty _). }
  injection H as <-.
  destruct (compileNode_throws _ _ _ Hc) as [->|(token & Hin & Ht)];
    [split; [done|by left]|].
  split; [|right; by exists node, token].
  destruct Ht as [[_ Ht]|[_ Ht]].
  - by destruct (stoi_faults _ _ Ht) as [->| ->].
  - by destruct (stof_faults _ _ Ht) as [->| ->].
Qed.

Lemma compile_fails_on_a_literal_or_a_null_cast_witness :
  let ast := Some (PrintStatement (int_literal "2147483648")) in
  Compiler.compile ast Compiler.new = Crash StdOutOfRange /\
  StdOutOfRange <> DanglingPointer /\
  (StdOutOfRange = NullDereference \/
   exists node token,
     ast = Some node /\ token ∈ node_literals node
     /\ throws token StdOutOfRange).
Proof.
  intros ast.
  assert (H : Compiler.compile ast Compiler.new = Crash StdOutOfRange)
    by (vm_compute; reflexivity).
  split; [assumption|].
  exact (compile_fails_on_a_literal_or_a_null_cast ast Compiler.new
           StdOutOfRange H).
Defined.

(** X10.  Lowering [var x = init;] dereferences a null pointer exactly
    when [init] is an identifier under at least one unary operator or
    assignment, as in [var x = -y;] and [var x = y = z;]: [getType()] of
    such an initializer is [IDENTIFIER_EXPRESSION], and the cast to
    [IdentifierExpression*] gives null.  This does not depend on the
    symbol table. *)
Theorem declaration_dereferences_null identifier init c :
  Compiler.compileNode (VariableDeclaration identifier (Some init)) c
  = Crash NullDereference
  <-> wraps_identifier init = true /\ is_identifier init = false.
Proof.
  rewrite declaration_NullDereference, declaredType_NullCast. split.
  - by intros (init' & [= <-] & ? & ?).
  - intros [? ?]. by exists init.
Qed.

Lemma declaration_dereferences_null_witness :
  Compiler.compileNode
    (VariableDeclaration (tok TokenType.IDENTIFIER "x")
       (Some (UnaryExpression (tok TokenType.MINUS "-") (variable "y"))))
    Compiler.new
  = Crash NullDereference.
Proof.
  apply (proj2 (declaration_dereferences_null _ _ _)).
  split; reflexivity.
Defined.

(** X11.  On a tree that the parser built from tokens of the lexer,
    [compile] returns unless a numeric literal is out of the range of its
    type ([std::out_of_range]) or a declaration dereferences null:
    [std::stoi] and [std::stof] never throw [std::invalid_argument]
    there. *)
Theorem source_fails_on_a_large_literal_or_a_null_cast
    source tokens errors ast p c f :
  Lexer.tokenize source = Some (tokens, errors) ->
  Parser.parse (Parser.new tokens) = Parser.Ret ast p ->
  Compiler.compile ast c = Crash f ->
  f = StdOutOfRange \/ f = NullDereference.
Proof.
  intros Hl Hp Hc.
  destruct (tokenize_returns source) as (body & lx & Hs & Hw & _).
  rewrite Hs in Hl. injection Hl as <- _.
  assert (Hall : forallb well_lexed
                   (body ++ [mkToken TokenType.EOF_TOKEN ""
                               (Lexer.current_line lx)
                               (Lexer.current_column lx)]) = true)
    by (by rewrite forallb_app, Hw).
  clear Hs Hw.
  unfold Compiler.compile in Hc. destruct ast as [node|]; [|done].
  destruct (Compiler.compileNode node _) as [c1|] eqn:Hn.
  { simpl in Hc. by destruct (empty _). }
  injection Hc as <-.
  destruct (compileNode_throws _ _ _ Hn) as [->|(token & Hin & Ht)];
    [by right|left].
  destruct (parse_new_returns (body ++ [mkToken TokenType.EOF_TOKEN ""
              (Lexer.current_line lx) (Lexer.current_column lx)]))
    as (ast' & p' & H & _ & Hast & _).
  rewrite H in Hp. injection Hp as -> ->.
  pose proof (parsed_node_literals _ _ (proj1 Hast) token Hin) as Hsrc.
  rewrite forallb_forall in Hall.
  apply (well_lexed_throws token); [|done].
  apply Hall. by apply list_elem_of_In.
Qed.

Lemma source_fails_on_a_large_literal_or_a_null_cast_witness :
  let source := "var y = 1; var x = -y;"%string in
  let tokens := (scanned source).1 in
  let r := Parser.parse (Parser.new tokens) in
  Lexer.tokenize source = Some (tokens, (scanned source).2) /\
  r = Parser.Ret (parsed_tree r) (parser_after r) /\
  Compiler.compile (parsed_tree r) Compiler.new = Crash NullDereference /\
  (NullDereference = StdOutOfRange \/ NullDereference = NullDereference).
Proof.
  intros source tokens r.
  assert (H1 : Lexer.tokenize source = Some (tokens, (scanned source).2))
    by (vm_compute; reflexivity).
  assert (H2 : Parser.parse (Parser.new tokens)
               = Parser.Ret (parsed_tree r) (parser_after r))
    by (vm_compute; reflexivity).
  assert (H3 : Compiler.compile (parsed_tree r) Compiler.new
               = Crash NullDereference)
    by (vm_compute; reflexivity).
  repeat (split; [assumption|]).
  exact (source_fails_on_a_large_literal_or_a_null_cast source tokens
           (scanned source).2 (parsed_tree r) (parser_after r) Compiler.new
           NullDereference H1 H2 H3).
Defined.

(** X12.  The program that a new compiler makes of a tree of the parser
    runs to an end on the compiler's string pool, as
    [process_source_code] runs it: within as many turns of the VM loop as
    the program has instructions, with the same end whatever the bound
    on the turns, and never in "Stack underflow", the error of a
    directly executed [AND]/[OR], or "Program did not halt". *)
Theorem source_program_runs_to_an_end tokens ast p program c' :
  Parser.parse (Parser.new tokens) = Parser.Ret (Some ast) p ->
  Compiler.compile (Some ast) Compiler.new = Ok (program, c') ->
  program <> [] -> size program <= Double.INT_MAX ->
  exists f,
    VM.run (length program) program (Compiler.string_literals c') = Some f /\
    well_behaved f = true /\
    forall fuel f',
      VM.run fuel program (Compiler.string_literals c') = Some f' -> f' = f.
Proof.
  intros Hp Hc Hne M.
  assert (T : node_literal_typed ast = true).
  { destruct (parse_new_returns tokens) as (ast' & p' & H & _ & Hast & _).
    rewrite H in Hp. injection Hp as -> ->.
    eapply parsed_node_literal_typed. exact (proj1 Hast). }
  destruct (compile_code ast _ program c' T Hc Hne) as (body & -> & C).
  set (pool := Compiler.string_literals c').
  destruct (program_stops _ body pool C M) as (n & vm' & f & Hs & Hd & Hf).
  assert (R : VM.run (S n) (body ++ [Bytecode_op Instruction.HALT]) pool
              = Some f)
    by (eapply loop_done; [exact Hs|exact Hd|lia]).
  assert (P : all_placed (size (Compiler.string_literals c')) (size body) 0
                body)
    by (eapply StmtCode_placed; [exact C|lia]).
  rewrite size_app in M. change (size [_]) with 1 in M.
  pose proof (size_nonneg body) as N.
  destruct (placed_terminates _ body P ltac:(lia)
              (length (body ++ [Bytecode_op Instruction.HALT]))
              (VM.init (body ++ [Bytecode_op Instruction.HALT]) pool))
    as [f0 R0]; [done|by simpl| |].
  { simpl. rewrite length_app. unfold size. simpl. lia. }
  exists f. split; [|split; [done|]].
  - unfold VM.run. rewrite R0. f_equal. by eapply loop_agree.
  - intros fuel f' R'. by eapply loop_agree.
Qed.

Lemma source_program_runs_to_an_end_witness :
  let tokens :=
    (scanned "var x = 3; if (x > 1 && x < 5) { print(x * 2); }").1 in
  let r := Parser.parse (Parser.new tokens) in
  let ast := default OtherNode (parsed_tree r) in
  let program := (compiled_by_new ast).1 in
  let c' := (compiled_by_new ast).2 in
  r = Parser.Ret (Some ast) (parser_after r) /\
  Compiler.compile (Some ast) Compiler.new = Ok (program, c') /\
  program <> [] /\
  size program <= Double.INT_MAX /\
  exists f,
    VM.run (length program) program (Compiler.string_literals c') = Some f /\
    well_behaved f = true /\
    forall fuel f',
      VM.run fuel program (Compiler.string_literals c') = Some f' -> f' = f.
Proof.
  intros tokens r ast program c'.
  assert (H1 : Parser.parse (Parser.new tokens)
               = Parser.Ret (Some ast) (parser_after r))
    by (vm_compute; reflexivity).
  assert (H2 : Compiler.compile (Some ast) Compiler.new = Ok (program, c'))
    by (vm_compute; reflexivity).
  assert (H3 : program <> []) by (vm_compute; discriminate).
  assert (H4 : size program <= Double.INT_MAX) by (vm_compute; discriminate).
  repeat (split; [assumption|]).
  exact (source_program_runs_to_an_end tokens ast (parser_after r) program c'
           H1 H2 H3 H4).
Defined.

(** ** Properties of the symbol table and of single instructions *)

(** X13.  [lookupSymbol] returns the binding of the innermost scope that
    binds the name: no scope further in binds it, and reading through
    the pointer gives that symbol.  It returns null exactly when no scope
    binds the name. *)
Theorem lookupSymbol_finds_the_innermost_binding name st :
  match SymbolTable.lookupSymbol name st with
  | Some p =>
      ref_name p = name /\
      (exists scope s,
          SymbolTable.scopes st !! ref_scope p = Some scope /\
          scope !! name = Some s /\ SymbolTable.deref p st = Some s) /\
      forall i scope,
        (i < ref_scope p)%nat -> SymbolTable.scopes st !! i = Some scope ->
        scope !! name = None
  | None =>
      forall scope, scope ∈ SymbolTable.scopes st -> scope !! name = None
  end.
Proof.
  unfold SymbolTable.lookupSymbol.
  pose proof (find_spec name (SymbolTable.scopes st) 0) as H.
  destruct (SymbolTable.find name (SymbolTable.scopes st) 0) as [p|]; [|done].
  destruct H as (Hn & _ & (scope & s & Hs & Hb) & Hnone).
  rewrite Nat.sub_0_r in *. split; [done|]. split; [|done].
  exists scope, s. split; [done|]. split; [done|].
  unfold SymbolTable.deref. rewrite Hs. simpl. by rewrite Hn.
Qed.

(** X14.  What a scope declares is gone when the scope is left:
    [enterScope], any declarations, [exitScope] leave the scopes as they
    were, without a warning, so every name resolves as before; the
    address counter is not set back. *)
Theorem block_declarations_are_local declarations st :
  SymbolTable.scopes st <> [] ->
  let left :=
    SymbolTable.exitScope
      (declare_all declarations (SymbolTable.enterScope st)) in
  SymbolTable.scopes left.1 = SymbolTable.scopes st /\
  left.2 = [] /\
  SymbolTable.next_address st <= SymbolTable.next_address left.1 /\
  forall name,
    SymbolTable.lookupSymbol name left.1 = SymbolTable.lookupSymbol name st.
Proof.
  intros Hne left.
  destruct (declare_all_scopes declarations (SymbolTable.enterScope st)
              ∅ (SymbolTable.scopes st) eq_refl) as (top' & Hs & Hn).
  assert (H : left = (SymbolTable.mk (SymbolTable.scopes st)
                        (SymbolTable.next_address
                           (declare_all declarations
                              (SymbolTable.enterScope st))), [])).
  { unfold left, SymbolTable.exitScope. rewrite Hs.
    by destruct (SymbolTable.scopes st). }
  rewrite H. simpl in *. repeat split; try done.
Qed.

Lemma block_declarations_are_local_witness :
  let declarations :=
    [("x"%string, NodeType.INTEGER); ("y"%string, NodeType.FLOAT);
     ("x"%string, NodeType.BOOLEAN_LITERAL)] in
  let left :=
    SymbolTable.exitScope
      (declare_all declarations (SymbolTable.enterScope outer_x)) in
  SymbolTable.scopes outer_x <> [] /\
  SymbolTable.scopes left.1 = SymbolTable.scopes outer_x /\
  left.2 = [] /\
  SymbolTable.next_address outer_x <= SymbolTable.next_address left.1 /\
  forall name,
    SymbolTable.lookupSymbol name left.1
    = SymbolTable.lookupSymbol name outer_x.
Proof.
  intros declarations left.
  assert (H : SymbolTable.scopes outer_x <> []) by (vm_compute; discriminate).
  split; [assumption|].
  exact (block_declarations_are_local declarations outer_x H).
Defined.

(** X15.  An instruction reports "Stack underflow" exactly when the
    stack holds fewer values than the instruction takes (two for the
    binary operators, the comparisons, [STORE] and [CONCAT_STRING]; one
    for [NEGATE], [POP], [LOAD], [NOT], the conditional jumps and the
    prints; none for the rest).  The error names the instruction, and the
    stack is left as it was. *)
Theorem stack_underflow_iff_too_few_operands b vm :
  ((length (VM.stack vm) < operands (instruction b))%nat ->
   VM.execute b vm = VM.error (StackUnderflow (instruction b)) vm) /\
  ((operands (instruction b) <= length (VM.stack vm))%nat ->
   forall vm' v i,
     VM.execute b vm
     <> VM.Done (VM.Returns vm' v (Some (StackUnderflow i)))).
Proof.
  unfold VM.execute, VM.compare, VM.binary, VM.jump, VM.error.
  destruct (instruction b) eqn:I;
    destruct (VM.stack vm) as [|x [|y rest]] eqn:S; simpl;
    (split;
     [intros H; first [lia|done]
     |intros H vm' v i; first [lia|repeat case_match; done]]).
Qed.

Lemma stack_underflow_iff_too_few_operands_witness :
  let vm := VM.init [Bytecode_op Instruction.ADD] [] in
  (length (VM.stack vm) < operands Instruction.ADD)%nat /\
  VM.execute (Bytecode_op Instruction.ADD) vm
  = VM.error (StackUnderflow Instruction.ADD) vm.
Proof.
  intros vm.
  assert (H : (length (VM.stack vm)
               < operands (instruction (Bytecode_op Instruction.ADD)))%nat)
    by (vm_compute; lia).
  split; [exact H|].
  exact (proj1 (stack_underflow_iff_too_few_operands
                  (Bytecode_op Instruction.ADD) vm) H).
Defined.



(** X17.  [CONCAT_STRING] on two indices of the string pool appends the
    concatenation of the two strings, first operand first, to the pool
    and pushes the index of the new string; a [PRINT_STRING] that follows
    prints it.  The two operand strings stay in the pool. *)
Theorem concatenation_appends_to_the_pool
    code stack mem pool pc out (i1 i2 : nat) s1 s2 :
  pool !! i1 = Some s1 -> pool !! i2 = Some s2 ->
  size pool <= Double.INT_MAX ->
  VM.execute (Bytecode_op Instruction.CONCAT_STRING)
    (VM.mk code
       (Double.of_int (Z.of_nat i2) :: Double.of_int (Z.of_nat i1) :: stack)
       mem pool pc out)
  = VM.Next (VM.mk code (Double.of_int (size pool) :: stack) mem
               (pool ++ [(s1 ++ s2)%string]) pc out) /\
  VM.execute (Bytecode_op Instruction.PRINT_STRING)
    (VM.mk code (Double.of_int (size pool) :: stack) mem
       (pool ++ [(s1 ++ s2)%string]) pc out)
  = VM.Next (VM.mk code stack mem (pool ++ [(s1 ++ s2)%string]) pc
               (out ++ [PrintedText (s1 ++ s2)])).
Proof.
  intros H1 H2 M.
  pose proof (lookup_lt_Some _ _ _ H1) as L1.
  pose proof (lookup_lt_Some _ _ _ H2) as L2.
  pose proof (size_nonneg pool) as N.
  unfold size in *. unfold VM.execute. simpl.
  rewrite !to_int_of_int
    by (unfold Double.INT_MIN, Double.INT_MAX in *; lia).
  unfold VM.valid_index, size. simpl.
  rewrite !Nat2Z.id, H1, H2.
  rewrite !(proj2 (Z.leb_le _ _)), !(proj2 (Z.ltb_lt _ _)) by lia.
  simpl. split; [done|].
  rewrite length_app. simpl.
  rewrite (proj2 (Z.ltb_lt _ _)) by lia.
  rewrite lookup_app_r by lia. by rewrite Nat.sub_diag.
Qed.

Lemma concatenation_appends_to_the_pool_witness :
  let pool := ["Hello, "%string; "World"%string] in
  pool !! 0%nat = Some "Hello, "%string /\
  pool !! 1%nat = Some "World"%string /\
  size pool <= Double.INT_MAX /\
  VM.execute (Bytecode_op Instruction.CONCAT_STRING)
    (VM.mk [] [Double.of_int 1; Double.of_int 0] [] pool 0 [])
  = VM.Next (VM.mk [] [Double.of_int 2] []
               (pool ++ ["Hello, World"%string]) 0 []) /\
  VM.execute (Bytecode_op Instruction.PRINT_STRING)
    (VM.mk [] [Double.of_int 2] [] (pool ++ ["Hello, World"%string]) 0 [])
  = VM.Next (VM.mk [] [] [] (pool ++ ["Hello, World"%string]) 0
               [PrintedText "Hello, World"]).
Proof.
  intros pool.
  assert (H1 : pool !! 0%nat = Some "Hello, "%string) by reflexivity.
  assert (H2 : pool !! 1%nat = Some "World"%string) by reflexivity.
  assert (H3 : size pool <= Double.INT_MAX) by (vm_compute; discriminate).
  repeat (split; [assumption|]).
  exact (concatenation_appends_to_the_pool [] [] [] pool 0 [] 0 1
           "Hello, " "World" H1 H2 H3).
Defined.

(** X18.  An [int] operand survives its trip through the [double] field
    of [Bytecode]: what the VM converts back with [static_cast<int>] is
    the [int] that the constructor stored, so a jump built with target
    [z] sets the program counter to [z]. *)
Theorem int_operand_round_trip i z vm :
  Double.INT_MIN <= z <= Double.INT_MAX ->
  Double.to_int (operand (Bytecode_int i z)) = Some z /\
  VM.jump (operand (Bytecode_int i z)) vm = VM.Next (VM.with_pc z vm).
Proof.
  intros H. unfold VM.jump. simpl. by rewrite to_int_of_int.
Qed.

Lemma int_operand_round_trip_witness :
  let vm := VM.init [] [] in
  Double.INT_MIN <= -2147483648 <= Double.INT_MAX /\
  Double.to_int (operand (Bytecode_int Instruction.JUMP (-2147483648)))
  = Some (-2147483648) /\
  VM.jump (operand (Bytecode_int Instruction.JUMP (-2147483648))) vm
  = VM.Next (VM.with_pc (-2147483648) vm).
Proof.
  intros vm.
  assert (H : Double.INT_MIN <= -2147483648 <= Double.INT_MAX)
    by (vm_compute; split; discriminate).
  split; [assumption|].
  exact (int_operand_round_trip Instruction.JUMP (-2147483648) vm H).
Defined.

(** X19.  [run] never changes the program it runs, and never takes a
    string out of the pool or moves one: it only appends the results of
    concatenations, so every index into the pool it was given names the
    same string when the run ends. *)
Theorem run_keeps_the_program_and_the_pool fuel code pool vm v e :
  VM.run fuel code pool = Some (VM.Returns vm v e) ->
  VM.bytecode vm = code /\
  pool `prefix_of` VM.string_literals vm /\
  forall i s, pool !! i = Some s -> VM.string_literals vm !! i = Some s.
Proof.
  intros (B & P & _ & _)%loop_framed. simpl in *.
  split; [done|]. split; [done|].
  intros i s H. by eapply prefix_lookup_Some.
Qed.

Lemma run_keeps_the_program_and_the_pool_witness :
  let ast := PrintStatement (binary (string_literal "Hello, ")
                               TokenType.PLUS (string_literal "World")) in
  let code := (compiled_by_new ast).1 in
  let pool := Compiler.string_literals (compiled_by_new ast).2 in
  let vm :=
    match ending (VM.run 10 code pool) with
    | VM.Returns vm _ _ => vm
    | VM.UndefinedBehaviour => VM.init [] []
    end in
  VM.run 10 code pool = Some (VM.Returns vm Double.zero None) /\
  VM.bytecode vm = code /\
  pool `prefix_of` VM.string_literals vm /\
  forall i s, pool !! i = Some s -> VM.string_literals vm !! i = Some s.
Proof.
  intros ast code pool vm.
  assert (H : VM.run 10 code pool = Some (VM.Returns vm Double.zero None))
    by (vm_compute; reflexivity).
  split; [assumption|].
  exact (run_keeps_the_program_and_the_pool 10 code pool vm Double.zero None H).
Defined.

(** X20.  The six comparison instructions compare [int] values exactly:
    on a stack that holds two values converted from [int]s [a] and [b]
    (pushed in this order), each pushes 1 when the comparison of the
    integers [a] and [b] holds and 0 when it does not. *)
Theorem integer_comparisons_are_exact
    i compares a b code stack mem pool pc out :
  integer_comparison i = Some compares ->
  Double.INT_MIN <= a <= Double.INT_MAX ->
  Double.INT_MIN <= b <= Double.INT_MAX ->
  VM.execute (Bytecode_op i)
    (VM.mk code (Double.of_int b :: Double.of_int a :: stack) mem pool pc out)
  = VM.Next (VM.mk code (Double.of_bool (compares a b) :: stack) mem pool
               pc out).
Proof.
  intros Hi Ha Hb.
  destruct (comparisons_of_int a b Ha Hb) as (G & L & GE & LE & E & NE).
  unfold VM.execute, VM.compare, VM.binary, VM.with_stack.
  destruct i; try discriminate Hi; injection Hi as <-; simpl;
    by rewrite ?G, ?L, ?GE, ?LE, ?E, ?NE.
Qed.

Lemma integer_comparisons_are_exact_witness :
  integer_comparison Instruction.LESS_EQUAL = Some Z.leb /\
  Double.INT_MIN <= -7 <= Double.INT_MAX /\
  Double.INT_MIN <= 2147483647 <= Double.INT_MAX /\
  VM.execute (Bytecode_op Instruction.LESS_EQUAL)
    (VM.mk [] [Double.of_int 2147483647; Double.of_int (-7)] [] [] 0 [])
  = VM.Next (VM.mk [] [Double.of_bool (-7 <=? 2147483647)] [] [] 0 []).
Proof.
  assert (H1 : integer_comparison Instruction.LESS_EQUAL = Some Z.leb)
    by reflexivity.
  assert (H2 : Double.INT_MIN <= -7 <= Double.INT_MAX)
    by (vm_compute; split; discriminate).
  assert (H3 : Double.INT_MIN <= 2147483647 <= Double.INT_MAX)
    by (vm_compute; split; discriminate).
  repeat (split; [assumption|]).
  exact (integer_comparisons_are_exact Instruction.LESS_EQUAL Z.leb (-7)
           2147483647 [] [] [] [] 0 [] H1 H2 H3).
Defined.
